(** * Bluff-Bar-Game: a shallow embedding of [src/game.cpp]

    The game of [game.cpp] is a single-threaded state machine: four seats,
    a current-seat pointer, a survive counter per player name and the last
    hidden play of every seat.  The classes [Player<string>] and [Game]
    become records, the member functions become functions on those records,
    and the three external sources of nondeterminism ([rand()], [cin] and
    the shuffled deck) become explicit arguments.  What the program writes
    to [cout] is kept as a list of events. *)

From Stdlib Require Import Ascii String.
From stdpp Require Import base numbers list strings gmap fin_maps sorting.

Local Open Scope Z_scope.

(** ** Cards and players *)

(** [Player<string>] and [Deck<string>] are only instantiated at
    [std::string]; a card is the string on it. *)
Abbreviation Card := string.

Definition Magic : Card := "Magic"%string.

Module Player.

Record t := mk {
  name : string;
  hand : list Card;
  alive : bool
}.

(** [Player(const string& n) : name(n), alive(true) {}] *)
Definition new (n : string) : t := mk n [] true.

Definition setAlive (status : bool) (p : t) : t :=
  mk (name p) (hand p) status.

Definition setHand (newHand : list Card) (p : t) : t :=
  mk (name p) newHand (alive p).

(** [removeCardAt]: the guard [idx >= 0 && idx < (int)hand.size()] and
    then [hand.erase(hand.begin() + idx)]; this is the function on the
    hand vector, [removeCardAt] below lifts it to the player. *)
Definition eraseAt (idx : Z) (h : list Card) : list Card :=
  if (0 <=? idx) && (idx <? Z.of_nat (length h))
  then delete (Z.to_nat idx) h
  else h.

Definition removeCardAt (idx : Z) (p : t) : t :=
  setHand (eraseAt idx (hand p)) p.

(** [playCards(n)]: pop from the back while [i < n] and the hand is not
    empty.  [k] counts the iterations that are left. *)
Fixpoint popBack (k : nat) (h played : list Card) : list Card * list Card :=
  match k with
  | O => (played, h)
  | S k' =>
      match last h with
      | None => (played, h)
      | Some c => popBack k' (removelast h) (played ++ [c])
      end
  end.

Definition playCards (n : Z) (p : t) : list Card * t :=
  let '(played, h) := popBack (Z.to_nat n) (hand p) [] in
  (played, setHand h p).

End Player.

Abbreviation Player := Player.t.

(** ** The correctness predicate of a play *)

(** The [for] loop of [playIsCorrect] over a non-empty vector. *)
Fixpoint allMatch (played : list Card) (focus : Card) : bool :=
  match played with
  | [] => true
  | c :: rest =>
      if negb (String.eqb c focus) && negb (String.eqb c Magic)
      then false
      else allMatch rest focus
  end.

Definition playIsCorrect (played : list Card) (focus : Card) : bool :=
  match played with
  | [] => false
  | _ => allMatch played focus
  end.

(** ** The game state *)

(** What the program prints, kept as data.  Only the player names and the
    card counts that a line of output carries are recorded. *)
Inductive Event :=
| Reveal (who : string) (cards : list Card)
| PlayedWrongly (who : string)
| RightToQuestion (who : string)
| WrongToQuestion (who : string)
| BombThird (who : string)
| BombDied (who : string)
| BombSurvived (who : string)
| HumanPlayed (n : nat)
| BotPlayed (who : string) (n : nat)
| AskHuman
| HumanDeclined
| DecidesToQuestion (who : string)
| DecidesNot (who : string)
| Forced (who : string).

Record Game := mkGame {
  players : list Player;
  currentPlayerIndex : Z;
  surviveCount : gmap string Z;
  lastPlayedByIndex : list (list Card)
}.

(** A seat that is read outside the vector.  In C++ that read is undefined;
    the theorems exclude it by hypothesis wherever it would matter. *)
Definition nobody : Player := Player.mk "" [] false.

Definition at_index {A} (d : A) (l : list A) (i : Z) : A :=
  if i <? 0 then d else nth (Z.to_nat i) l d.

Definition playerAt (g : Game) (i : Z) : Player := at_index nobody (players g) i.

Definition numPlayers (g : Game) : Z := Z.of_nat (length (players g)).

(** The test [p.isAlive() && !p.getHand().empty()]. *)
Definition canAct (p : Player) : bool :=
  Player.alive p && negb (bool_decide (Player.hand p = [])).

(** [surviveCount[name]] as an rvalue: a missing key reads as 0. *)
Definition survived (g : Game) (nm : string) : Z :=
  default 0 (surviveCount g !! nm).

Definition withPlayers (ps : list Player) (g : Game) : Game :=
  mkGame ps (currentPlayerIndex g) (surviveCount g) (lastPlayedByIndex g).

Definition withCurrent (i : Z) (g : Game) : Game :=
  mkGame (players g) i (surviveCount g) (lastPlayedByIndex g).

Definition withSurvive (nm : string) (v : Z) (g : Game) : Game :=
  mkGame (players g) (currentPlayerIndex g) (<[nm := v]> (surviveCount g))
         (lastPlayedByIndex g).

Definition withLastPlayed (i : Z) (played : list Card) (g : Game) : Game :=
  mkGame (players g) (currentPlayerIndex g) (surviveCount g)
         (<[Z.to_nat i := played]> (lastPlayedByIndex g)).

(** A member call through a reference [players[i]]: the player at seat [i]
    is changed in place by [f]. *)
Definition updPlayer (i : Z) (f : Player → Player) (g : Game) : Game :=
  if i <? 0 then g else withPlayers (alter f (Z.to_nat i) (players g)) g.

(** [getNextAlivePlayer]: the loop [for (i = 1; i <= n; ++i)], with [%] the
    truncating remainder of C++.  The program calls it with [start] at
    least -1, so [start + i] is never negative; for a smaller [start] the
    remainder can be negative, an index C++ leaves undefined, and the model
    reads [nobody] there, who cannot act. *)
Fixpoint nextAliveFrom (ps : list Player) (n start i : Z) (fuel : nat) : Z :=
  match fuel with
  | O => -1
  | S fuel' =>
      let idx := Z.rem (start + i) n in
      if canAct (at_index nobody ps idx) then idx
      else nextAliveFrom ps n start (i + 1) fuel'
  end.

Definition getNextAlivePlayer (g : Game) (start : Z) : Z :=
  let n := numPlayers g in
  if n =? 0 then -1
  else nextAliveFrom (players g) n start 1 (length (players g)).

Definition countAlivePlayers (g : Game) : Z :=
  Z.of_nat (length (filter (λ p, Player.alive p = true) (players g))).

Definition countAliveWithCards (g : Game) : Z :=
  Z.of_nat (length (filter (λ p, canAct p = true) (players g))).

(** [findPlayerIndex]: first seat carrying the name, or -1. *)
Fixpoint findFrom (i : Z) (ps : list Player) (nm : string) : Z :=
  match ps with
  | [] => -1
  | p :: rest =>
      if String.eqb (Player.name p) nm then i else findFrom (i + 1) rest nm
  end.

Definition findPlayerIndex (g : Game) (nm : string) : Z :=
  findFrom 0 (players g) nm.

(** ** Challenge resolution *)

(** The bomb block that [handleQuestioning] runs on the party at fault
    (lines 200-213 for the player who played, 226-239 for the questioner;
    the two copies differ in the subject only).  [subj] is the seat the
    reference points to, [rnd] the value of [rand()]. *)
Definition bombRisk (subj : Z) (rnd : Z) (g : Game) : Game * list Event :=
  let nm := Player.name (playerAt g subj) in
  if 2 <=? survived g nm then
    (withSurvive nm 0 (updPlayer subj (Player.setAlive false) g), [BombThird nm])
  else if Z.rem rnd 3 =? 0 then
    (withSurvive nm 0 (updPlayer subj (Player.setAlive false) g), [BombDied nm])
  else
    (withSurvive nm (survived g nm + 1) g, [BombSurvived nm]).

(** Lines 215-220 and 241-246: hand the turn to the questioner. *)
Definition giveTurnTo (nm : string) (g : Game) : Game :=
  let idx := findPlayerIndex g nm in
  if negb (idx =? -1) then withCurrent idx g
  else
    let fallback := getNextAlivePlayer g (-1) in
    withCurrent (if negb (fallback =? -1) then fallback else 0) g.

(** [handleQuestioning(questioner, playerWhoPlayed, played, focus)].  The
    two references are seats of [players]: [qi] and [pi]. *)
Definition handleQuestioning (qi pi : Z) (played : list Card) (focus : Card)
    (rnd : Z) (g : Game) : Game * bool * list Event :=
  let qname := Player.name (playerAt g qi) in
  let pname := Player.name (playerAt g pi) in
  let correctPlay := playIsCorrect played focus in
  if negb correctPlay then
    let '(g1, ev) := bombRisk pi rnd g in
    (giveTurnTo (Player.name (playerAt g1 qi)) g1, true,
     [Reveal pname played; PlayedWrongly pname; RightToQuestion qname] ++ ev)
  else
    let '(g1, ev) := bombRisk qi rnd g in
    (giveTurnTo (Player.name (playerAt g1 qi)) g1, true,
     [Reveal pname played; WrongToQuestion qname] ++ ev).

(** ** One turn *)

(** What one iteration of the inner [while (!roundOver)] loop takes from
    outside: the indices the human settled on (zero based, as left in
    [chosen] by the input loop), the character typed at the y/n prompt, and
    the values of the calls to [rand()]. *)
Record Inputs := mkInputs {
  chosen : list Z;
  answer : ascii;
  playRand : Z;
  askRand : Z;
  bombRand : Z
}.

(** The variables of the round: the game and the two flags of [play]. *)
Record Round := mkRound {
  game : Game;
  roundOver : bool;
  anyQuestionAsked : bool
}.

(** How an iteration leaves: through [break], or back to the loop test
    ([continue], or the end of the body). *)
Inductive Flow := Break | Next.

(** [sort(chosen.rbegin(), chosen.rend())]: descending. *)
Definition sortDescending (l : list Z) : list Z := merge_sort Z.ge l.

(** The removal loop of the human turn.  [hand] is a reference to the
    player's own vector, so [hand[idx]] reads the hand as it is after the
    removals made so far. *)
Fixpoint takeChosen (idxs : list Z) (h played : list Card)
    : list Card * list Card :=
  match idxs with
  | [] => (played, h)
  | idx :: rest =>
      takeChosen rest (Player.eraseAt idx h) (played ++ [at_index ""%string h idx])
  end.

(** Lines 359-366. *)
Definition humanPlay (sel : list Z) (p : Player) : list Card * Player :=
  let '(played, h) := takeChosen (sortDescending sel) (Player.hand p) [] in
  (rev played, Player.setHand h p).

(** [nextP.getName().find("Bot") != string::npos] *)
Definition isBot (nm : string) : bool :=
  match String.index 0 "Bot" nm with
  | Some _ => true
  | None => false
  end.

(** [lastPlayedByIndex[curIdx] = played], guarded by [curIdx != -1]. *)
Definition recordPlay (nm : string) (played : list Card) (g : Game) : Game :=
  let curIdx := findPlayerIndex g nm in
  if negb (curIdx =? -1) then withLastPlayed curIdx played g else g.

(** [toCheck]: the recorded play of the named player, empty when the name
    is not found. *)
Definition recordedPlay (nm : string) (g : Game) : list Card :=
  let ownerIdx := findPlayerIndex g nm in
  if negb (ownerIdx =? -1) then at_index [] (lastPlayedByIndex g) ownerIdx else [].

(** The questioning call as the three call sites make it, with the flag
    updates that follow it. *)
Definition question (qi pi : Z) (focus : Card) (rnd : Z) (g : Game)
    : Round * list Event :=
  let toCheck := recordedPlay (Player.name (playerAt g pi)) g in
  let '(g', over, ev) := handleQuestioning qi pi toCheck focus rnd g in
  (mkRound g' over true, ev).

Definition saysYes (ch : ascii) : bool :=
  Ascii.eqb ch "y" || Ascii.eqb ch "Y".

Section Turn.

Variable focus : Card.
Variable inp : Inputs.

(** Lines 294-299. *)
Definition skipStep (r : Round) : Flow * Round * list Event :=
  let g := game r in
  let nxt := getNextAlivePlayer g (currentPlayerIndex g) in
  if nxt =? -1 then (Break, mkRound g true (anyQuestionAsked r), [])
  else (Next, mkRound (withCurrent nxt g) (roundOver r) (anyQuestionAsked r), []).

(** The human turn after the input loops, in its two parts.  [cur] is
    the seat that [currentPlayer] was bound to at the top of the
    iteration.  Lines 359-375: the cards leave the hand and the play is
    recorded. *)
Definition humanPlays (cur : Z) (g : Game) : Game * list Event :=
  let played := (humanPlay (chosen inp) (playerAt g cur)).1 in
  let g1 := updPlayer cur (λ p, (humanPlay (chosen inp) p).2) g in
  let g2 := recordPlay (Player.name (playerAt g1 cur)) played g1 in
  (g2, [HumanPlayed (length played)]).

(** Lines 377-394: the next player is looked up and, if it is a bot,
    decides. *)
Definition humanChallenged (cur : Z) (r : Round) (g2 : Game)
    : Flow * Round * list Event :=
  let next := getNextAlivePlayer g2 (currentPlayerIndex g2) in
  if next =? -1 then (Break, mkRound g2 true (anyQuestionAsked r), [])
  else
    let nextName := Player.name (playerAt g2 next) in
    if isBot nextName then
      if Z.rem (askRand inp) 100 <? 30 then
        let '(r', ev') := question next cur focus (bombRand inp) g2 in
        (Next, r', [DecidesToQuestion nextName] ++ ev')
      else
        (Next, mkRound g2 (roundOver r) (anyQuestionAsked r),
         [DecidesNot nextName])
    else (Next, mkRound g2 (roundOver r) (anyQuestionAsked r), []).

(** Lines 401-411. *)
Definition botPlays (cur : Z) (g : Game) : Game * list Event :=
  let n := Z.rem (playRand inp) 3 + 1 in
  let played := (Player.playCards n (playerAt g cur)).1 in
  let g1 := updPlayer cur (λ p, (Player.playCards n p).2) g in
  let g2 := recordPlay (Player.name (playerAt g1 cur)) played g1 in
  (g2, [BotPlayed (Player.name (playerAt g2 cur)) (length played)]).

(** Lines 413-445. *)
Definition botChallenged (cur : Z) (r : Round) (g2 : Game)
    : Flow * Round * list Event :=
  let next := getNextAlivePlayer g2 (currentPlayerIndex g2) in
  if next =? -1 then (Break, mkRound g2 true (anyQuestionAsked r), [])
  else
    let nextName := Player.name (playerAt g2 next) in
    if String.eqb nextName "Human" then
      if saysYes (answer inp) then
        let '(r', ev') := question next cur focus (bombRand inp) g2 in
        (Next, r', [AskHuman] ++ ev')
      else
        (Next, mkRound g2 (roundOver r) (anyQuestionAsked r),
         [AskHuman; HumanDeclined])
    else
      if Z.rem (askRand inp) 100 <? 30 then
        let '(r', ev') := question next cur focus (bombRand inp) g2 in
        (Next, r', [DecidesToQuestion nextName] ++ ev')
      else
        (Next, mkRound g2 (roundOver r) (anyQuestionAsked r),
         [DecidesNot nextName]).

(** A turn: the play, then the challenge decision on the state the play
    left. *)
Definition turnOf (plays : Z → Game → Game * list Event)
    (challenged : Z → Round → Game → Flow * Round * list Event)
    (cur : Z) (r : Round) : Flow * Round * list Event :=
  let '(g2, ev) := plays cur (game r) in
  let '(fl, r', ev') := challenged cur r g2 in
  (fl, r', ev ++ ev').

Definition humanTurn : Z → Round → Flow * Round * list Event :=
  turnOf humanPlays humanChallenged.

Definition botTurn : Z → Round → Flow * Round * list Event :=
  turnOf botPlays botChallenged.

(** Lines 449-472: the forced questioning block. *)
Definition forcedQuestioning (r : Round) : Flow * Round * list Event :=
  let g := game r in
  if negb (roundOver r) then
    let alivePlayers := countAlivePlayers g in
    if negb (anyQuestionAsked r) && (alivePlayers =? 2) then
      let current := currentPlayerIndex g in
      let next := getNextAlivePlayer g current in
      if next =? -1 then (Break, mkRound g true (anyQuestionAsked r), [])
      else
        if bool_decide (Player.hand (playerAt g current) = []) then
          let '(r', ev') := question next current focus (bombRand inp) g in
          (Next, r', [Forced (Player.name (playerAt g next))] ++ ev')
        else (Next, r, [])
    else (Next, r, [])
  else (Next, r, []).

(** Lines 474-478. *)
Definition advance (r : Round) : Flow * Round * list Event :=
  let g := game r in
  if negb (roundOver r) then
    let nxt := getNextAlivePlayer g (currentPlayerIndex g) in
    if nxt =? -1 then (Break, mkRound g true (anyQuestionAsked r), [])
    else (Next, mkRound (withCurrent nxt g) (roundOver r) (anyQuestionAsked r), [])
  else (Next, r, []).

(** The turn proper: the branch on [currentPlayer.getName() == "Human"]. *)
Definition playTurn (r : Round) : Flow * Round * list Event :=
  let cur := currentPlayerIndex (game r) in
  if String.eqb (Player.name (playerAt (game r) cur)) "Human"
  then humanTurn cur r
  else botTurn cur r.

(** Sequencing of two parts of the body: a [break] in the first part
    leaves the loop, otherwise the second part runs. *)
Definition andThen (a : Flow * Round * list Event)
    (k : Round → Flow * Round * list Event) : Flow * Round * list Event :=
  match a with
  | (Break, r, ev) => (Break, r, ev)
  | (Next, r, ev) => let '(fl, r', ev') := k r in (fl, r', ev ++ ev')
  end.

(** The body of the inner loop, lines 286-478. *)
Definition loopBody (r : Round) : Flow * Round * list Event :=
  let g := game r in
  if countAliveWithCards g <=? 1 then (Break, r, [])
  else
    let currentPlayer := playerAt g (currentPlayerIndex g) in
    if negb (Player.alive currentPlayer)
       || bool_decide (Player.hand currentPlayer = [])
    then skipStep r
    else andThen (playTurn r) (λ r1, andThen (forcedQuestioning r1) advance).

End Turn.

(** ** Construction, dealing and the reachable states *)

(** [Deck::reset] before the shuffle: 6 Sun, 6 Star, 6 Moon, 2 Magic. *)
Definition freshDeck : list Card :=
  replicate 6 "Sun"%string ++ replicate 6 "Star"%string
  ++ replicate 6 "Moon"%string ++ replicate 2 "Magic"%string.

(** [Deck::deal(n)] is the same pop-from-the-back loop as [playCards];
    the result is the hand and what is left of the deck. *)
Definition deal (n : Z) (cards : list Card) : list Card * list Card :=
  Player.popBack (Z.to_nat n) cards [].

(** [dealCardsToAlive]: seats in order, each alive player gets a deal. *)
Fixpoint dealTo (cardsPerPlayer : Z) (ps : list Player) (cards : list Card)
    : list Player :=
  match ps with
  | [] => []
  | p :: rest =>
      if Player.alive p then
        let '(h, cards') := deal cardsPerPlayer cards in
        Player.setHand h p :: dealTo cardsPerPlayer rest cards'
      else p :: dealTo cardsPerPlayer rest cards
  end.

Definition dealCardsToAlive (cardsPerPlayer : Z) (cards : list Card) (g : Game)
    : Game :=
  withPlayers (dealTo cardsPerPlayer (players g) cards) g.

Definition seatNames : list string := ["Human"; "Bot1"; "Bot2"; "Bot3"]%string.

(** The constructor [Game()]; [r] is the value of [rand()]. *)
Definition newGame (r : Z) : Game :=
  let ps := map Player.new seatNames in
  mkGame ps (Z.rem r (Z.of_nat (length ps)))
         (foldl (λ m p, <[Player.name p := 0]> m) ∅ ps)
         (replicate (length ps) []).

(** The states the game is in at the head of the inner loop and between
    rounds: built by the constructor, changed by a deal of a shuffled deck
    and by iterations of the loop body. *)
Inductive reachable : Game → Prop :=
| reach_new r :
    0 ≤ r → reachable (newGame r)
| reach_deal g cards :
    reachable g → cards ≡ₚ freshDeck → reachable (dealCardsToAlive 5 cards g)
| reach_turn g focus inp asked :
    reachable g →
    reachable (game (loopBody focus inp (mkRound g false asked)).1.2).

(** The seat a challenge puts at fault: the player who played when the play
    is incorrect, the questioner otherwise (the branch of
    [handleQuestioning]). *)
Definition atFault (qi pi : Z) (played : list Card) (focus : Card) : Z :=
  if negb (playIsCorrect played focus) then pi else qi.

(** The players consulted about a challenge, read off the output: the y/n
    prompt goes to the human, a bot announces its own decision. *)
Definition decisionBy (e : Event) : option string :=
  match e with
  | AskHuman => Some "Human"%string
  | DecidesToQuestion who => Some who
  | DecidesNot who => Some who
  | _ => None
  end.

Definition deciders (ev : list Event) : list string := omap decisionBy ev.

Definition isForced (e : Event) : bool :=
  match e with Forced _ => true | _ => false end.

Definition forcedFired (ev : list Event) : bool := existsb isForced ev.

(** A game the theorems speak about: the current seat is a seat. *)
Definition seated (g : Game) : Prop :=
  0 ≤ currentPlayerIndex g < numPlayers g.

(** The cards of a hand whose position is not in [sel], in their order;
    [i] is the position of the head of [h].  Used to say what the removal
    loop of the human turn leaves in the hand. *)
Fixpoint unchosen (i : Z) (sel : list Z) (h : list Card) : list Card :=
  match h with
  | [] => []
  | c :: rest =>
      if bool_decide (i ∈ sel) then unchosen (i + 1) sel rest
      else c :: unchosen (i + 1) sel rest
  end.

(** ** Predicates used by the statements *)

(** The bound that every write to the counter keeps. *)
Definition countersBounded (g : Game) : Prop :=
  map_Forall (λ _ v, 0 ≤ v ≤ 2) (surviveCount g).

(** [keeps g g']: going from [g] to [g'] leaves every name in its seat,
    keeps the counters bounded and keeps the current index a seat. *)
Definition keeps (g g' : Game) : Prop :=
  map Player.name (players g') = map Player.name (players g)
  ∧ (countersBounded g → countersBounded g')
  ∧ (seated g → seated g').

(** What a play leaves alone: the play of seat [cur] changes the hand of
    that seat and the record of its last play, nothing else. *)
Definition playedFrom (cur : Z) (g g2 : Game) : Prop :=
  currentPlayerIndex g2 = currentPlayerIndex g
  ∧ numPlayers g2 = numPlayers g
  ∧ surviveCount g2 = surviveCount g
  ∧ map Player.name (players g2) = map Player.name (players g)
  ∧ map Player.alive (players g2) = map Player.alive (players g)
  ∧ ∀ j, j ≠ cur → playerAt g2 j = playerAt g j.

(** The shape of the result of a challenge decision: no challenge, with
    the flags as they were, or a challenge, with both flags set. *)
Definition decided (r : Round) (g2 : Game) (who : list string)
    (res : Flow * Round * list Event) : Prop :=
  res.1.1 = Next
  ∧ forcedFired res.2 = false
  ∧ deciders res.2 = who
  ∧ (res.1.2 = mkRound g2 (roundOver r) (anyQuestionAsked r)
     ∨ (roundOver res.1.2 = true ∧ anyQuestionAsked res.1.2 = true)).

(** ** Two games played out

    Each state below is obtained from the constructor by deals of the deck
    (in the order [Deck::reset] builds it, which is one of the orders the
    shuffle can produce) and by iterations of the loop body. *)

Module Scenario.

(** One iteration from the head of the inner loop. *)
Definition step (focus : Card) (inp : Inputs) (g : Game) : Game :=
  game (loopBody focus inp (mkRound g false false)).1.2.

Definition redeal (g : Game) : Game := dealCardsToAlive 5 freshDeck g.

(** The inputs of an iteration in which a bot plays: [n] is the number of
    cards, [asks] whether the next bot questions, [explodes] whether the
    bomb does. *)
Definition bot (n : Z) (asks explodes : bool) : Inputs :=
  mkInputs [] "n" (n - 1) (if asks then 0 else 50) (if explodes then 0 else 1).

(** The inputs of an iteration in which the human plays the cards at the
    positions [sel]. *)
Definition human (sel : list Z) (asks explodes : bool) : Inputs :=
  mkInputs sel "n" 0 (if asks then 0 else 50) (if explodes then 0 else 1).

(** A game that comes down to Bot1 against Bot2: Bot1 has two Magic
    cards left and the turn, Bot2 is the only other player alive. *)
Definition lastCards : Game :=
  let a1 := redeal (newGame 0) in
  (* the human plays a Moon on focus Sun, Bot1 questions, the bomb explodes *)
  let a2 := step "Sun" (human [4] true true) a1 in
  let a3 := redeal a2 in
  let a4 := step "Star" (bot 1 false false) a3 in
  (* Bot2 plays a Star on focus Star, Bot3 questions, the bomb explodes *)
  let a5 := step "Star" (bot 1 true true) a4 in
  let a6 := redeal a5 in
  (* the turn is with the dead Bot3: skipped *)
  let a7 := step "Moon" (bot 1 false false) a6 in
  let a8 := step "Moon" (bot 3 false false) a7 in
  step "Moon" (bot 1 false false) a8.

(** A first round in which nobody questions: the human has the turn, and
    Bot1, in the next seat, is alive and has played all its cards. *)
Definition bot1Empty : Game :=
  let b1 := redeal (newGame 1) in
  let b2 := step "Sun" (bot 3 false false) b1 in
  let b3 := step "Sun" (bot 1 false false) b2 in
  let b4 := step "Sun" (bot 1 false false) b3 in
  let b5 := step "Sun" (human [0] false false) b4 in
  let b6 := step "Sun" (bot 2 false false) b5 in
  let b7 := step "Sun" (bot 1 false false) b6 in
  step "Sun" (bot 1 false false) b7.

End Scenario.

(** ** The rest of [play]: prompts, the round loop, the game loop *)

(** One pass through the body of a prompt loop: [cin >> n] either yields
    an integer or fails (and the line is discarded). *)
Inductive Attempt :=
| Typed (v : Z)
| Garbage.

(** Lines 310-329, the prompt for the number of cards: loop until an
    integer between 1 and 3 is read.  The result is the number and the
    attempts not yet consumed; [None] when the attempts run out, where the
    program keeps waiting. *)
Fixpoint readCount (attempts : list Attempt) : option (Z * list Attempt) :=
  match attempts with
  | [] => None
  | Garbage :: rest => readCount rest
  | Typed n :: rest =>
      if (n <? 1) || (3 <? n) then readCount rest else Some (n, rest)
  end.

(** Lines 331-357, the prompt for the indices:
    [while ((int)chosen.size() < n)], each pass reads a one-based index,
    and rejects a failed read, an index outside the hand and an index
    already chosen. *)
Fixpoint readIndices (attempts : list Attempt) (n handSize : Z)
    (sel : list Z) : option (list Z * list Attempt) :=
  if Z.of_nat (length sel) <? n then
    match attempts with
    | [] => None
    | Garbage :: rest => readIndices rest n handSize sel
    | Typed v :: rest =>
        let idx := v - 1 in
        if (idx <? 0) || (handSize <=? idx) then
          readIndices rest n handSize sel
        else if bool_decide (idx ∈ sel) then
          readIndices rest n handSize sel
        else readIndices rest n handSize (sel ++ [idx])
    end
  else Some (sel, attempts).

(** The two prompts of the human turn, one after the other. *)
Definition readSelection (attempts : list Attempt) (h : list Card)
    : option (list Z * list Attempt) :=
  match readCount attempts with
  | None => None
  | Some (n, rest) => readIndices rest n (Z.of_nat (length h)) []
  end.

(** The number of cards in all hands. *)
Definition totalCards (g : Game) : nat :=
  sum_list (map (λ p, length (Player.hand p)) (players g)).

(** The inner loop [while (!roundOver)].  The inputs of an iteration may
    depend on the iteration and on the state the players see; [k] counts
    the iterations made.  [None]: the fuel ran out first. *)
Fixpoint runRound (fuel : nat) (focus : Card) (inps : nat → Game → Inputs)
    (k : nat) (r : Round) : option (Round * list Event) :=
  match fuel with
  | O => None
  | S fuel' =>
      if roundOver r then Some (r, [])
      else
        match loopBody focus (inps k (game r)) r with
        | (Break, r', ev) => Some (r', ev)
        | (Next, r', ev) =>
            match runRound fuel' focus inps (S k) r' with
            | Some (r'', ev') => Some (r'', ev ++ ev')
            | None => None
            end
        end
  end.

(** What [play] draws from outside in round [k]: the focus card, the
    inputs of the iterations, and the deck as shuffled for the deal that
    follows the round. *)
Record RoundInputs := mkRoundInputs {
  roundFocus : Card;
  roundTurns : nat → Game → Inputs;
  roundDeck : list Card
}.

(** The outer loop of [play], lines 278-488:
    [while (countAliveWithCards() > 1)], a round and then a deal.
    [innerFuel] bounds the iterations of each round. *)
Fixpoint playRounds (fuel innerFuel : nat) (ins : nat → RoundInputs)
    (k : nat) (g : Game) : option Game :=
  match fuel with
  | O => None
  | S fuel' =>
      if 1 <? countAliveWithCards g then
        match runRound innerFuel (roundFocus (ins k)) (roundTurns (ins k)) 0
                (mkRound g false false) with
        | None => None
        | Some (r', _) =>
            playRounds fuel' innerFuel ins (S k)
              (dealCardsToAlive 5 (roundDeck (ins k)) (game r'))
        end
      else Some g
  end.

(** [play]: the first deal, then the rounds. *)
Definition play (fuel innerFuel : nat) (firstDeck : list Card)
    (ins : nat → RoundInputs) (g : Game) : option Game :=
  playRounds fuel innerFuel ins 0 (dealCardsToAlive 5 firstDeck g).

(** Lines 490-494: the first alive player is announced as the winner. *)
Definition winner (g : Game) : option string :=
  Player.name <$> List.find Player.alive (players g).

(** The state after the play of the current player, before the challenge
    decision: the branch of [playTurn]. *)
Definition afterPlay (inp : Inputs) (g : Game) : Game :=
  let cur := currentPlayerIndex g in
  if String.eqb (Player.name (playerAt g cur)) "Human"
  then (humanPlays inp cur g).1
  else (botPlays inp cur g).1.

(** A selection the index prompt can produce for a hand. *)
Definition validSelection (sel : list Z) (h : list Card) : Prop :=
  sel ≠ [] ∧ NoDup sel ∧ Forall (λ i, 0 ≤ i < Z.of_nat (length h)) sel.

(** Inputs the program can get: [rand()] is not negative, and the human's
    selection comes out of the prompts for the hand the human holds. *)
Definition playable (inps : nat → Game → Inputs) : Prop :=
  ∀ k g,
    0 ≤ playRand (inps k g)
    ∧ (Player.name (playerAt g (currentPlayerIndex g)) = "Human"%string →
       Player.hand (playerAt g (currentPlayerIndex g)) ≠ [] →
       validSelection (chosen (inps k g))
         (Player.hand (playerAt g (currentPlayerIndex g)))).

(** The game after the resolution of a challenge on the last play of seat
    [cur], by the questioner the lookup finds from [cur]: what the three
    call sites of [handleQuestioning] compute. *)
Definition resolved (focus : Card) (inp : Inputs) (cur : Z) (g2 : Game) : Game :=
  (handleQuestioning (getNextAlivePlayer g2 cur) cur
     (recordedPlay (Player.name (playerAt g2 cur)) g2) focus (bombRand inp)
     g2).1.1.

(** What the round loop uses up: two for every card in a hand, and one
    more while the current player cannot act and has to be skipped. *)
Definition roundMeasure (r : Round) : nat :=
  2 * totalCards (game r)
  + (if canAct (playerAt (game r) (currentPlayerIndex (game r))) then 0 else 1).

(** [randomFocusCard], line 114: [cards[rand() % cards.size()]] over
    [{"Sun", "Moon", "Star"}]; [rnd] is the value of [rand()]. *)
Definition randomFocusCard (rnd : Z) : Card :=
  at_index ""%string ["Sun"; "Moon"; "Star"]%string (Z.rem rnd 3).

(** Two games that differ in the current index at most. *)
Definition sameButTurn (g g' : Game) : Prop :=
  players g' = players g
  ∧ surviveCount g' = surviveCount g
  ∧ lastPlayedByIndex g' = lastPlayedByIndex g.

(** The seats of the constructor, with a record of the last play for each. *)
Definition fourSeats (g : Game) : Prop :=
  map Player.name (players g) = seatNames
  ∧ length (lastPlayedByIndex g) = length (players g)
  ∧ seated g.

(** * Properties *)

(** ** The correctness predicate *)

Lemma allMatch_Forall (played : list Card) (focus : Card) :
  allMatch played focus = true ↔ Forall (λ c, c = focus ∨ c = Magic) played.
Proof.
  induction played as [|c rest IH]; simpl.
  - split; [constructor | reflexivity].
  - rewrite Forall_cons, <- IH.
    destruct (String.eqb_spec c focus) as [->|Hf]; simpl.
    + tauto.
    + destruct (String.eqb_spec c Magic) as [->|Hm]; simpl.
      * tauto.
      * split; [discriminate | intros [[?|?] _]; contradiction].
Qed.

(** C1. A play is correct exactly when it is non-empty and each of its
    cards is the focus card or "Magic"; the empty play is incorrect for
    every focus card. *)
Theorem playIsCorrect_spec (played : list Card) (focus : Card) :
  (playIsCorrect played focus = true ↔
     played ≠ [] ∧ Forall (λ c, c = focus ∨ c = Magic) played)
  ∧ playIsCorrect [] focus = false.
Proof.
  split; [|reflexivity].
  destruct played as [|c rest].
  - simpl. split; [discriminate | intros [H _]; contradiction].
  - change (playIsCorrect (c :: rest) focus) with (allMatch (c :: rest) focus).
    rewrite allMatch_Forall. split; [intros H; split; [discriminate | exact H] | tauto].
Qed.

(** ** Removing one card *)

Lemma eraseAt_out (idx : Z) (h : list Card) :
  idx < 0 ∨ Z.of_nat (length h) ≤ idx → Player.eraseAt idx h = h.
Proof.
  intros Hout. unfold Player.eraseAt.
  destruct (0 <=? idx) eqn:H0; simpl; [|reflexivity].
  destruct (idx <? Z.of_nat (length h)) eqn:H1; [|reflexivity].
  apply Z.leb_le in H0. apply Z.ltb_lt in H1. lia.
Qed.

Lemma eraseAt_in (idx : Z) (h : list Card) :
  0 ≤ idx < Z.of_nat (length h) → Player.eraseAt idx h = delete (Z.to_nat idx) h.
Proof.
  intros [H0 H1]. unfold Player.eraseAt.
  apply Z.leb_le in H0. apply Z.ltb_lt in H1. rewrite H0, H1. reflexivity.
Qed.

Lemma eraseAt_split (idx : Z) (h : list Card) :
  0 ≤ idx < Z.of_nat (length h) →
  ∃ before c after,
    h = before ++ c :: after
    ∧ Z.of_nat (length before) = idx
    ∧ at_index ""%string h idx = c
    ∧ Player.eraseAt idx h = before ++ after.
Proof.
  intros Hin. rewrite (eraseAt_in _ _ Hin).
  assert (Hlt : (Z.to_nat idx < length h)%nat) by lia.
  destruct (lookup_lt_is_Some_2 h _ Hlt) as [c Hc].
  exists (take (Z.to_nat idx) h), c, (drop (S (Z.to_nat idx)) h).
  assert (Hlen : length (take (Z.to_nat idx) h) = Z.to_nat idx)
    by (rewrite length_take; lia).
  repeat split.
  - rewrite <- (take_drop_middle _ _ _ Hc) at 1. reflexivity.
  - lia.
  - unfold at_index. destruct (idx <? 0) eqn:Hneg; [apply Z.ltb_lt in Hneg; lia|].
    apply nth_lookup_Some with (d := ""%string) in Hc. exact Hc.
  - apply delete_take_drop.
Qed.

(** C10. [removeCardAt] with an index below 0 or at least the hand size
    returns the player as it was (the function has no failure value: it is
    total); with an index in range the hand splits around the card at that
    position, which is the one card removed, and the cards before and after
    it stay in order.  Name and alive flag are never touched. *)
Theorem removeCardAt_spec (idx : Z) (p : Player) :
  (idx < 0 ∨ Z.of_nat (length (Player.hand p)) ≤ idx →
     Player.removeCardAt idx p = p)
  ∧ (0 ≤ idx < Z.of_nat (length (Player.hand p)) →
     ∃ before c after,
       Player.hand p = before ++ c :: after
       ∧ Z.of_nat (length before) = idx
       ∧ Player.hand (Player.removeCardAt idx p) = before ++ after)
  ∧ Player.name (Player.removeCardAt idx p) = Player.name p
  ∧ Player.alive (Player.removeCardAt idx p) = Player.alive p.
Proof.
  repeat split.
  - intros Hout. unfold Player.removeCardAt. rewrite (eraseAt_out _ _ Hout).
    destruct p; reflexivity.
  - intros Hin. destruct (eraseAt_split _ _ Hin) as (b & c & a & Hh & Hl & _ & He).
    exists b, c, a. simpl. auto.
Qed.

(** ** The next-player lookup *)

Lemma canAct_spec (p : Player) :
  canAct p = true ↔ Player.alive p = true ∧ Player.hand p ≠ [].
Proof.
  unfold canAct. rewrite andb_true_iff, negb_true_iff, bool_decide_eq_false.
  reflexivity.
Qed.

Lemma at_index_lookup {A} (d : A) (l : list A) (i : Z) (x : A) :
  0 ≤ i → l !! Z.to_nat i = Some x → at_index d l i = x.
Proof.
  intros Hi Hx. unfold at_index.
  destruct (i <? 0) eqn:Hneg; [apply Z.ltb_lt in Hneg; lia|].
  apply nth_lookup_Some with (d := d) in Hx. exact Hx.
Qed.

Lemma at_index_cases {A} (d : A) (l : list A) (i : Z) :
  (0 ≤ i < Z.of_nat (length l) ∧ l !! Z.to_nat i = Some (at_index d l i))
  ∨ ((i < 0 ∨ Z.of_nat (length l) ≤ i) ∧ at_index d l i = d).
Proof.
  unfold at_index. destruct (i <? 0) eqn:Hneg.
  - apply Z.ltb_lt in Hneg. right. split; [lia | reflexivity].
  - apply Z.ltb_ge in Hneg.
    destruct (decide (Z.to_nat i < length l)%nat) as [Hlt|Hge].
    + left. split; [lia|].
      destruct (lookup_lt_is_Some_2 l _ Hlt) as [x Hx].
      rewrite Hx. f_equal. symmetry. apply nth_lookup_Some with (d := d) in Hx.
      exact Hx.
    + right. split; [lia|]. apply nth_overflow. lia.
Qed.

Lemma canAct_nobody : canAct nobody = false.
Proof. reflexivity. Qed.

Lemma canAct_at_index_range (ps : list Player) (i : Z) :
  canAct (at_index nobody ps i) = true →
  0 ≤ i < Z.of_nat (length ps) ∧ at_index nobody ps i ∈ ps.
Proof.
  intros Hc. destruct (at_index_cases nobody ps i) as [[Hr Hl]|[_ Hd]].
  - split; [exact Hr|]. apply list_elem_of_lookup. eauto.
  - rewrite Hd, canAct_nobody in Hc. discriminate.
Qed.

(** What the search loop computes: the first offset, among the [fuel]
    offsets from [i] on, whose seat can act. *)
Lemma nextAliveFrom_spec (ps : list Player) (n start : Z) (fuel : nat) (i : Z) :
  let r := nextAliveFrom ps n start i fuel in
  (r = -1 ∧ ∀ k, i ≤ k < i + Z.of_nat fuel →
               canAct (at_index nobody ps (Z.rem (start + k) n)) = false)
  ∨ (∃ k, i ≤ k < i + Z.of_nat fuel
          ∧ r = Z.rem (start + k) n
          ∧ canAct (at_index nobody ps r) = true
          ∧ ∀ j, i ≤ j < k →
                 canAct (at_index nobody ps (Z.rem (start + j) n)) = false).
Proof.
  revert i. induction fuel as [|fuel IH]; intros i; simpl.
  - left. split; [reflexivity | intros k Hk; lia].
  - destruct (canAct (at_index nobody ps (Z.rem (start + i) n))) eqn:Hc.
    + right. exists i. split; [lia|]. split; [reflexivity|].
      split; [exact Hc | intros j Hj; lia].
    + destruct (IH (i + 1)) as [[Hr Hall]|(k & Hk & Hr & Hck & Hbefore)].
      * left. split; [exact Hr|]. intros k Hk.
        destruct (decide (k = i)) as [->|Hne]; [exact Hc | apply Hall; lia].
      * right. exists k. split; [lia|]. split; [exact Hr|].
        split; [exact Hck|]. intros j Hj.
        destruct (decide (j = i)) as [->|Hne]; [exact Hc | apply Hbefore; lia].
Qed.

Lemma getNextAlivePlayer_spec (g : Game) (start : Z) :
  let r := getNextAlivePlayer g start in
  let n := numPlayers g in
  (r = -1 ∧ ∀ k, 1 ≤ k ≤ n → canAct (playerAt g (Z.rem (start + k) n)) = false)
  ∨ (∃ k, 1 ≤ k ≤ n
          ∧ r = Z.rem (start + k) n
          ∧ canAct (playerAt g r) = true
          ∧ ∀ j, 1 ≤ j < k → canAct (playerAt g (Z.rem (start + j) n)) = false).
Proof.
  unfold getNextAlivePlayer, playerAt, numPlayers.
  destruct (Z.of_nat (length (players g)) =? 0) eqn:Hn.
  - left. split; [reflexivity | intros k Hk]. apply Z.eqb_eq in Hn. lia.
  - destruct (nextAliveFrom_spec (players g) (Z.of_nat (length (players g)))
                start (length (players g)) 1)
      as [[Hr Hall]|(k & Hk & Hr & Hck & Hbefore)].
    + left. split; [exact Hr | intros k Hk; apply Hall; lia].
    + right. exists k. split; [lia|]. split; [exact Hr|].
      split; [exact Hck|]. intros j Hj. apply Hbefore. lia.
Qed.

Lemma getNextAlivePlayer_found (g : Game) (start : Z) :
  getNextAlivePlayer g start ≠ -1 →
  0 ≤ getNextAlivePlayer g start < numPlayers g
  ∧ canAct (playerAt g (getNextAlivePlayer g start)) = true.
Proof.
  intros Hne.
  destruct (getNextAlivePlayer_spec g start) as [[Hr _]|(k & _ & _ & Hck & _)].
  - contradiction.
  - split; [|exact Hck]. apply canAct_at_index_range in Hck. apply Hck.
Qed.

Lemma getNextAlivePlayer_nobody (g : Game) (start : Z) :
  (∀ p, p ∈ players g → canAct p = false) → getNextAlivePlayer g start = -1.
Proof.
  intros Hnone.
  destruct (getNextAlivePlayer_spec g start) as [[Hr _]|(k & _ & _ & Hck & _)].
  - exact Hr.
  - pose proof (canAct_at_index_range _ _ Hck) as [_ Hin].
    apply Hnone in Hin. unfold playerAt in Hck. congruence.
Qed.

(** A seat that can act is found when the search starts at -1 or at a
    seat: the [n] offsets then visit every seat. *)
Lemma getNextAlivePlayer_complete (g : Game) (start s : Z) :
  -1 ≤ start →
  0 ≤ s < numPlayers g →
  canAct (playerAt g s) = true →
  getNextAlivePlayer g start ≠ -1.
Proof.
  intros Hstart Hs Hc Hr.
  destruct (getNextAlivePlayer_spec g start) as [[_ Hall]|(k & _ & Hk & Hck & _)].
  - set (n := numPlayers g) in *.
    assert (Hm : 0 ≤ (s - start - 1) mod n < n) by (apply Z.mod_pos_bound; lia).
    specialize (Hall ((s - start - 1) mod n + 1) ltac:(lia)).
    rewrite Z.rem_mod_nonneg in Hall by lia.
    replace (start + ((s - start - 1) mod n + 1))
      with (s + (-((s - start - 1) / n)) * n) in Hall.
    + rewrite Z.mod_add, Z.mod_small in Hall by lia. congruence.
    + rewrite (Z.mod_eq (s - start - 1) n) by lia. ring.
  - apply canAct_at_index_range in Hck. lia.
Qed.

Lemma nobody_can_act_iff (g : Game) :
  (∀ p, p ∈ players g → ¬ (Player.alive p = true ∧ Player.hand p ≠ []))
  ↔ (∀ p, p ∈ players g → canAct p = false).
Proof.
  split; intros H p Hp; specialize (H p Hp).
  - destruct (canAct p) eqn:Hc; [|reflexivity].
    apply canAct_spec in Hc. contradiction.
  - rewrite <- canAct_spec. congruence.
Qed.

Lemma countAliveWithCards_nobody (g : Game) :
  (∀ p, p ∈ players g → canAct p = false) → countAliveWithCards g = 0.
Proof.
  intros Hnone. unfold countAliveWithCards.
  induction (players g) as [|p ps IH]; [reflexivity|].
  rewrite filter_cons_False.
  - apply IH. intros q Hq. apply Hnone. right. exact Hq.
  - rewrite (Hnone p) by left. discriminate.
Qed.

(** The two places of the loop body that move the turn on. *)
Lemma skipStep_cases (r : Round) :
  let g := game r in
  let nxt := getNextAlivePlayer g (currentPlayerIndex g) in
  (nxt = -1 ∧ skipStep r = (Break, mkRound g true (anyQuestionAsked r), []))
  ∨ (nxt ≠ -1
     ∧ skipStep r
       = (Next, mkRound (withCurrent nxt g) (roundOver r) (anyQuestionAsked r), [])).
Proof.
  unfold skipStep. simpl.
  destruct (getNextAlivePlayer (game r) (currentPlayerIndex (game r)) =? -1) eqn:E.
  - left. apply Z.eqb_eq in E. auto.
  - right. apply Z.eqb_neq in E. auto.
Qed.

Lemma advance_cases (r : Round) :
  roundOver r = false →
  let g := game r in
  let nxt := getNextAlivePlayer g (currentPlayerIndex g) in
  (nxt = -1 ∧ advance r = (Break, mkRound g true (anyQuestionAsked r), []))
  ∨ (nxt ≠ -1
     ∧ advance r
       = (Next, mkRound (withCurrent nxt g) (roundOver r) (anyQuestionAsked r), [])).
Proof.
  intros Hover. unfold advance. rewrite Hover. simpl.
  destruct (getNextAlivePlayer (game r) (currentPlayerIndex (game r)) =? -1) eqn:E.
  - left. apply Z.eqb_eq in E. auto.
  - right. apply Z.eqb_neq in E. auto.
Qed.

(** C4. The next-player lookup returns either -1 or the index of a seat
    whose player is alive with a non-empty hand; when no player is alive
    with cards it returns -1, and the skip step, the advance step and the
    loop body as a whole then leave the round.  When the skip step or the
    advance step does move the turn, the new current player is alive with
    a non-empty hand; and a current player who is dead or has no cards
    makes no play (the iteration prints nothing). *)
Theorem turn_advancement_selects_only_players_who_can_act
    (focus : Card) (inp : Inputs) (r : Round) (start : Z) :
  let g := game r in
  let current r' := playerAt (game r') (currentPlayerIndex (game r')) in
  (getNextAlivePlayer g start ≠ -1 →
     0 ≤ getNextAlivePlayer g start < numPlayers g
     ∧ Player.alive (playerAt g (getNextAlivePlayer g start)) = true
     ∧ Player.hand (playerAt g (getNextAlivePlayer g start)) ≠ [])
  ∧ ((∀ p, p ∈ players g → ¬ (Player.alive p = true ∧ Player.hand p ≠ [])) →
       getNextAlivePlayer g start = -1
       ∧ skipStep r = (Break, mkRound g true (anyQuestionAsked r), [])
       ∧ (roundOver r = false →
          advance r = (Break, mkRound g true (anyQuestionAsked r), []))
       ∧ loopBody focus inp r = (Break, r, []))
  ∧ (∀ r' ev, skipStep r = (Next, r', ev) →
       Player.alive (current r') = true ∧ Player.hand (current r') ≠ [])
  ∧ (∀ r' ev, roundOver r = false → advance r = (Next, r', ev) →
       Player.alive (current r') = true ∧ Player.hand (current r') ≠ [])
  ∧ (canAct (current r) = false → (loopBody focus inp r).2 = []).
Proof.
  intros g current. split; [|split; [|split; [|split]]].
  - intros Hne. destruct (getNextAlivePlayer_found g start Hne) as [Hr Hc].
    apply canAct_spec in Hc. tauto.
  - intros Hnone. rewrite (nobody_can_act_iff g) in Hnone.
    pose proof (getNextAlivePlayer_nobody g) as Hfail.
    split; [apply Hfail; exact Hnone|]. split; [|split].
    + destruct (skipStep_cases r) as [[_ E]|[Hne _]]; [exact E|].
      exfalso. apply Hne, Hfail, Hnone.
    + intros Hover. destruct (advance_cases r Hover) as [[_ E]|[Hne _]]; [exact E|].
      exfalso. apply Hne, Hfail, Hnone.
    + unfold loopBody. fold g.
      rewrite (countAliveWithCards_nobody g Hnone). reflexivity.
  - intros r' ev Hskip.
    destruct (skipStep_cases r) as [[_ E]|[Hne E]]; rewrite E in Hskip;
      [discriminate|].
    injection Hskip as <- _. unfold current. simpl.
    change (playerAt (withCurrent ?i ?h) ?j) with (playerAt h j).
    apply canAct_spec. apply getNextAlivePlayer_found. exact Hne.
  - intros r' ev Hover Hadv.
    destruct (advance_cases r Hover) as [[_ E]|[Hne E]]; rewrite E in Hadv;
      [discriminate|].
    injection Hadv as <- _. unfold current. simpl.
    change (playerAt (withCurrent ?i ?h) ?j) with (playerAt h j).
    apply canAct_spec. apply getNextAlivePlayer_found. exact Hne.
  - intros Hact. unfold current in Hact. fold g in Hact.
    unfold loopBody. fold g.
    destruct (countAliveWithCards g <=? 1); [reflexivity|].
    assert (Hskip : negb (Player.alive (playerAt g (currentPlayerIndex g)))
                    || bool_decide (Player.hand (playerAt g (currentPlayerIndex g)) = [])
                    = true).
    { unfold canAct in Hact.
      destruct (Player.alive (playerAt g (currentPlayerIndex g))); simpl in *;
        [|reflexivity]. apply negb_false_iff in Hact. exact Hact. }
    rewrite Hskip.
    destruct (skipStep_cases r) as [[_ E]|[_ E]]; rewrite E; reflexivity.
Qed.

(** ** Challenge resolution: what it changes *)

Lemma bombRisk_cases (subj rnd : Z) (g : Game) :
  let nm := Player.name (playerAt g subj) in
  (2 ≤ survived g nm
   ∧ bombRisk subj rnd g
     = (withSurvive nm 0 (updPlayer subj (Player.setAlive false) g),
        [BombThird nm]))
  ∨ (survived g nm < 2 ∧ Z.rem rnd 3 = 0
     ∧ bombRisk subj rnd g
       = (withSurvive nm 0 (updPlayer subj (Player.setAlive false) g),
          [BombDied nm]))
  ∨ (survived g nm < 2 ∧ Z.rem rnd 3 ≠ 0
     ∧ bombRisk subj rnd g
       = (withSurvive nm (survived g nm + 1) g, [BombSurvived nm])).
Proof.
  unfold bombRisk. simpl.
  destruct (2 <=? survived g (Player.name (playerAt g subj))) eqn:E2.
  - left. apply Z.leb_le in E2. auto.
  - apply Z.leb_gt in E2. right.
    destruct (Z.rem rnd 3 =? 0) eqn:E3.
    + left. apply Z.eqb_eq in E3. auto.
    + right. apply Z.eqb_neq in E3. auto.
Qed.

Lemma survived_withSurvive_eq (nm : string) (v : Z) (g : Game) :
  survived (withSurvive nm v g) nm = v.
Proof. unfold survived, withSurvive. simpl. rewrite lookup_insert_eq. reflexivity. Qed.

Lemma survived_withSurvive_ne (nm nm' : string) (v : Z) (g : Game) :
  nm ≠ nm' → survived (withSurvive nm v g) nm' = survived g nm'.
Proof.
  intros Hne. unfold survived, withSurvive. simpl.
  rewrite lookup_insert_ne by exact Hne. reflexivity.
Qed.

Lemma updPlayer_frame (i : Z) (f : Player → Player) (g : Game) :
  currentPlayerIndex (updPlayer i f g) = currentPlayerIndex g
  ∧ surviveCount (updPlayer i f g) = surviveCount g
  ∧ lastPlayedByIndex (updPlayer i f g) = lastPlayedByIndex g
  ∧ length (players (updPlayer i f g)) = length (players g).
Proof.
  unfold updPlayer. destruct (i <? 0); simpl; rewrite ?length_alter; auto.
Qed.

Lemma playerAt_updPlayer_eq (i : Z) (f : Player → Player) (g : Game) :
  0 ≤ i < numPlayers g → playerAt (updPlayer i f g) i = f (playerAt g i).
Proof.
  intros Hi. unfold numPlayers in Hi. unfold updPlayer, playerAt.
  destruct (i <? 0) eqn:Hneg; [apply Z.ltb_lt in Hneg; lia|]. simpl.
  destruct (lookup_lt_is_Some_2 (players g) (Z.to_nat i) ltac:(lia)) as [p Hp].
  rewrite (at_index_lookup nobody (players g) i p) by (lia || exact Hp).
  apply at_index_lookup; [lia|].
  rewrite list_lookup_alter_eq, Hp. reflexivity.
Qed.

Lemma playerAt_updPlayer_ne (i j : Z) (f : Player → Player) (g : Game) :
  i ≠ j → playerAt (updPlayer i f g) j = playerAt g j.
Proof.
  intros Hne. unfold updPlayer, playerAt.
  destruct (i <? 0) eqn:Hneg; [reflexivity|]. apply Z.ltb_ge in Hneg. simpl.
  unfold at_index. destruct (j <? 0) eqn:Hj; [reflexivity|]. apply Z.ltb_ge in Hj.
  assert (Hnat : Z.to_nat i ≠ Z.to_nat j) by lia.
  pose proof (list_lookup_alter_ne f (players g) _ _ Hnat) as Hl.
  destruct (players g !! Z.to_nat j) as [p|] eqn:Hp.
  - rewrite (nth_lookup_Some _ _ _ _ Hp).
    rewrite (nth_lookup_Some _ _ _ _ Hl). reflexivity.
  - apply lookup_ge_None in Hp, Hl.
    rewrite !nth_overflow by lia. reflexivity.
Qed.

(** A member call that keeps the name keeps every name in its seat. *)
Lemma names_updPlayer (i : Z) (f : Player → Player) (g : Game) :
  (∀ p, Player.name (f p) = Player.name p) →
  map Player.name (players (updPlayer i f g)) = map Player.name (players g).
Proof.
  intros Hf. unfold updPlayer. destruct (i <? 0); [reflexivity|]. simpl.
  generalize (Z.to_nat i). induction (players g) as [|p ps IH]; intros [|n];
    simpl; try reflexivity.
  - rewrite Hf. reflexivity.
  - f_equal. apply IH.
Qed.

Lemma hands_updPlayer (i : Z) (f : Player → Player) (g : Game) :
  (∀ p, Player.hand (f p) = Player.hand p) →
  map Player.hand (players (updPlayer i f g)) = map Player.hand (players g).
Proof.
  intros Hf. unfold updPlayer. destruct (i <? 0); [reflexivity|]. simpl.
  generalize (Z.to_nat i). induction (players g) as [|p ps IH]; intros [|n];
    simpl; try reflexivity.
  - rewrite Hf. reflexivity.
  - f_equal. apply IH.
Qed.

Lemma findFrom_names (i : Z) (ps ps' : list Player) (nm : string) :
  map Player.name ps = map Player.name ps' → findFrom i ps nm = findFrom i ps' nm.
Proof.
  revert i ps'. induction ps as [|p ps IH]; intros i [|p' ps'] Hn;
    simpl in *; try discriminate; [reflexivity|].
  injection Hn as Hp Hps. rewrite Hp.
  destruct (Player.name p' =? nm)%string; [reflexivity|]. apply IH. exact Hps.
Qed.

Lemma findFrom_range (i : Z) (ps : list Player) (nm : string) :
  findFrom i ps nm = -1
  ∨ i ≤ findFrom i ps nm < i + Z.of_nat (length ps).
Proof.
  revert i. induction ps as [|p ps IH]; intros i; simpl; [auto|].
  destruct (Player.name p =? nm)%string; [right; lia|].
  destruct (IH (i + 1)) as [H|H]; [auto | right; lia].
Qed.

(** The name of a seat is always found: at that seat or at an earlier one
    of the same name. *)
Lemma findFrom_present (i : Z) (ps : list Player) (k : nat) (p : Player) :
  0 ≤ i → ps !! k = Some p →
  i ≤ findFrom i ps (Player.name p) ≤ i + Z.of_nat k.
Proof.
  revert i k. induction ps as [|q ps IH]; intros i k Hi Hk; [discriminate|].
  simpl. destruct (String.eqb_spec (Player.name q) (Player.name p)) as [E|E].
  - lia.
  - destruct k as [|k]; simpl in Hk.
    + injection Hk as ->. contradiction.
    + specialize (IH (i + 1) k ltac:(lia) Hk). lia.
Qed.

Lemma findFrom_NoDup (i : Z) (ps : list Player) (k : nat) (p : Player) :
  NoDup (map Player.name ps) → ps !! k = Some p →
  findFrom i ps (Player.name p) = i + Z.of_nat k.
Proof.
  revert i k. induction ps as [|q ps IH]; intros i k Hnd Hk; [discriminate|].
  simpl in *. apply NoDup_cons in Hnd as [Hq Hnd].
  destruct k as [|k]; simpl in Hk.
  - injection Hk as ->. rewrite String.eqb_refl. lia.
  - destruct (String.eqb_spec (Player.name q) (Player.name p)) as [E|E].
    + exfalso. apply Hq. rewrite E. apply list_elem_of_fmap_2.
      apply list_elem_of_lookup. eauto.
    + rewrite (IH (i + 1) k Hnd Hk). lia.
Qed.

Lemma name_playerAt (g : Game) (i : Z) :
  Player.name (playerAt g i) = at_index ""%string (map Player.name (players g)) i.
Proof.
  unfold playerAt, at_index. destruct (i <? 0); [reflexivity|].
  change ""%string with (Player.name nobody). symmetry. apply map_nth.
Qed.

Lemma hand_playerAt (g : Game) (i : Z) :
  Player.hand (playerAt g i) = at_index [] (map Player.hand (players g)) i.
Proof.
  unfold playerAt, at_index. destruct (i <? 0); [reflexivity|].
  change (@nil Card) with (Player.hand nobody). symmetry. apply map_nth.
Qed.

Lemma giveTurnTo_frame (nm : string) (g : Game) :
  players (giveTurnTo nm g) = players g
  ∧ surviveCount (giveTurnTo nm g) = surviveCount g
  ∧ lastPlayedByIndex (giveTurnTo nm g) = lastPlayedByIndex g.
Proof. unfold giveTurnTo. destruct (negb _); simpl; auto. Qed.

Lemma playerAt_same_players (g g' : Game) (i : Z) :
  players g' = players g → playerAt g' i = playerAt g i.
Proof. unfold playerAt. intros ->. reflexivity. Qed.

Lemma survived_same_counts (g g' : Game) (nm : string) :
  surviveCount g' = surviveCount g → survived g' nm = survived g nm.
Proof. unfold survived. intros ->. reflexivity. Qed.

Lemma bombRisk_names (subj rnd : Z) (g : Game) :
  map Player.name (players (bombRisk subj rnd g).1) = map Player.name (players g).
Proof.
  destruct (bombRisk_cases subj rnd g) as [[_ E]|[(_ & _ & E)|(_ & _ & E)]];
    rewrite E; simpl; try reflexivity;
    apply (names_updPlayer subj (Player.setAlive false) g); reflexivity.
Qed.

Lemma bombRisk_hands (subj rnd : Z) (g : Game) :
  map Player.hand (players (bombRisk subj rnd g).1) = map Player.hand (players g).
Proof.
  destruct (bombRisk_cases subj rnd g) as [[_ E]|[(_ & _ & E)|(_ & _ & E)]];
    rewrite E; simpl; try reflexivity;
    apply (hands_updPlayer subj (Player.setAlive false) g); reflexivity.
Qed.

Lemma bombRisk_frame (subj rnd : Z) (g : Game) :
  let g1 := (bombRisk subj rnd g).1 in
  currentPlayerIndex g1 = currentPlayerIndex g
  ∧ lastPlayedByIndex g1 = lastPlayedByIndex g
  ∧ length (players g1) = length (players g)
  ∧ (∀ j, j ≠ subj → playerAt g1 j = playerAt g j)
  ∧ (∀ nm, nm ≠ Player.name (playerAt g subj) → survived g1 nm = survived g nm).
Proof.
  pose proof (updPlayer_frame subj (Player.setAlive false) g) as (Hc & Hs & Hl & Hn).
  pose proof (λ j, playerAt_updPlayer_ne subj j (Player.setAlive false) g) as Hp.
  destruct (bombRisk_cases subj rnd g) as [[_ E]|[(_ & _ & E)|(_ & _ & E)]];
    rewrite E; cbn [fst]; (split; [|split; [|split; [|split]]]);
    try (simpl; assumption); try (simpl; reflexivity);
    try (intros j Hj; apply (Hp j); congruence);
    intros nm Hnm; rewrite survived_withSurvive_ne by congruence;
    try reflexivity; apply survived_same_counts; exact Hs.
Qed.

(** The resolution in one piece: the bomb block runs on the seat at fault,
    then the turn goes to the questioner, and the result is [true]. *)
Lemma handleQuestioning_unfold (qi pi : Z) (played : list Card) (focus : Card)
    (rnd : Z) (g : Game) :
  let g1 := (bombRisk (atFault qi pi played focus) rnd g).1 in
  (handleQuestioning qi pi played focus rnd g).1
  = (giveTurnTo (Player.name (playerAt g qi)) g1, true).
Proof.
  unfold handleQuestioning, atFault.
  destruct (negb (playIsCorrect played focus)).
  - pose proof (bombRisk_names pi rnd g) as Hn.
    destruct (bombRisk pi rnd g) as [g1 ev]. simpl in *.
    rewrite !name_playerAt, Hn. reflexivity.
  - pose proof (bombRisk_names qi rnd g) as Hn.
    destruct (bombRisk qi rnd g) as [g1 ev]. simpl in *.
    rewrite !name_playerAt, Hn. reflexivity.
Qed.

Lemma findPlayerIndex_seat (g : Game) (qi : Z) :
  0 ≤ qi < numPlayers g →
  0 ≤ findPlayerIndex g (Player.name (playerAt g qi)) ≤ qi.
Proof.
  intros Hq. unfold numPlayers in Hq. unfold findPlayerIndex, playerAt.
  destruct (lookup_lt_is_Some_2 (players g) (Z.to_nat qi) ltac:(lia)) as [p Hp].
  rewrite (at_index_lookup nobody _ qi p) by (lia || exact Hp).
  pose proof (findFrom_present 0 _ _ _ ltac:(lia) Hp). lia.
Qed.

Lemma findPlayerIndex_NoDup (g : Game) (qi : Z) :
  NoDup (map Player.name (players g)) →
  0 ≤ qi < numPlayers g →
  findPlayerIndex g (Player.name (playerAt g qi)) = qi.
Proof.
  intros Hnd Hq. unfold numPlayers in Hq. unfold findPlayerIndex, playerAt.
  destruct (lookup_lt_is_Some_2 (players g) (Z.to_nat qi) ltac:(lia)) as [p Hp].
  rewrite (at_index_lookup nobody _ qi p) by (lia || exact Hp).
  rewrite (findFrom_NoDup 0 _ _ _ Hnd Hp). lia.
Qed.

(** C5. Challenge resolution returns [true] for every play, focus card and
    draw, whichever party is at fault.  Afterwards the current-player index
    is the index that the name lookup gives for the questioner; only when
    that lookup fails (-1) is it the next player alive with cards after
    position -1, or 0 when there is none.  For a questioner that sits at a
    seat the lookup does not fail. *)
Theorem handleQuestioning_ends_round_and_gives_turn
    (qi pi : Z) (played : list Card) (focus : Card) (rnd : Z) (g : Game) :
  let res := handleQuestioning qi pi played focus rnd g in
  let g' := res.1.1 in
  let idx := findPlayerIndex g (Player.name (playerAt g qi)) in
  let fallback := getNextAlivePlayer g' (-1) in
  res.1.2 = true
  ∧ currentPlayerIndex g'
    = (if idx =? -1 then (if fallback =? -1 then 0 else fallback) else idx)
  ∧ (0 ≤ qi < numPlayers g → idx ≠ -1).
Proof.
  intros res g' idx fallback. subst res g' fallback.
  rewrite (handleQuestioning_unfold qi pi played focus rnd g). simpl.
  split; [reflexivity|]. split.
  - set (g1 := (bombRisk (atFault qi pi played focus) rnd g).1).
    assert (Hfind : findPlayerIndex g1 (Player.name (playerAt g qi)) = idx).
    { apply findFrom_names. apply bombRisk_names. }
    unfold giveTurnTo. rewrite Hfind.
    destruct (idx =? -1) eqn:E; simpl; [|reflexivity].
    change (getNextAlivePlayer (withCurrent ?i g1) (-1))
      with (getNextAlivePlayer g1 (-1)).
    destruct (getNextAlivePlayer g1 (-1) =? -1); reflexivity.
  - intros Hq. pose proof (findPlayerIndex_seat g qi Hq). subst idx. lia.
Qed.

Lemma names_differ (g : Game) (i j : Z) :
  NoDup (map Player.name (players g)) →
  0 ≤ i < numPlayers g → 0 ≤ j < numPlayers g → i ≠ j →
  Player.name (playerAt g i) ≠ Player.name (playerAt g j).
Proof.
  intros Hnd Hi Hj Hne Heq. unfold numPlayers in *.
  destruct (lookup_lt_is_Some_2 (players g) (Z.to_nat i) ltac:(lia)) as [p Hp].
  destruct (lookup_lt_is_Some_2 (players g) (Z.to_nat j) ltac:(lia)) as [q Hq].
  unfold playerAt in Heq.
  rewrite (at_index_lookup nobody _ i p), (at_index_lookup nobody _ j q) in Heq
    by (lia || assumption).
  assert (Z.to_nat i = Z.to_nat j); [|lia].
  apply (NoDup_lookup _ _ _ (Player.name p) Hnd);
    rewrite list_lookup_fmap; [rewrite Hp | rewrite Hq, Heq]; reflexivity.
Qed.

Lemma handleQuestioning_players (qi pi : Z) (played : list Card) (focus : Card)
    (rnd : Z) (g : Game) :
  let g' := (handleQuestioning qi pi played focus rnd g).1.1 in
  let g1 := (bombRisk (atFault qi pi played focus) rnd g).1 in
  players g' = players g1
  ∧ surviveCount g' = surviveCount g1
  ∧ lastPlayedByIndex g' = lastPlayedByIndex g1.
Proof.
  simpl. rewrite (handleQuestioning_unfold qi pi played focus rnd g). simpl.
  apply giveTurnTo_frame.
Qed.

(** C9. One call of challenge resolution, made on two seats of a game
    whose players have distinct names, changes the alive flag and the
    survive counter of the seat at fault only (the player who played when
    the play is incorrect, the questioner otherwise): every other player
    is the same record afterwards and has the same survive counter; the
    hand and the name of every player, the recorded last plays and the
    number of seats are unchanged. *)
Theorem handleQuestioning_frame
    (qi pi : Z) (played : list Card) (focus : Card) (rnd : Z) (g : Game) :
  NoDup (map Player.name (players g)) →
  0 ≤ qi < numPlayers g →
  0 ≤ pi < numPlayers g →
  let g' := (handleQuestioning qi pi played focus rnd g).1.1 in
  let s := atFault qi pi played focus in
  (s = if playIsCorrect played focus then qi else pi)
  ∧ (∀ j, 0 ≤ j < numPlayers g → j ≠ s →
       playerAt g' j = playerAt g j
       ∧ survived g' (Player.name (playerAt g j))
         = survived g (Player.name (playerAt g j)))
  ∧ (∀ j, Player.hand (playerAt g' j) = Player.hand (playerAt g j)
          ∧ Player.name (playerAt g' j) = Player.name (playerAt g j))
  ∧ lastPlayedByIndex g' = lastPlayedByIndex g
  ∧ numPlayers g' = numPlayers g.
Proof.
  intros Hnd Hq Hp g' s.
  destruct (handleQuestioning_players qi pi played focus rnd g) as (Hps & Hsc & Hlp).
  fold g' s in Hps, Hsc, Hlp.
  destruct (bombRisk_frame s rnd g) as (_ & Hl1 & Hn1 & Hp1 & Hs1).
  assert (Hs : 0 ≤ s < numPlayers g).
  { subst s. unfold atFault. destruct (negb _); assumption. }
  split; [|split; [|split; [|split]]].
  - subst s. unfold atFault. destruct (playIsCorrect played focus); reflexivity.
  - intros j Hj Hne. split.
    + rewrite (playerAt_same_players _ _ j Hps). apply Hp1. exact Hne.
    + rewrite (survived_same_counts _ _ _ Hsc). apply Hs1.
      apply names_differ; assumption.
  - intros j. rewrite !hand_playerAt, !name_playerAt, Hps.
    rewrite (bombRisk_hands s rnd g), (bombRisk_names s rnd g). auto.
  - rewrite Hlp. exact Hl1.
  - unfold numPlayers. rewrite Hps, Hn1. reflexivity.
Qed.

(** ** The survive counter *)

Lemma countersBounded_survived (g : Game) (nm : string) :
  countersBounded g → 0 ≤ survived g nm ≤ 2.
Proof.
  intros Hb. unfold survived. destruct (surviveCount g !! nm) as [v|] eqn:E; simpl.
  - exact (Hb nm v E).
  - lia.
Qed.

Lemma countersBounded_same (g g' : Game) :
  surviveCount g' = surviveCount g → countersBounded g → countersBounded g'.
Proof. unfold countersBounded. intros ->. auto. Qed.

Lemma countersBounded_withSurvive (nm : string) (v : Z) (g : Game) :
  0 ≤ v ≤ 2 → countersBounded g → countersBounded (withSurvive nm v g).
Proof. intros Hv Hb. unfold countersBounded. simpl. apply map_Forall_insert_2; assumption. Qed.

Lemma bombRisk_bounded (subj rnd : Z) (g : Game) :
  countersBounded g → countersBounded (bombRisk subj rnd g).1.
Proof.
  intros Hb.
  pose proof (countersBounded_survived g (Player.name (playerAt g subj)) Hb).
  pose proof (updPlayer_frame subj (Player.setAlive false) g) as (_ & Hs & _).
  destruct (bombRisk_cases subj rnd g) as [[_ E]|[(_ & _ & E)|(Hlt & _ & E)]];
    rewrite E; cbn [fst]; apply countersBounded_withSurvive; try lia;
    try exact Hb; apply (countersBounded_same g); assumption.
Qed.

Lemma handleQuestioning_bounded (qi pi : Z) (played : list Card) (focus : Card)
    (rnd : Z) (g : Game) :
  countersBounded g →
  countersBounded (handleQuestioning qi pi played focus rnd g).1.1.
Proof.
  intros Hb.
  destruct (handleQuestioning_players qi pi played focus rnd g) as (_ & Hsc & _).
  eapply countersBounded_same; [exact Hsc|]. apply bombRisk_bounded. exact Hb.
Qed.

(** What a bomb-risk event does to the seat at fault. *)
Lemma handleQuestioning_risk (qi pi : Z) (played : list Card) (focus : Card)
    (rnd : Z) (g : Game) :
  let g' := (handleQuestioning qi pi played focus rnd g).1.1 in
  let s := atFault qi pi played focus in
  let nm := Player.name (playerAt g s) in
  0 ≤ s < numPlayers g →
  (2 ≤ survived g nm →
     Player.alive (playerAt g' s) = false ∧ survived g' nm = 0)
  ∧ (survived g nm < 2 → Z.rem rnd 3 = 0 →
     Player.alive (playerAt g' s) = false ∧ survived g' nm = 0)
  ∧ (survived g nm < 2 → Z.rem rnd 3 ≠ 0 →
     playerAt g' s = playerAt g s ∧ survived g' nm = survived g nm + 1).
Proof.
  intros g' s nm Hs.
  destruct (handleQuestioning_players qi pi played focus rnd g) as (Hps & Hsc & _).
  fold g' s in Hps, Hsc.
  rewrite (playerAt_same_players _ _ s Hps), (survived_same_counts _ _ nm Hsc).
  pose proof (playerAt_updPlayer_eq s (Player.setAlive false) g Hs) as Hdead.
  destruct (bombRisk_cases s rnd g) as [[H2 E]|[(H2 & H3 & E)|(H2 & H3 & E)]];
    fold nm in H2, E; rewrite E; cbn [fst];
    rewrite survived_withSurvive_eq;
    (split; [|split]); intros; try lia; try contradiction; split;
    try reflexivity;
    change (playerAt (withSurvive ?a ?b ?h) ?j) with (playerAt h j);
    rewrite ?Hdead; reflexivity.
Qed.

(** ** What every step of the loop body keeps *)

Lemma numPlayers_names (g g' : Game) :
  map Player.name (players g') = map Player.name (players g) →
  numPlayers g' = numPlayers g.
Proof.
  intros H. unfold numPlayers. f_equal.
  rewrite <- (length_map Player.name (players g')), H. apply length_map.
Qed.

Lemma keeps_refl (g : Game) : keeps g g.
Proof. unfold keeps. auto. Qed.

Lemma keeps_trans (g1 g2 g3 : Game) : keeps g1 g2 → keeps g2 g3 → keeps g1 g3.
Proof.
  intros (Hn & Hc & Hs) (Hn' & Hc' & Hs'). unfold keeps.
  split; [congruence | auto].
Qed.

Lemma keeps_same (g g' : Game) :
  players g' = players g → currentPlayerIndex g' = currentPlayerIndex g →
  surviveCount g' = surviveCount g → keeps g g'.
Proof.
  intros Hp Hc Hs. unfold keeps, seated, numPlayers, countersBounded.
  rewrite Hp, Hc, Hs. auto.
Qed.

Lemma keeps_updPlayer (i : Z) (f : Player → Player) (g : Game) :
  (∀ p, Player.name (f p) = Player.name p) → keeps g (updPlayer i f g).
Proof.
  intros Hf. pose proof (names_updPlayer i f g Hf) as Hn.
  pose proof (updPlayer_frame i f g) as (Hc & Hs & _ & _).
  split; [exact Hn|]. split.
  - apply countersBounded_same. exact Hs.
  - unfold seated. rewrite Hc, (numPlayers_names _ _ Hn). auto.
Qed.

Lemma keeps_recordPlay (nm : string) (played : list Card) (g : Game) :
  keeps g (recordPlay nm played g).
Proof.
  unfold recordPlay. destruct (negb _); [|apply keeps_refl].
  apply keeps_same; reflexivity.
Qed.

Lemma keeps_withCurrent (i : Z) (g : Game) :
  0 ≤ i < numPlayers g → keeps g (withCurrent i g).
Proof.
  intros Hi. split; [reflexivity|]. split; [auto|]. intros _. exact Hi.
Qed.

Lemma keeps_giveTurnTo (nm : string) (g : Game) : keeps g (giveTurnTo nm g).
Proof.
  destruct (giveTurnTo_frame nm g) as (Hp & Hs & _).
  split; [rewrite Hp; reflexivity|]. split.
  - apply countersBounded_same. exact Hs.
  - intros Hseat. unfold seated in *. rewrite (numPlayers_names g _) by (rewrite Hp; reflexivity).
    unfold giveTurnTo.
    destruct (findPlayerIndex g nm =? -1) eqn:E; simpl.
    + destruct (getNextAlivePlayer g (-1) =? -1) eqn:E'; simpl; [lia|].
      apply Z.eqb_neq in E'. apply getNextAlivePlayer_found. exact E'.
    + apply Z.eqb_neq in E. unfold findPlayerIndex, numPlayers in *.
      destruct (findFrom_range 0 (players g) nm); [contradiction | lia].
Qed.

Lemma keeps_bombRisk (subj rnd : Z) (g : Game) : keeps g (bombRisk subj rnd g).1.
Proof.
  pose proof (bombRisk_names subj rnd g) as Hn.
  destruct (bombRisk_frame subj rnd g) as (Hc & _).
  split; [exact Hn|]. split; [apply bombRisk_bounded|].
  unfold seated. rewrite Hc, (numPlayers_names _ _ Hn). auto.
Qed.

Lemma keeps_handleQuestioning (qi pi : Z) (played : list Card) (focus : Card)
    (rnd : Z) (g : Game) :
  keeps g (handleQuestioning qi pi played focus rnd g).1.1.
Proof.
  rewrite (handleQuestioning_unfold qi pi played focus rnd g). simpl.
  eapply keeps_trans; [apply keeps_bombRisk | apply keeps_giveTurnTo].
Qed.

Lemma question_unfold (qi pi : Z) (focus : Card) (rnd : Z) (g : Game) :
  let toCheck := recordedPlay (Player.name (playerAt g pi)) g in
  let res := handleQuestioning qi pi toCheck focus rnd g in
  question qi pi focus rnd g = (mkRound res.1.1 true true, res.2).
Proof.
  simpl. unfold question.
  pose proof (handleQuestioning_unfold qi pi
                (recordedPlay (Player.name (playerAt g pi)) g) focus rnd g) as H.
  destruct (handleQuestioning _ _ _ _ _ _) as [[g' over] ev].
  simpl in *. injection H as _ ->. reflexivity.
Qed.

Lemma keeps_question (qi pi : Z) (focus : Card) (rnd : Z) (g : Game) :
  keeps g (game (question qi pi focus rnd g).1).
Proof. rewrite question_unfold. simpl. apply keeps_handleQuestioning. Qed.

Lemma humanPlay_player (sel : list Z) (p : Player) :
  (humanPlay sel p).2 = Player.setHand (humanPlay sel p).2.(Player.hand) p.
Proof.
  unfold humanPlay. destruct (takeChosen _ _ _) as [played h]. reflexivity.
Qed.

Lemma playCards_player (n : Z) (p : Player) :
  (Player.playCards n p).2
  = Player.setHand (Player.playCards n p).2.(Player.hand) p.
Proof.
  unfold Player.playCards. destruct (Player.popBack _ _ _) as [played h].
  reflexivity.
Qed.

Lemma humanPlay_name (sel : list Z) (p : Player) :
  Player.name (humanPlay sel p).2 = Player.name p.
Proof. rewrite humanPlay_player. reflexivity. Qed.

Lemma playCards_name (n : Z) (p : Player) :
  Player.name (Player.playCards n p).2 = Player.name p.
Proof. rewrite playCards_player. reflexivity. Qed.

Section KeepsTurn.

Variable focus : Card.
Variable inp : Inputs.

Lemma keeps_skipStep (r : Round) : keeps (game r) (game (skipStep r).1.2).
Proof.
  destruct (skipStep_cases r) as [[_ E]|[Hne E]]; rewrite E; simpl.
  - apply keeps_refl.
  - apply keeps_withCurrent. apply getNextAlivePlayer_found. exact Hne.
Qed.

Lemma keeps_advance (r : Round) : keeps (game r) (game (advance r).1.2).
Proof.
  destruct (roundOver r) eqn:Hover.
  - unfold advance. rewrite Hover. apply keeps_refl.
  - destruct (advance_cases r Hover) as [[_ E]|[Hne E]]; rewrite E; simpl.
    + apply keeps_refl.
    + apply keeps_withCurrent. apply getNextAlivePlayer_found. exact Hne.
Qed.

Lemma keeps_forcedQuestioning (r : Round) :
  keeps (game r) (game (forcedQuestioning focus inp r).1.2).
Proof.
  unfold forcedQuestioning.
  repeat (case_match; simpl; try apply keeps_refl).
  match goal with
  | H : question ?q ?p ?f ?x ?g = _ |- _ =>
      pose proof (keeps_question q p f x g) as K; rewrite H in K; exact K
  end.
Qed.

Lemma keeps_humanPlays (cur : Z) (g : Game) :
  keeps g (humanPlays inp cur g).1.
Proof.
  unfold humanPlays. simpl.
  eapply keeps_trans; [|apply keeps_recordPlay].
  apply keeps_updPlayer. intros p. apply humanPlay_name.
Qed.

Lemma keeps_botPlays (cur : Z) (g : Game) :
  keeps g (botPlays inp cur g).1.
Proof.
  unfold botPlays. simpl.
  eapply keeps_trans; [|apply keeps_recordPlay].
  apply keeps_updPlayer. intros p. apply playCards_name.
Qed.

Lemma keeps_humanChallenged (cur : Z) (r : Round) (g2 : Game) :
  keeps g2 (game (humanChallenged focus inp cur r g2).1.2).
Proof.
  unfold humanChallenged.
  repeat (case_match; simpl; try apply keeps_refl).
  match goal with
  | H : question ?q ?p ?f ?x ?g = _ |- _ =>
      pose proof (keeps_question q p f x g) as K; rewrite H in K; exact K
  end.
Qed.

Lemma keeps_botChallenged (cur : Z) (r : Round) (g2 : Game) :
  keeps g2 (game (botChallenged focus inp cur r g2).1.2).
Proof.
  unfold botChallenged.
  repeat (case_match; simpl; try apply keeps_refl);
  match goal with
  | H : question ?q ?p ?f ?x ?g = _ |- _ =>
      pose proof (keeps_question q p f x g) as K; rewrite H in K; exact K
  end.
Qed.

Lemma keeps_turnOf plays challenged (cur : Z) (r : Round) :
  (∀ g, keeps g (plays cur g).1) →
  (∀ g2, keeps g2 (game (challenged cur r g2).1.2)) →
  keeps (game r) (game (turnOf plays challenged cur r).1.2).
Proof.
  intros Hp Hc. unfold turnOf. specialize (Hp (game r)).
  destruct (plays cur (game r)) as [g2 ev]. specialize (Hc g2).
  destruct (challenged cur r g2) as [[fl r'] ev']. simpl in *.
  eapply keeps_trans; eassumption.
Qed.

Lemma keeps_humanTurn (cur : Z) (r : Round) :
  keeps (game r) (game (humanTurn focus inp cur r).1.2).
Proof.
  apply keeps_turnOf;
    [apply keeps_humanPlays | apply keeps_humanChallenged].
Qed.

Lemma keeps_botTurn (cur : Z) (r : Round) :
  keeps (game r) (game (botTurn focus inp cur r).1.2).
Proof.
  apply keeps_turnOf; [apply keeps_botPlays | apply keeps_botChallenged].
Qed.

Lemma keeps_andThen (r : Round) (a : Flow * Round * list Event)
    (k : Round → Flow * Round * list Event) :
  keeps (game r) (game a.1.2) →
  (∀ r1, keeps (game r1) (game (k r1).1.2)) →
  keeps (game r) (game (andThen a k).1.2).
Proof.
  intros Ha Hk. destruct a as [[[|] r1] ev]; simpl in *; [exact Ha|].
  specialize (Hk r1). destruct (k r1) as [[fl r2] ev2]. simpl in *.
  eapply keeps_trans; eassumption.
Qed.

Lemma keeps_loopBody (r : Round) :
  keeps (game r) (game (loopBody focus inp r).1.2).
Proof.
  unfold loopBody. repeat (case_match; try apply keeps_refl).
  - apply keeps_skipStep.
  - apply keeps_andThen.
    + unfold playTurn. case_match; [apply keeps_humanTurn | apply keeps_botTurn].
    + intros r1. apply keeps_andThen;
        [apply keeps_forcedQuestioning | apply keeps_advance].
Qed.

End KeepsTurn.

(** ** Reachable states *)

Lemma dealTo_names (n : Z) (ps : list Player) (cards : list Card) :
  map Player.name (dealTo n ps cards) = map Player.name ps.
Proof.
  revert cards. induction ps as [|p ps IH]; intros cards; simpl; [reflexivity|].
  destruct (Player.alive p).
  - destruct (deal n cards) as [h cards']. simpl. f_equal. apply IH.
  - simpl. f_equal. apply IH.
Qed.

Lemma keeps_dealCardsToAlive (n : Z) (cards : list Card) (g : Game) :
  keeps g (dealCardsToAlive n cards g).
Proof.
  pose proof (dealTo_names n (players g) cards) as Hn.
  split; [exact Hn|]. split; [auto|].
  unfold seated. rewrite (numPlayers_names g (dealCardsToAlive n cards g) Hn).
  auto.
Qed.

(** What holds of every reachable state: the four seats carry the four
    names of the constructor, the current index is a seat, and the
    counters are bounded. *)
Lemma reachable_invariant (g : Game) :
  reachable g →
  map Player.name (players g) = seatNames ∧ seated g ∧ countersBounded g.
Proof.
  induction 1 as [r Hr | g cards _ IH _ | g focus inp asked _ IH].
  - split; [reflexivity|]. split.
    + unfold seated, numPlayers, newGame. simpl.
      pose proof (Z.rem_bound_pos r 4 Hr ltac:(lia)). lia.
    + unfold countersBounded, newGame. simpl.
      repeat (apply map_Forall_insert_2; [lia|]). apply map_Forall_empty.
  - destruct IH as (Hn & Hs & Hc).
    destruct (keeps_dealCardsToAlive 5 cards g) as (Hn' & Hc' & Hs').
    split; [congruence | auto].
  - destruct IH as (Hn & Hs & Hc).
    destruct (keeps_loopBody focus inp (mkRound g false asked)) as (Hn' & Hc' & Hs').
    simpl in *. split; [congruence | auto].
Qed.

(** C2. In every reachable state the survive counter of every name is 0, 1
    or 2.  At a bomb-risk event (challenge resolution, applied to the seat
    at fault): with the counter at 2 or more the subject is eliminated and
    the counter set to 0 whatever the draw; below 2, a draw divisible by 3
    eliminates the subject and sets the counter to 0, and any other draw
    leaves the subject as it is and adds exactly 1 to the counter. *)
Theorem survive_counter_invariant :
  (∀ g nm, reachable g →
     survived g nm = 0 ∨ survived g nm = 1 ∨ survived g nm = 2)
  ∧ (∀ qi pi played focus rnd g,
       0 ≤ qi < numPlayers g → 0 ≤ pi < numPlayers g →
       let g' := (handleQuestioning qi pi played focus rnd g).1.1 in
       let s := atFault qi pi played focus in
       let nm := Player.name (playerAt g s) in
       (2 ≤ survived g nm →
          Player.alive (playerAt g' s) = false ∧ survived g' nm = 0)
       ∧ (survived g nm < 2 → Z.rem rnd 3 = 0 →
          Player.alive (playerAt g' s) = false ∧ survived g' nm = 0)
       ∧ (survived g nm < 2 → Z.rem rnd 3 ≠ 0 →
          playerAt g' s = playerAt g s ∧ survived g' nm = survived g nm + 1)).
Proof.
  split.
  - intros g nm Hr. destruct (reachable_invariant g Hr) as (_ & _ & Hc).
    pose proof (countersBounded_survived g nm Hc). lia.
  - intros qi pi played focus rnd g Hq Hp.
    apply handleQuestioning_risk.
    unfold atFault. destruct (negb _); assumption.
Qed.

(** ** The cards the human plays *)

Module HumanPlay.

Lemma ge_transitive : Transitive Z.ge.
Proof. intros x y z. lia. Qed.

Lemma ge_total : Total Z.ge.
Proof. intros x y. lia. Qed.

Lemma sortDescending_perm (sel : list Z) : sortDescending sel ≡ₚ sel.
Proof. apply merge_sort_Permutation. Qed.

(** The sorted indices are strictly descending when no index repeats. *)
Lemma sortDescending_strict (sel : list Z) :
  NoDup sel → StronglySorted Z.gt (sortDescending sel).
Proof.
  intros Hnd.
  assert (Hnd' : NoDup (sortDescending sel))
    by (rewrite sortDescending_perm; exact Hnd).
  pose proof (@StronglySorted_merge_sort Z Z.ge _ ge_transitive ge_total sel)
    as Hs.
  fold (sortDescending sel) in Hs.
  induction Hs as [|a l Hs IH Hall]; [constructor|].
  apply NoDup_cons in Hnd' as [Ha Hl].
  constructor; [apply IH; exact Hl|].
  rewrite Forall_forall in Hall |- *. intros x Hx.
  specialize (Hall x Hx). assert (a ≠ x) by (intros ->; contradiction). lia.
Qed.

Lemma at_index_eraseAt_below (h : list Card) (idx i : Z) :
  0 ≤ i < idx → idx < Z.of_nat (length h) →
  at_index ""%string (Player.eraseAt idx h) i = at_index ""%string h i.
Proof.
  intros Hi Hidx. rewrite eraseAt_in by lia. unfold at_index.
  destruct (i <? 0); [reflexivity|].
  pose proof (list_lookup_delete_lt h (Z.to_nat idx) (Z.to_nat i) ltac:(lia))
    as Hl.
  destruct (lookup_lt_is_Some_2 h (Z.to_nat i) ltac:(lia)) as [c Hc].
  rewrite Hc in Hl.
  rewrite (nth_lookup_Some _ _ _ _ Hc), (nth_lookup_Some _ _ _ _ Hl).
  reflexivity.
Qed.

Lemma length_eraseAt (h : list Card) (idx : Z) :
  0 ≤ idx < Z.of_nat (length h) →
  Z.of_nat (length (Player.eraseAt idx h)) = Z.of_nat (length h) - 1.
Proof.
  intros Hin. destruct (eraseAt_split idx h Hin) as (b & c & a & -> & _ & _ & ->).
  rewrite !length_app. simpl. lia.
Qed.

(** The removal loop over strictly descending indices: every read
    [hand[idx]] sees the card that was at [idx] before the loop. *)
Lemma takeChosen_descending (idxs : list Z) (h played : list Card) :
  StronglySorted Z.gt idxs →
  Forall (λ i, 0 ≤ i < Z.of_nat (length h)) idxs →
  takeChosen idxs h played
  = (played ++ map (at_index ""%string h) idxs,
     foldl (λ h' i, Player.eraseAt i h') h idxs).
Proof.
  intros Hs. revert h played.
  induction Hs as [|idx rest Hs IH Hgt]; intros h played Hin; simpl.
  - rewrite app_nil_r. reflexivity.
  - apply Forall_cons in Hin as [Hidx Hrest].
    assert (Hrest' : Forall (λ i, 0 ≤ i < Z.of_nat (length (Player.eraseAt idx h))) rest).
    { rewrite Forall_forall in Hgt, Hrest |- *. intros i Hi.
      specialize (Hgt i Hi). specialize (Hrest i Hi).
      rewrite length_eraseAt by lia. lia. }
    rewrite (IH _ _ Hrest'). rewrite <- app_assoc. simpl. do 3 f_equal.
    apply map_ext_in. intros i Hi. apply list_elem_of_In in Hi.
    rewrite Forall_forall in Hgt, Hrest.
    specialize (Hgt i Hi). specialize (Hrest i Hi).
    apply at_index_eraseAt_below; lia.
Qed.

Lemma unchosen_above (o : Z) (sel : list Z) (h : list Card) :
  Forall (λ i, i < o) sel → unchosen o sel h = h.
Proof.
  revert o. induction h as [|c h IH]; intros o Hsel; simpl; [reflexivity|].
  rewrite bool_decide_eq_false_2.
  - f_equal. apply IH. eapply Forall_impl; [exact Hsel|]. simpl. intros; lia.
  - intros Hin. rewrite Forall_forall in Hsel. specialize (Hsel o Hin). lia.
Qed.

Lemma unchosen_delete (o : Z) (k : nat) (rest : list Z) (h : list Card) :
  Forall (λ i, i < o + Z.of_nat k) rest →
  (k < length h)%nat →
  unchosen o rest (delete k h) = unchosen o (o + Z.of_nat k :: rest) h.
Proof.
  revert o k. induction h as [|c h IH]; intros o k Hrest Hk; simpl in Hk; [lia|].
  destruct k as [|k]; simpl.
  - rewrite Z.add_0_r in *.
    rewrite bool_decide_eq_true_2 by left.
    rewrite !unchosen_above; [reflexivity | |exact Hrest].
    constructor; [lia|]. eapply Forall_impl; [exact Hrest|]. simpl. intros; lia.
  - assert (Hiff : o ∈ o + Z.of_nat (S k) :: rest ↔ o ∈ rest).
    { rewrite elem_of_cons. split; [intros [?|?]; [lia|assumption] | auto]. }
    rewrite (bool_decide_ext _ _ Hiff).
    replace (o + Z.of_nat (S k)) with (o + 1 + Z.of_nat k) in * by lia.
    rewrite (IH (o + 1) k) by (assumption || lia).
    reflexivity.
Qed.

Lemma foldl_eraseAt_unchosen (idxs : list Z) (h : list Card) :
  StronglySorted Z.gt idxs →
  Forall (λ i, 0 ≤ i < Z.of_nat (length h)) idxs →
  foldl (λ h' i, Player.eraseAt i h') h idxs = unchosen 0 idxs h.
Proof.
  intros Hs. revert h.
  induction Hs as [|idx rest Hs IH Hgt]; intros h Hin; simpl.
  - symmetry. apply unchosen_above. constructor.
  - apply Forall_cons in Hin as [Hidx Hrest].
    rewrite IH.
    + rewrite eraseAt_in by lia.
      rewrite (unchosen_delete 0 (Z.to_nat idx) rest h).
      * rewrite Z.add_0_l, Z2Nat.id by lia. reflexivity.
      * eapply Forall_impl; [exact Hgt|]. simpl. intros; lia.
      * lia.
    + rewrite Forall_forall in Hgt, Hrest |- *. intros i Hi.
      specialize (Hgt i Hi). specialize (Hrest i Hi).
      rewrite length_eraseAt by lia. lia.
Qed.

Lemma unchosen_perm (o : Z) (sel sel' : list Z) (h : list Card) :
  sel ≡ₚ sel' → unchosen o sel h = unchosen o sel' h.
Proof.
  intros Hp. revert o. induction h as [|c h IH]; intros o; simpl; [reflexivity|].
  rewrite (bool_decide_ext (o ∈ sel) (o ∈ sel')) by (rewrite Hp; reflexivity).
  rewrite IH. reflexivity.
Qed.

End HumanPlay.

(** C8 as amended. For every hand and every selection of distinct valid
    indices, the removal loop runs over the indices in strictly descending
    order, removing at each step the card that was selected; the hand is
    left with the unselected cards in their order; and the play that is
    returned lists the selected cards in ascending index order, the order
    they had in the hand. *)
Theorem humanPlay_removes_descending_returns_ascending
    (sel : list Z) (p : Player) :
  NoDup sel →
  Forall (λ i, 0 ≤ i < Z.of_nat (length (Player.hand p))) sel →
  let order := sortDescending sel in
  order ≡ₚ sel
  ∧ StronglySorted Z.gt order
  ∧ Player.hand (humanPlay sel p).2
    = foldl (λ h i, Player.eraseAt i h) (Player.hand p) order
  ∧ Player.hand (humanPlay sel p).2 = unchosen 0 sel (Player.hand p)
  ∧ (humanPlay sel p).1 = map (at_index ""%string (Player.hand p)) (rev order)
  ∧ StronglySorted Z.lt (rev order).
Proof.
  intros Hnd Hin order.
  pose proof (HumanPlay.sortDescending_perm sel) as Hperm.
  pose proof (HumanPlay.sortDescending_strict sel Hnd) as Hsorted.
  fold order in Hperm, Hsorted.
  assert (Hin' : Forall (λ i, 0 ≤ i < Z.of_nat (length (Player.hand p))) order)
    by (rewrite Hperm; exact Hin).
  pose proof (HumanPlay.takeChosen_descending order (Player.hand p) [] Hsorted Hin')
    as Htake.
  unfold humanPlay. fold order. rewrite Htake. simpl.
  split; [exact Hperm|]. split; [exact Hsorted|]. split; [reflexivity|].
  split; [|split].
  - rewrite (HumanPlay.foldl_eraseAt_unchosen _ _ Hsorted Hin').
    apply HumanPlay.unchosen_perm. exact Hperm.
  - rewrite map_rev. reflexivity.
  - clear -Hsorted. induction Hsorted as [|a l Hs IH Hall]; simpl; [constructor|].
    apply StronglySorted_app_2; [|exact IH | repeat constructor].
    intros x y Hx Hy. apply list_elem_of_singleton in Hy as ->.
    apply list_elem_of_In, in_rev, list_elem_of_In in Hx.
    rewrite Forall_forall in Hall.
    specialize (Hall x Hx). lia.
Qed.

(** The human selects position 2 and then position 0 of a three-card hand:
    the play comes back as the cards of positions 0 and 2 in that order,
    which is not the order of selection. *)
Lemma humanPlay_not_selection_order :
  let p := Player.mk "Human" ["Sun"; "Star"; "Moon"]%string true in
  let sel := [2; 0] in
  NoDup sel
  ∧ Forall (λ i, 0 ≤ i < Z.of_nat (length (Player.hand p))) sel
  ∧ (humanPlay sel p).1 = ["Sun"; "Moon"]%string
  ∧ map (at_index ""%string (Player.hand p)) sel = ["Moon"; "Sun"]%string
  ∧ (humanPlay sel p).1 ≠ map (at_index ""%string (Player.hand p)) sel.
Proof.
  simpl. split; [|split; [|split; [|split]]].
  - apply NoDup_cons. split; [|apply NoDup_singleton].
    intros H. apply list_elem_of_singleton in H. discriminate.
  - repeat constructor; lia.
  - reflexivity.
  - reflexivity.
  - vm_compute. discriminate.
Qed.

(** ** The play and the challenge decision *)

Lemma filter_at_most_one {A} (P : A → Prop) `{∀ x, Decision (P x)}
    (l : list A) (c : nat) :
  (∀ i x, l !! i = Some x → i ≠ c → ¬ P x) → (length (filter P l) ≤ 1)%nat.
Proof.
  revert c. induction l as [|a l IH]; intros c Hothers; [simpl; lia|].
  destruct c as [|c].
  - assert (Hnil : filter P l = []).
    { clear IH. induction l as [|b l IHl]; [reflexivity|].
      rewrite filter_cons_False.
      - apply IHl. intros [|i] x Hx Hi; [lia|].
        apply (Hothers (S (S i)) x); [exact Hx | lia].
      - apply (Hothers 1%nat b); [reflexivity | lia]. }
    rewrite filter_cons. destruct (decide (P a)); simpl; rewrite Hnil; simpl; lia.
  - rewrite filter_cons_False by (apply (Hothers 0%nat a); [reflexivity | lia]).
    apply (IH c). intros i x Hx Hi. apply (Hothers (S i) x); [exact Hx | lia].
Qed.

(** With more than one player able to act, some seat other than [cur] can
    act. *)
Lemma another_can_act (g : Game) (cur : Z) :
  1 < countAliveWithCards g →
  ¬ (∀ s, 0 ≤ s < numPlayers g → s ≠ cur → canAct (playerAt g s) = false).
Proof.
  intros Hcount Hnone. unfold countAliveWithCards in Hcount.
  pose proof (filter_at_most_one (λ p, canAct p = true) (players g) (Z.to_nat cur))
    as Hle.
  destruct (decide (0 ≤ cur)) as [Hcur|Hcur].
  - assert (length (filter (λ p, canAct p = true) (players g)) ≤ 1)%nat; [|lia].
    apply Hle. intros i x Hx Hi.
    pose proof (lookup_lt_Some _ _ _ Hx) as Hlt.
    specialize (Hnone (Z.of_nat i) ltac:(unfold numPlayers; lia) ltac:(lia)).
    unfold playerAt in Hnone.
    rewrite (at_index_lookup nobody _ _ x) in Hnone
      by (lia || rewrite Nat2Z.id; exact Hx).
    congruence.
  - assert (Hnil : ∀ p, p ∈ players g → canAct p = false).
    { intros p Hp. apply list_elem_of_lookup in Hp as [i Hi].
      pose proof (lookup_lt_Some _ _ _ Hi) as Hlt.
      specialize (Hnone (Z.of_nat i) ltac:(unfold numPlayers; lia) ltac:(lia)).
      unfold playerAt in Hnone.
      rewrite (at_index_lookup nobody _ _ p) in Hnone
        by (lia || rewrite Nat2Z.id; exact Hi).
      exact Hnone. }
    pose proof (countAliveWithCards_nobody g Hnil) as H0.
    unfold countAliveWithCards in H0. lia.
Qed.

Lemma getNextAlivePlayer_none (g : Game) (start s : Z) :
  -1 ≤ start → getNextAlivePlayer g start = -1 →
  0 ≤ s < numPlayers g → canAct (playerAt g s) = false.
Proof.
  intros Hstart Hnone Hs. destruct (canAct (playerAt g s)) eqn:Hc; [|reflexivity].
  exfalso. exact (getNextAlivePlayer_complete g start s Hstart Hs Hc Hnone).
Qed.

Lemma alive_updPlayer (i : Z) (f : Player → Player) (g : Game) :
  (∀ p, Player.alive (f p) = Player.alive p) →
  map Player.alive (players (updPlayer i f g)) = map Player.alive (players g).
Proof.
  intros Hf. unfold updPlayer. destruct (i <? 0); [reflexivity|]. simpl.
  generalize (Z.to_nat i). induction (players g) as [|p ps IH]; intros [|n];
    simpl; try reflexivity.
  - rewrite Hf. reflexivity.
  - f_equal. apply IH.
Qed.

Lemma recordPlay_frame (nm : string) (played : list Card) (g : Game) :
  players (recordPlay nm played g) = players g
  ∧ currentPlayerIndex (recordPlay nm played g) = currentPlayerIndex g
  ∧ surviveCount (recordPlay nm played g) = surviveCount g.
Proof. unfold recordPlay. destruct (negb _); simpl; auto. Qed.

Lemma playedFrom_member_call (cur : Z) (f : Player → Player) (nm : string)
    (played : list Card) (g : Game) :
  (∀ p, Player.name (f p) = Player.name p) →
  (∀ p, Player.alive (f p) = Player.alive p) →
  playedFrom cur g (recordPlay nm played (updPlayer cur f g)).
Proof.
  intros Hname Halive.
  destruct (recordPlay_frame nm played (updPlayer cur f g)) as (Hp & Hc & Hs).
  destruct (updPlayer_frame cur f g) as (Hc' & Hs' & _ & Hlen).
  unfold playedFrom, numPlayers. rewrite Hp, Hc, Hs, Hc', Hs', Hlen.
  repeat split.
  - apply names_updPlayer. exact Hname.
  - apply alive_updPlayer. exact Halive.
  - intros j Hj. rewrite (playerAt_same_players _ _ j Hp).
    apply playerAt_updPlayer_ne. congruence.
Qed.

Lemma humanPlay_alive (sel : list Z) (p : Player) :
  Player.alive (humanPlay sel p).2 = Player.alive p.
Proof. rewrite humanPlay_player. reflexivity. Qed.

Lemma playCards_alive (n : Z) (p : Player) :
  Player.alive (Player.playCards n p).2 = Player.alive p.
Proof. rewrite playCards_player. reflexivity. Qed.

Lemma playedFrom_humanPlays (inp : Inputs) (cur : Z) (g : Game) :
  playedFrom cur g (humanPlays inp cur g).1.
Proof.
  unfold humanPlays. simpl. apply playedFrom_member_call; intros p;
    [apply humanPlay_name | apply humanPlay_alive].
Qed.

Lemma playedFrom_botPlays (inp : Inputs) (cur : Z) (g : Game) :
  playedFrom cur g (botPlays inp cur g).1.
Proof.
  unfold botPlays. simpl. apply playedFrom_member_call; intros p;
    [apply playCards_name | apply playCards_alive].
Qed.

(** After the play the lookup from [cur] still finds a player, namely one
    at another seat, when another seat could act before the play. *)
Lemma next_after_play (cur : Z) (g g2 : Game) :
  0 ≤ cur → playedFrom cur g g2 →
  ¬ (∀ s, 0 ≤ s < numPlayers g → s ≠ cur → canAct (playerAt g s) = false) →
  getNextAlivePlayer g2 cur ≠ -1.
Proof.
  intros Hcur (_ & Hn & _ & _ & _ & Hothers) Hsome Hnone.
  apply Hsome. intros s Hs Hne.
  pose proof (getNextAlivePlayer_none g2 cur s ltac:(lia) Hnone ltac:(lia)) as H.
  rewrite (Hothers s Hne) in H. exact H.
Qed.

Lemma other_seat_can_act (g : Game) (cur : Z) :
  (∃ s, 0 ≤ s < numPlayers g ∧ s ≠ cur ∧ canAct (playerAt g s) = true) →
  ¬ (∀ s, 0 ≤ s < numPlayers g → s ≠ cur → canAct (playerAt g s) = false).
Proof. intros (s & Hs & Hne & Hc) Hnone. rewrite (Hnone s Hs Hne) in Hc. discriminate. Qed.

Lemma countAlivePlayers_alive (g g' : Game) :
  map Player.alive (players g') = map Player.alive (players g) →
  countAlivePlayers g' = countAlivePlayers g.
Proof.
  unfold countAlivePlayers. intros H. f_equal.
  revert H. generalize (players g). induction (players g') as [|p ps IH];
    intros [|q qs] H; simpl in H; try discriminate; [reflexivity|].
  injection H as Hpq Hrest. rewrite !filter_cons.
  destruct (decide (Player.alive p = true)), (decide (Player.alive q = true));
    simpl; try congruence; rewrite (IH qs Hrest); reflexivity.
Qed.

(** The output of a challenge resolution names nobody as deciding and
    announces no forced challenge. *)
Lemma handleQuestioning_log (qi pi : Z) (played : list Card) (focus : Card)
    (rnd : Z) (g : Game) :
  let ev := (handleQuestioning qi pi played focus rnd g).2 in
  deciders ev = [] ∧ forcedFired ev = false.
Proof.
  unfold handleQuestioning.
  destruct (negb (playIsCorrect played focus)).
  - destruct (bombRisk_cases pi rnd g) as [[_ E]|[(_ & _ & E)|(_ & _ & E)]];
      rewrite E; split; reflexivity.
  - destruct (bombRisk_cases qi rnd g) as [[_ E]|[(_ & _ & E)|(_ & _ & E)]];
      rewrite E; split; reflexivity.
Qed.

Lemma question_cases (qi pi : Z) (focus : Card) (rnd : Z) (g : Game) :
  ∃ g' ev,
    question qi pi focus rnd g = (mkRound g' true true, ev)
    ∧ g' = (handleQuestioning qi pi
              (recordedPlay (Player.name (playerAt g pi)) g) focus rnd g).1.1
    ∧ ev = (handleQuestioning qi pi
              (recordedPlay (Player.name (playerAt g pi)) g) focus rnd g).2
    ∧ deciders ev = [] ∧ forcedFired ev = false.
Proof.
  eexists _, _. split; [apply question_unfold|]. split; [reflexivity|].
  split; [reflexivity|]. apply handleQuestioning_log.
Qed.

Lemma forcedFired_app (ev ev' : list Event) :
  forcedFired (ev ++ ev') = forcedFired ev || forcedFired ev'.
Proof. apply existsb_app. Qed.

Lemma deciders_app (ev ev' : list Event) :
  deciders (ev ++ ev') = deciders ev ++ deciders ev'.
Proof. unfold deciders. apply omap_app. Qed.

Section Challenged.

Variable focus : Card.
Variable inp : Inputs.

Lemma botChallenged_cases (cur : Z) (r : Round) (g2 : Game) :
  let next := getNextAlivePlayer g2 (currentPlayerIndex g2) in
  (next = -1
   ∧ botChallenged focus inp cur r g2
     = (Break, mkRound g2 true (anyQuestionAsked r), []))
  ∨ (next ≠ -1
     ∧ decided r g2 [Player.name (playerAt g2 next)]
         (botChallenged focus inp cur r g2)).
Proof.
  unfold botChallenged. simpl.
  set (next := getNextAlivePlayer g2 (currentPlayerIndex g2)).
  destruct (next =? -1) eqn:E; [left; apply Z.eqb_eq in E; auto|].
  right. apply Z.eqb_neq in E. split; [exact E|].
  destruct (String.eqb_spec (Player.name (playerAt g2 next)) "Human") as [Hh|Hh].
  - destruct (saysYes (answer inp)).
    + destruct (question_cases next cur focus (bombRand inp) g2)
        as (g' & ev & -> & _ & _ & Hd & Hf).
      unfold decided. simpl. rewrite Hd, Hf, Hh. repeat split; auto.
    + unfold decided. simpl. rewrite Hh. repeat split; auto.
  - destruct (Z.rem (askRand inp) 100 <? 30).
    + destruct (question_cases next cur focus (bombRand inp) g2)
        as (g' & ev & -> & _ & _ & Hd & Hf).
      unfold decided. simpl. rewrite Hd, Hf. repeat split; auto.
    + unfold decided. simpl. repeat split; auto.
Qed.

Lemma humanChallenged_cases (cur : Z) (r : Round) (g2 : Game) :
  let next := getNextAlivePlayer g2 (currentPlayerIndex g2) in
  let nextName := Player.name (playerAt g2 next) in
  (next = -1
   ∧ humanChallenged focus inp cur r g2
     = (Break, mkRound g2 true (anyQuestionAsked r), []))
  ∨ (next ≠ -1
     ∧ decided r g2 (if isBot nextName then [nextName] else [])
         (humanChallenged focus inp cur r g2)).
Proof.
  unfold humanChallenged. simpl.
  set (next := getNextAlivePlayer g2 (currentPlayerIndex g2)).
  destruct (next =? -1) eqn:E; [left; apply Z.eqb_eq in E; auto|].
  right. apply Z.eqb_neq in E. split; [exact E|].
  destruct (isBot (Player.name (playerAt g2 next))).
  - destruct (Z.rem (askRand inp) 100 <? 30).
    + destruct (question_cases next cur focus (bombRand inp) g2)
        as (g' & ev & -> & _ & _ & Hd & Hf).
      unfold decided. simpl. rewrite Hd, Hf. repeat split; auto.
    + unfold decided. simpl. repeat split; auto.
  - unfold decided. simpl. repeat split; auto.
Qed.

(** A turn played while another seat can act: the state [g2] after the
    play, the seat [next] that the lookup finds from the current seat,
    and the decision made on it. *)
Lemma playTurn_outcome (r : Round) :
  let g := game r in
  let cur := currentPlayerIndex g in
  seated g →
  ¬ (∀ s, 0 ≤ s < numPlayers g → s ≠ cur → canAct (playerAt g s) = false) →
  ∃ g2 who,
    playedFrom cur g g2
    ∧ getNextAlivePlayer g2 cur ≠ -1
    ∧ decided r g2 who (playTurn focus inp r)
    ∧ who = (let nextName :=
               Player.name (playerAt g2 (getNextAlivePlayer g2 cur)) in
             if String.eqb (Player.name (playerAt g cur)) "Human"
             then (if isBot nextName then [nextName] else [])
             else [nextName]).
Proof.
  intros g cur Hseat Hother. unfold playTurn. fold g cur.
  destruct (String.eqb (Player.name (playerAt g cur)) "Human").
  - unfold humanTurn, turnOf. fold g.
    pose proof (playedFrom_humanPlays inp cur g) as Hpf.
    assert (Hev : deciders (humanPlays inp cur g).2 = []
                  ∧ forcedFired (humanPlays inp cur g).2 = false)
      by (split; reflexivity).
    destruct (humanPlays inp cur g) as [g2 ev]. simpl in Hpf, Hev.
    pose proof (next_after_play cur g g2 (proj1 Hseat) Hpf Hother) as Hnext.
    pose proof Hpf as (Hc & _).
    exists g2. eexists. split; [exact Hpf|]. split; [exact Hnext|].
    split; [|reflexivity].
    destruct (humanChallenged_cases cur r g2) as [[Hn _]|[_ Hd]];
      [fold cur in Hc; rewrite Hc in Hn; contradiction|].
    fold cur in Hc. rewrite Hc in Hd.
    destruct (humanChallenged focus inp cur r g2) as [[fl r'] ev'].
    destruct Hd as (Hfl & Hf & Hd & Hr). destruct Hev as [Hd0 Hf0].
    unfold decided. simpl in *.
    rewrite forcedFired_app, deciders_app, Hf, Hf0, Hd, Hd0.
    repeat split; auto.
  - unfold botTurn, turnOf. fold g.
    pose proof (playedFrom_botPlays inp cur g) as Hpf.
    assert (Hev : deciders (botPlays inp cur g).2 = []
                  ∧ forcedFired (botPlays inp cur g).2 = false)
      by (split; reflexivity).
    destruct (botPlays inp cur g) as [g2 ev]. simpl in Hpf, Hev.
    pose proof (next_after_play cur g g2 (proj1 Hseat) Hpf Hother) as Hnext.
    pose proof Hpf as (Hc & _).
    exists g2. eexists. split; [exact Hpf|]. split; [exact Hnext|].
    split; [|reflexivity].
    destruct (botChallenged_cases cur r g2) as [[Hn _]|[_ Hd]];
      [fold cur in Hc; rewrite Hc in Hn; contradiction|].
    fold cur in Hc. rewrite Hc in Hd.
    destruct (botChallenged focus inp cur r g2) as [[fl r'] ev'].
    destruct Hd as (Hfl & Hf & Hd & Hr). destruct Hev as [Hd0 Hf0].
    unfold decided. simpl in *.
    rewrite forcedFired_app, deciders_app, Hf, Hf0, Hd, Hd0.
    repeat split; auto.
Qed.

End Challenged.

(** ** The forced challenge *)

Section Forced.

Variable focus : Card.
Variable inp : Inputs.

(** The forced questioning block on its own: it fires exactly when the
    round is not over, no question was asked, two players are alive, the
    lookup finds a questioner and the current player has no cards. *)
Lemma forcedQuestioning_fires (r : Round) :
  let g := game r in
  let cur := currentPlayerIndex g in
  forcedFired (forcedQuestioning focus inp r).2 = true
  ↔ roundOver r = false
    ∧ anyQuestionAsked r = false
    ∧ countAlivePlayers g = 2
    ∧ getNextAlivePlayer g cur ≠ -1
    ∧ Player.hand (playerAt g cur) = [].
Proof.
  unfold forcedQuestioning. simpl.
  destruct (roundOver r); simpl; [split; [discriminate | intros [? _]; discriminate]|].
  destruct (anyQuestionAsked r); simpl;
    [split; [discriminate | intros (_ & ? & _); discriminate]|].
  destruct (countAlivePlayers (game r) =? 2) eqn:E2; simpl.
  2:{ apply Z.eqb_neq in E2.
      split; [discriminate | intros (_ & _ & ? & _); contradiction]. }
  apply Z.eqb_eq in E2.
  destruct (getNextAlivePlayer (game r) (currentPlayerIndex (game r)) =? -1) eqn:En.
  { apply Z.eqb_eq in En. simpl.
    split; [discriminate | intros (_ & _ & _ & ? & _); contradiction]. }
  apply Z.eqb_neq in En.
  destruct (bool_decide_reflect
              (Player.hand (playerAt (game r) (currentPlayerIndex (game r))) = []))
    as [Hh|Hh].
  - destruct (question _ _ _ _ _) as [r' ev']. simpl. tauto.
  - simpl. split; [discriminate | intros (_ & _ & _ & _ & ?); contradiction].
Qed.

Lemma andThen_advance_forced (a : Flow * Round * list Event) :
  forcedFired (andThen a advance).2 = forcedFired a.2.
Proof.
  destruct a as [[[|] r'] ev]; simpl; [reflexivity|].
  assert (Hlog : (advance r').2 = []) by (unfold advance; repeat case_match; reflexivity).
  destruct (advance r') as [[fl r2] ev2]. simpl in *. subst ev2.
  rewrite app_nil_r. reflexivity.
Qed.

(** C3. In an iteration of the round loop that is entered with the
    round not over: when a player plays (more than one player is alive
    with cards and the current player is one of them), the forced
    challenge fires exactly when, after the play and the regular
    challenge decision, no challenge has occurred in the round, exactly
    two players are alive and the player who just played has an empty
    hand; and when nobody plays (the loop is left or the current player
    is skipped) it does not fire. *)
Theorem forced_challenge_fires_iff (r : Round) :
  seated (game r) →
  roundOver r = false →
  let g := game r in
  let cur := currentPlayerIndex g in
  let turnPlayed := 1 < countAliveWithCards g ∧ canAct (playerAt g cur) = true in
  let r1 := (playTurn focus inp r).1.2 in
  (turnPlayed →
     (forcedFired (loopBody focus inp r).2 = true
      ↔ anyQuestionAsked r1 = false
        ∧ countAlivePlayers (game r1) = 2
        ∧ Player.hand (playerAt (game r1) cur) = []))
  ∧ (¬ turnPlayed → forcedFired (loopBody focus inp r).2 = false).
Proof.
  intros Hseat Hover g cur turnPlayed r1. split.
  - intros [Hcount Hact].
    destruct (playTurn_outcome focus inp r Hseat (another_can_act g cur Hcount))
      as (g2 & who & Hpf & Hnext & Hdec & _).
    fold g cur in Hpf, Hnext.
    unfold loopBody. fold g cur.
    destruct (countAliveWithCards g <=? 1) eqn:Hguard;
      [apply Z.leb_le in Hguard; lia|].
    pose proof Hact as Hact'. apply canAct_spec in Hact' as [Halive Hhand].
    rewrite Halive. simpl. rewrite bool_decide_eq_false_2 by exact Hhand.
    subst r1. destruct (playTurn focus inp r) as [[fl r1] ev1].
    destruct Hdec as (Hfl & Hf1 & _ & Hr1). simpl in Hfl, Hf1, Hr1. subst fl.
    simpl.
    destruct (andThen (forcedQuestioning focus inp r1) advance)
      as [[fl2 r2] ev2] eqn:E2.
    simpl. rewrite forcedFired_app, Hf1. simpl.
    change ev2 with (fl2, r2, ev2).2. rewrite <- E2, andThen_advance_forced.
    rewrite forcedQuestioning_fires.
    destruct Hr1 as [-> | [Hover1 Hasked1]].
    + simpl. destruct Hpf as (Hc & _). rewrite Hc. fold cur. tauto.
    + rewrite Hover1, Hasked1. split; [intros [? _] | intros [? _]]; discriminate.
  - intros Hno. unfold loopBody. fold g cur.
    destruct (countAliveWithCards g <=? 1) eqn:Hguard; [reflexivity|].
    apply Z.leb_gt in Hguard.
    destruct (canAct (playerAt g cur)) eqn:Hact;
      [exfalso; apply Hno; split; [lia | reflexivity]|].
    assert (Hskip : negb (Player.alive (playerAt g cur))
                    || bool_decide (Player.hand (playerAt g cur) = []) = true).
    { unfold canAct in Hact. destruct (Player.alive (playerAt g cur)); simpl in *;
        [|reflexivity]. apply negb_false_iff in Hact. exact Hact. }
    rewrite Hskip.
    destruct (skipStep_cases r) as [[_ E]|[_ E]]; rewrite E; reflexivity.
Qed.

End Forced.

(** ** Who decides about a challenge *)

Lemma wrap_other_seat (cur j n : Z) :
  0 ≤ cur < n → 1 ≤ j < n →
  0 ≤ (cur + j) mod n < n ∧ (cur + j) mod n ≠ cur.
Proof.
  intros Hc Hj. split; [apply Z.mod_pos_bound; lia|].
  destruct (decide (cur + j < n)) as [Hlt|Hge].
  - rewrite Z.mod_small by lia. lia.
  - replace (cur + j) with (cur + j - n + 1 * n) by ring.
    rewrite Z.mod_add, Z.mod_small by lia. lia.
Qed.

Lemma wrap_reaches_seat (cur s n : Z) :
  0 ≤ cur < n → 0 ≤ s < n → s ≠ cur →
  ∃ j, 1 ≤ j < n ∧ (cur + j) mod n = s.
Proof.
  intros Hc Hs Hne. destruct (decide (cur < s)) as [Hlt|Hge].
  - exists (s - cur). split; [lia|].
    replace (cur + (s - cur)) with s by ring. apply Z.mod_small. lia.
  - exists (s - cur + n). split; [lia|].
    replace (cur + (s - cur + n)) with (s + 1 * n) by ring.
    rewrite Z.mod_add, Z.mod_small by lia. reflexivity.
Qed.

Lemma NoDup_seatNames : NoDup seatNames.
Proof. compute_done. Qed.

Lemma seat_is_bot (g : Game) (i : Z) :
  map Player.name (players g) = seatNames →
  0 ≤ i < numPlayers g →
  Player.name (playerAt g i) ≠ "Human"%string →
  isBot (Player.name (playerAt g i)) = true.
Proof.
  intros Hn Hi. rewrite name_playerAt, Hn.
  assert (Hlen : numPlayers g = 4).
  { unfold numPlayers. rewrite <- (length_map Player.name), Hn. reflexivity. }
  assert (Hcases : i = 0 ∨ i = 1 ∨ i = 2 ∨ i = 3) by lia.
  destruct Hcases as [Hi0|[Hi0|[Hi0|Hi0]]]; subst i; simpl; intros Hh;
    [contradiction | reflexivity..].
Qed.

(** C7 as amended. In a game with the four seats of the constructor:
    when a player plays and some other seat holds a player who is alive
    with a non-empty hand, exactly one party is consulted about a
    challenge, and it is the first player after the one who played, in
    wrapping seat order, who is alive with a non-empty hand; the seats
    between the two hold players who are dead or have no cards. *)
Theorem challenge_decider_is_next_with_cards
    (focus : Card) (inp : Inputs) (r : Round) :
  let g := game r in
  let cur := currentPlayerIndex g in
  let n := numPlayers g in
  map Player.name (players g) = seatNames →
  seated g →
  (∃ s, 0 ≤ s < n ∧ s ≠ cur ∧ canAct (playerAt g s) = true) →
  ∃ k, 1 ≤ k < n
       ∧ deciders (playTurn focus inp r).2
         = [Player.name (playerAt g ((cur + k) mod n))]
       ∧ Player.alive (playerAt g ((cur + k) mod n)) = true
       ∧ Player.hand (playerAt g ((cur + k) mod n)) ≠ []
       ∧ ∀ j, 1 ≤ j < k →
              Player.alive (playerAt g ((cur + j) mod n)) = false
              ∨ Player.hand (playerAt g ((cur + j) mod n)) = [].
Proof.
  intros g cur n Hnames Hseat Hother.
  destruct (playTurn_outcome focus inp r Hseat (other_seat_can_act g cur Hother))
    as (g2 & who & Hpf & Hnext & Hdec & Hwho).
  fold g cur in Hpf, Hnext, Hwho.
  destruct Hpf as (Hc2 & Hn2 & _ & Hnames2 & _ & Hothers).
  destruct Hdec as (_ & _ & Hdec & _).
  unfold seated in Hseat. fold cur n in Hseat, Hn2.
  destruct (getNextAlivePlayer_spec g2 cur) as [[Hr _]|(k & Hk & Hr & Hck & Hbefore)];
    [contradiction|].
  rewrite Hn2 in Hk, Hr, Hbefore.
  rewrite Z.rem_mod_nonneg in Hr by lia.
  assert (Hbefore' : ∀ j, 1 ≤ j < k → canAct (playerAt g ((cur + j) mod n)) = false).
  { intros j Hj. specialize (Hbefore j Hj).
    rewrite Z.rem_mod_nonneg in Hbefore by lia.
    destruct (wrap_other_seat cur j n Hseat ltac:(lia)) as [_ Hne].
    rewrite (Hothers _ Hne) in Hbefore. exact Hbefore. }
  assert (Hkn : k < n).
  { destruct (decide (k < n)) as [?|Hge]; [assumption|]. exfalso.
    destruct Hother as (s & Hs & Hne & Hc).
    destruct (wrap_reaches_seat cur s n Hseat Hs Hne) as (j & Hj & Hjs).
    rewrite <- Hjs, Hbefore' in Hc by lia. discriminate. }
  destruct (wrap_other_seat cur k n Hseat ltac:(lia)) as [Hrange Hne].
  rewrite Hr in Hck. rewrite (Hothers _ Hne) in Hck.
  exists k. split; [lia|]. split; [|split; [|split]].
  - cbv zeta in Hwho. rewrite Hdec, Hwho, Hr.
    assert (Hsame : Player.name (playerAt g2 ((cur + k) mod n))
                    = Player.name (playerAt g ((cur + k) mod n)))
      by (rewrite (Hothers _ Hne); reflexivity).
    rewrite Hsame.
    destruct (String.eqb_spec (Player.name (playerAt g cur)) "Human") as [Hh|Hh];
      [|reflexivity].
    rewrite seat_is_bot; [reflexivity | exact Hnames | exact Hrange |].
    rewrite <- Hh. apply names_differ; try assumption.
    rewrite Hnames. exact NoDup_seatNames.
  - apply canAct_spec in Hck. apply Hck.
  - apply canAct_spec in Hck. apply Hck.
  - intros j Hj. specialize (Hbefore' j Hj). unfold canAct in Hbefore'.
    destruct (Player.alive (playerAt g ((cur + j) mod n))); [right|left; reflexivity].
    simpl in Hbefore'. apply negb_false_iff, bool_decide_eq_true in Hbefore'.
    exact Hbefore'.
Qed.

(** ** The two games are games the program can play *)

Lemma reachable_step (focus : Card) (inp : Inputs) (g : Game) :
  reachable g → reachable (Scenario.step focus inp g).
Proof. intros Hr. exact (reach_turn g focus inp false Hr). Qed.

Lemma reachable_redeal (g : Game) :
  reachable g → reachable (Scenario.redeal g).
Proof. intros Hr. apply reach_deal; [exact Hr | reflexivity]. Qed.

Lemma reachable_lastCards : reachable Scenario.lastCards.
Proof.
  unfold Scenario.lastCards. cbv zeta.
  repeat first [apply reachable_step | apply reachable_redeal].
  apply reach_new. lia.
Qed.

Lemma reachable_bot1Empty : reachable Scenario.bot1Empty.
Proof.
  unfold Scenario.bot1Empty. cbv zeta.
  repeat first [apply reachable_step | apply reachable_redeal].
  apply reach_new. lia.
Qed.

(** ** Who is at fault after a forced challenge *)

(** C6 as amended. Whenever the forced challenge fires, the player with
    the turn has an empty hand, the questioner is another player, and the
    resolution runs on the last play recorded for the player with the
    turn: the party at fault is that player when the correctness predicate
    is false on the recorded play (as it is on an empty record), and the
    forced questioner when the predicate is true on it. *)
Theorem forced_challenge_blames_by_predicate
    (focus : Card) (inp : Inputs) (r : Round) :
  forcedFired (forcedQuestioning focus inp r).2 = true →
  let g := game r in
  let cur := currentPlayerIndex g in
  let next := getNextAlivePlayer g cur in
  let lastPlay := recordedPlay (Player.name (playerAt g cur)) g in
  let res := handleQuestioning next cur lastPlay focus (bombRand inp) g in
  forcedQuestioning focus inp r
  = (Next, mkRound res.1.1 true true,
     Forced (Player.name (playerAt g next)) :: res.2)
  ∧ Player.hand (playerAt g cur) = []
  ∧ next ≠ cur
  ∧ res.1.1 = giveTurnTo (Player.name (playerAt g next))
                (bombRisk (atFault next cur lastPlay focus) (bombRand inp) g).1
  ∧ (playIsCorrect lastPlay focus = false → atFault next cur lastPlay focus = cur)
  ∧ (playIsCorrect lastPlay focus = true → atFault next cur lastPlay focus = next)
  ∧ (lastPlay = [] → atFault next cur lastPlay focus = cur).
Proof.
  intros Hfired g cur next lastPlay res.
  apply forcedQuestioning_fires in Hfired as (Hover & Hasked & Halive & Hnext & Hhand).
  fold g cur next in Halive, Hnext, Hhand.
  split; [|split; [exact Hhand|split; [|split; [|split; [|split]]]]].
  - unfold forcedQuestioning. fold g cur next.
    rewrite Hover, Hasked. simpl.
    apply Z.eqb_eq in Halive. rewrite Halive.
    apply Z.eqb_neq in Hnext. rewrite Hnext.
    rewrite bool_decide_eq_true_2 by exact Hhand.
    rewrite question_unfold. reflexivity.
  - intros Heq. destruct (getNextAlivePlayer_found g cur Hnext) as [_ Hc].
    fold next in Hc. rewrite Heq in Hc. apply canAct_spec in Hc as [_ Hc].
    contradiction.
  - pose proof (handleQuestioning_unfold next cur lastPlay focus (bombRand inp) g)
      as H. simpl in H. fold res in H. rewrite H. reflexivity.
  - intros Hp. unfold atFault. rewrite Hp. reflexivity.
  - intros Hp. unfold atFault. rewrite Hp. reflexivity.
  - intros Hp. unfold atFault. rewrite Hp. reflexivity.
Qed.

(** In the game that came down to Bot1 against Bot2, Bot1 plays its last
    two cards, both Magic, on focus Moon, and Bot2 does not question.  The
    forced challenge fires, the play is correct, and the party at fault is
    Bot2, the forced questioner. *)
Lemma forced_challenge_on_a_correct_play :
  let inp := Scenario.bot 2 false false in
  let r := mkRound Scenario.lastCards false false in
  let r1 := (playTurn "Moon" inp r).1.2 in
  let lastPlay := recordedPlay "Bot1" (game r1) in
  reachable (game r)
  ∧ forcedFired (forcedQuestioning "Moon" inp r1).2 = true
  ∧ Player.name (playerAt (game r1) (currentPlayerIndex (game r1))) = "Bot1"%string
  ∧ lastPlay = ["Magic"; "Magic"]%string
  ∧ playIsCorrect lastPlay "Moon" = true
  ∧ atFault 2 1 lastPlay "Moon" = 2
  ∧ (loopBody "Moon" inp r).2
    = [BotPlayed "Bot1" 2; DecidesNot "Bot2"; Forced "Bot2";
       Reveal "Bot1" ["Magic"; "Magic"]; WrongToQuestion "Bot2";
       BombSurvived "Bot2"]%string.
Proof.
  split; [exact reachable_lastCards|].
  repeat split; vm_compute; reflexivity.
Qed.

(** In the quiet first round, the human plays with Bot1 in the next seat
    alive and out of cards: the first alive player after the human is
    Bot1, and the party that decides is Bot2. *)
Lemma decider_skips_alive_player_without_cards :
  let inp := Scenario.human [0] false false in
  let r := mkRound Scenario.bot1Empty false false in
  reachable (game r)
  ∧ currentPlayerIndex (game r) = 0
  ∧ Player.name (playerAt (game r) 1) = "Bot1"%string
  ∧ Player.alive (playerAt (game r) 1) = true
  ∧ Player.alive (playerAt (game (playTurn "Sun" inp r).1.2) 1) = true
  ∧ deciders (playTurn "Sun" inp r).2 = ["Bot2"]%string
  ∧ deciders (loopBody "Sun" inp r).2 = ["Bot2"]%string.
Proof.
  split; [exact reachable_bot1Empty|].
  repeat split; vm_compute; reflexivity.
Qed.

(** ** The theorems at concrete games *)

(** The frame of a resolution, at the forced challenge of the duel: Bot2
    (seat 2) questions Bot1 (seat 1) over two Magic cards. *)
Lemma handleQuestioning_frame_witness :
  let g := Scenario.lastCards in
  let g' := (handleQuestioning 2 1 ["Magic"; "Magic"]%string "Moon" 1 g).1.1 in
  NoDup (map Player.name (players g))
  ∧ 0 ≤ 2 < numPlayers g
  ∧ 0 ≤ 1 < numPlayers g
  ∧ playerAt g' 1 = playerAt g 1
  ∧ lastPlayedByIndex g' = lastPlayedByIndex g.
Proof.
  assert (Hnd : NoDup (map Player.name (players Scenario.lastCards)))
    by (vm_compute; exact NoDup_seatNames).
  assert (Hn : numPlayers Scenario.lastCards = 4) by (vm_compute; reflexivity).
  assert (H2 : 0 ≤ 2 < numPlayers Scenario.lastCards) by (rewrite Hn; lia).
  assert (H1 : 0 ≤ 1 < numPlayers Scenario.lastCards) by (rewrite Hn; lia).
  pose proof (handleQuestioning_frame 2 1 ["Magic"; "Magic"]%string "Moon" 1
                Scenario.lastCards Hnd H2 H1) as (_ & Hothers & _ & Hlast & _).
  split; [exact Hnd|]. split; [exact H2|]. split; [exact H1|].
  split; [|exact Hlast].
  apply (Hothers 1); [exact H1 | vm_compute; discriminate].
Defined.

(** The forced challenge in the duel, where it fires. *)
Lemma forced_challenge_fires_iff_witness :
  let inp := Scenario.bot 2 false false in
  let r := mkRound Scenario.lastCards false false in
  seated (game r)
  ∧ roundOver r = false
  ∧ 1 < countAliveWithCards (game r)
  ∧ canAct (playerAt (game r) (currentPlayerIndex (game r))) = true
  ∧ forcedFired (loopBody "Moon" inp r).2 = true.
Proof.
  assert (Hs : seated Scenario.lastCards) by (vm_compute; split; [discriminate | reflexivity]).
  assert (Hc : 1 < countAliveWithCards Scenario.lastCards) by (vm_compute; reflexivity).
  assert (Ha : canAct (playerAt Scenario.lastCards
                         (currentPlayerIndex Scenario.lastCards)) = true)
    by (vm_compute; reflexivity).
  split; [exact Hs|]. split; [reflexivity|]. split; [exact Hc|]. split; [exact Ha|].
  apply (proj1 (forced_challenge_fires_iff "Moon" (Scenario.bot 2 false false)
                  (mkRound Scenario.lastCards false false) Hs eq_refl)
               (conj Hc Ha)).
  vm_compute. repeat split.
Defined.

(** The party at fault in the forced challenge of the duel. *)
Lemma forced_challenge_blames_by_predicate_witness :
  let inp := Scenario.bot 2 false false in
  let r1 := (playTurn "Moon" inp (mkRound Scenario.lastCards false false)).1.2 in
  let g := game r1 in
  let lastPlay := recordedPlay (Player.name (playerAt g (currentPlayerIndex g))) g in
  forcedFired (forcedQuestioning "Moon" inp r1).2 = true
  ∧ (playIsCorrect lastPlay "Moon" = true →
     atFault (getNextAlivePlayer g (currentPlayerIndex g)) (currentPlayerIndex g)
       lastPlay "Moon"
     = getNextAlivePlayer g (currentPlayerIndex g)).
Proof.
  assert (Hf : forcedFired
                 (forcedQuestioning "Moon" (Scenario.bot 2 false false)
                    (playTurn "Moon" (Scenario.bot 2 false false)
                       (mkRound Scenario.lastCards false false)).1.2).2 = true)
    by (vm_compute; reflexivity).
  split; [exact Hf|].
  pose proof (forced_challenge_blames_by_predicate "Moon"
                (Scenario.bot 2 false false) _ Hf) as (_ & _ & _ & _ & _ & H & _).
  exact H.
Defined.

(** The decider in the quiet round: the human plays, Bot1 is out of cards,
    Bot2 is two seats on. *)
Lemma challenge_decider_is_next_with_cards_witness :
  let inp := Scenario.human [0] false false in
  let r := mkRound Scenario.bot1Empty false false in
  let g := game r in
  map Player.name (players g) = seatNames
  ∧ seated g
  ∧ (∃ s, 0 ≤ s < numPlayers g ∧ s ≠ currentPlayerIndex g
          ∧ canAct (playerAt g s) = true)
  ∧ ∃ k, 1 ≤ k < numPlayers g
         ∧ deciders (playTurn "Sun" inp r).2
           = [Player.name (playerAt g ((currentPlayerIndex g + k) mod numPlayers g))].
Proof.
  assert (Hn : map Player.name (players Scenario.bot1Empty) = seatNames)
    by (vm_compute; reflexivity).
  assert (Hs : seated Scenario.bot1Empty)
    by (vm_compute; split; [discriminate | reflexivity]).
  assert (Ho : ∃ s, 0 ≤ s < numPlayers Scenario.bot1Empty
                    ∧ s ≠ currentPlayerIndex Scenario.bot1Empty
                    ∧ canAct (playerAt Scenario.bot1Empty s) = true).
  { exists 2. vm_compute. repeat split; discriminate. }
  split; [exact Hn|]. split; [exact Hs|]. split; [exact Ho|].
  destruct (challenge_decider_is_next_with_cards "Sun"
              (Scenario.human [0] false false)
              (mkRound Scenario.bot1Empty false false) Hn Hs Ho)
    as (k & Hk & Hd & _).
  exists k. split; [exact Hk | exact Hd].
Defined.

(** The human picks positions 2 and 0 of a three-card hand. *)
Lemma humanPlay_removes_descending_returns_ascending_witness :
  let p := Player.mk "Human" ["Sun"; "Star"; "Moon"]%string true in
  let sel := [2; 0] in
  NoDup sel
  ∧ Forall (λ i, 0 ≤ i < Z.of_nat (length (Player.hand p))) sel
  ∧ (humanPlay sel p).1
    = map (at_index ""%string (Player.hand p)) (rev (sortDescending sel)).
Proof.
  assert (Hnd : NoDup [2; 0]) by compute_done.
  assert (Hin : Forall (λ i, 0 ≤ i < Z.of_nat
                          (length (Player.hand
                             (Player.mk "Human" ["Sun"; "Star"; "Moon"]%string true))))
                  [2; 0])
    by (repeat constructor; simpl; lia).
  split; [exact Hnd|]. split; [exact Hin|].
  pose proof (humanPlay_removes_descending_returns_ascending [2; 0]
                (Player.mk "Human" ["Sun"; "Star"; "Moon"]%string true) Hnd Hin)
    as (_ & _ & _ & _ & H & _).
  exact H.
Defined.

(** * Further properties of the program *)

(** ** Dealing and playing from the back *)

Lemma popBack_rev (k : nat) (l played : list Card) :
  Player.popBack k (rev l) played = (played ++ take k l, rev (drop k l)).
Proof.
  revert l played. induction k as [|k IH]; intros l played; simpl.
  - rewrite app_nil_r. reflexivity.
  - destruct l as [|c l]; simpl.
    + rewrite app_nil_r. reflexivity.
    + rewrite last_snoc, removelast_last, IH, <- app_assoc. reflexivity.
Qed.

Lemma popBack_spec (k : nat) (h : list Card) :
  let res := Player.popBack k h [] in
  res.2 ++ rev res.1 = h
  ∧ length res.1 = Nat.min k (length h)
  ∧ res.2 = take (length h - k)%nat h.
Proof.
  simpl.
  assert (Hres : Player.popBack k h [] = (take k (rev h), rev (drop k (rev h))))
    by (rewrite <- (rev_involutive h) at 1; apply popBack_rev).
  rewrite Hres. simpl.
  assert (Happ : rev (drop k (rev h)) ++ rev (take k (rev h)) = h)
    by (rewrite <- rev_app_distr, take_drop; apply rev_involutive).
  assert (Hlen : length (take k (rev h)) = Nat.min k (length h))
    by (rewrite length_take, length_rev; reflexivity).
  split; [exact Happ|]. split; [exact Hlen|].
  transitivity (take (length h - k)
                  (rev (drop k (rev h)) ++ rev (take k (rev h))));
    [|rewrite Happ; reflexivity].
  symmetry. apply take_app_length'.
  rewrite length_rev, length_drop, length_rev. reflexivity.
Qed.

(** X1. [Deck::deal(n)] never fails: it hands out the last
    [min n (size)] cards of the deck, last card first, and leaves the cards
    before them; with fewer than [n] cards it hands out all of them, with
    [n] not positive none. *)
Theorem deal_takes_from_the_back (n : Z) (cards : list Card) :
  let hand := (deal n cards).1 in
  let rest := (deal n cards).2 in
  rest ++ rev hand = cards
  ∧ length hand = Nat.min (Z.to_nat n) (length cards)
  ∧ (Z.of_nat (length cards) ≤ n → rest = [] ∧ hand = rev cards)
  ∧ (n ≤ 0 → hand = [] ∧ rest = cards).
Proof.
  destruct (popBack_spec (Z.to_nat n) cards) as (Happ & Hlen & Hrest).
  unfold deal. simpl. split; [exact Happ|]. split; [exact Hlen|]. split.
  - intros Hn.
    assert (Hnil : (Player.popBack (Z.to_nat n) cards []).2 = []).
    { rewrite Hrest. replace (length cards - Z.to_nat n)%nat with 0%nat by lia.
      reflexivity. }
    split; [exact Hnil|]. rewrite Hnil in Happ. simpl in Happ.
    apply (f_equal (@rev Card)) in Happ. rewrite rev_involutive in Happ.
    exact Happ.
  - intros Hn. replace (Z.to_nat n) with 0%nat by lia. auto.
Qed.

(** X2. [playCards(n)] moves the last [min n (size)] cards of the hand
    into the play, last card first: putting the play back, reversed, after
    what is left restores the hand.  Name and alive flag are untouched. *)
Theorem playCards_takes_from_the_back (n : Z) (p : Player) :
  let played := (Player.playCards n p).1 in
  let p' := (Player.playCards n p).2 in
  Player.hand p' ++ rev played = Player.hand p
  ∧ length played = Nat.min (Z.to_nat n) (length (Player.hand p))
  ∧ Player.name p' = Player.name p
  ∧ Player.alive p' = Player.alive p.
Proof.
  destruct (popBack_spec (Z.to_nat n) (Player.hand p)) as (Happ & Hlen & _).
  unfold Player.playCards.
  destruct (Player.popBack (Z.to_nat n) (Player.hand p) []) as [played h].
  simpl in *. auto.
Qed.

Lemma playCards_popBack (n : Z) (p : Player) :
  Player.hand (Player.playCards n p).2 ++ rev (Player.playCards n p).1
  = Player.hand p
  ∧ length (Player.playCards n p).1
    = Nat.min (Z.to_nat n) (length (Player.hand p)).
Proof.
  destruct (popBack_spec (Z.to_nat n) (Player.hand p)) as (Happ & Hlen & _).
  unfold Player.playCards.
  destruct (Player.popBack (Z.to_nat n) (Player.hand p) []) as [played h].
  simpl in *. auto.
Qed.

Lemma bot_count_range (rnd : Z) : 0 ≤ rnd → 1 ≤ Z.rem rnd 3 + 1 ≤ 3.
Proof. intros H. pose proof (Z.rem_bound_pos rnd 3 H ltac:(lia)). lia. Qed.

(** X3. A bot whose hand is not empty plays at least one card and at most
    three, for every value of [rand()]: the play is never empty and the
    hand gets shorter by the size of the play. *)
Theorem bot_plays_one_to_three (rnd : Z) (p : Player) :
  0 ≤ rnd →
  Player.hand p ≠ [] →
  let played := (Player.playCards (Z.rem rnd 3 + 1) p).1 in
  let p' := (Player.playCards (Z.rem rnd 3 + 1) p).2 in
  (1 ≤ length played ≤ 3)%nat
  ∧ (length played ≤ length (Player.hand p))%nat
  ∧ (length (Player.hand p') + length played = length (Player.hand p))%nat.
Proof.
  intros Hrnd Hne played p'.
  pose proof (bot_count_range rnd Hrnd) as Hn.
  destruct (playCards_popBack (Z.rem rnd 3 + 1) p) as (Happ & Hlen).
  fold played p' in Happ, Hlen.
  assert (length (Player.hand p) ≠ 0)%nat
    by (destruct (Player.hand p); [contradiction | simpl; lia]).
  apply (f_equal length) in Happ. rewrite length_app, length_rev in Happ.
  lia.
Qed.

Lemma bot_plays_one_to_three_witness :
  let p := Player.mk "Bot1" ["Sun"; "Moon"]%string true in
  0 ≤ 5
  ∧ Player.hand p ≠ []
  ∧ (1 ≤ length (Player.playCards (Z.rem 5 3 + 1) p).1 ≤ 3)%nat.
Proof.
  assert (H5 : 0 ≤ 5) by lia.
  assert (Hne : Player.hand (Player.mk "Bot1" ["Sun"; "Moon"]%string true) ≠ [])
    by discriminate.
  split; [exact H5|]. split; [exact Hne|].
  exact (proj1 (bot_plays_one_to_three 5 _ H5 Hne)).
Defined.

(** ** The deal to the players *)

Lemma dealTo_spec (n : Z) (ps : list Player) (cards : list Card) :
  (Z.to_nat n * length (filter (λ p, Player.alive p = true) ps)
   ≤ length cards)%nat →
  Forall2 (λ p p',
             Player.name p' = Player.name p
             ∧ Player.alive p' = Player.alive p
             ∧ (Player.alive p = false → p' = p)
             ∧ (Player.alive p = true → length (Player.hand p') = Z.to_nat n))
          ps (dealTo n ps cards).
Proof.
  revert cards. induction ps as [|p ps IH]; intros cards Hlen; simpl;
    [constructor|].
  rewrite filter_cons in Hlen.
  destruct (Player.alive p) eqn:Ha.
  - rewrite decide_True in Hlen by reflexivity. simpl in Hlen.
    destruct (popBack_spec (Z.to_nat n) cards) as (Happ & Hl & _).
    fold (deal n cards) in Happ, Hl.
    destruct (deal n cards) as [h cards']. simpl in Happ, Hl.
    apply (f_equal length) in Happ. rewrite length_app, length_rev in Happ.
    constructor.
    + simpl. repeat split; try congruence. intros _. lia.
    + apply IH. lia.
  - rewrite decide_False in Hlen by discriminate.
    constructor; [repeat split; congruence | apply IH; exact Hlen].
Qed.

Lemma dealTo_from_deck (n : Z) (ps : list Player) (cards : list Card) :
  concat (map Player.hand (filter (λ p, Player.alive p = true)
                             (dealTo n ps cards))) ⊆+ cards.
Proof.
  revert cards. induction ps as [|p ps IH]; intros cards; simpl.
  - apply submseteq_nil_l.
  - destruct (Player.alive p) eqn:Ha.
    + destruct (popBack_spec (Z.to_nat n) cards) as (Happ & _).
      fold (deal n cards) in Happ.
      destruct (deal n cards) as [h cards']. simpl in Happ.
      rewrite filter_cons_True by exact Ha. simpl.
      rewrite <- Happ.
      rewrite (Permutation_app_comm cards' (rev h)).
      apply submseteq_app; [|apply IH].
      rewrite <- Permutation_rev. reflexivity.
    + rewrite filter_cons_False by (rewrite Ha; discriminate). apply IH.
Qed.

(** X4. [dealCardsToAlive(n)] on a deck that holds [n] cards for every
    alive player: each alive player gets a hand of exactly [n] cards, a
    dead player keeps the record it had, no name or alive flag changes,
    and the hands dealt are, together, cards of the deck, none of them
    dealt twice. *)
Theorem dealCardsToAlive_spec (n : Z) (cards : list Card) (g : Game) :
  Z.of_nat (Z.to_nat n) * countAlivePlayers g ≤ Z.of_nat (length cards) →
  let g' := dealCardsToAlive n cards g in
  Forall2 (λ p p',
             Player.name p' = Player.name p
             ∧ Player.alive p' = Player.alive p
             ∧ (Player.alive p = false → p' = p)
             ∧ (Player.alive p = true → length (Player.hand p') = Z.to_nat n))
          (players g) (players g')
  ∧ concat (map Player.hand (filter (λ p, Player.alive p = true) (players g')))
    ⊆+ cards
  ∧ currentPlayerIndex g' = currentPlayerIndex g
  ∧ surviveCount g' = surviveCount g
  ∧ lastPlayedByIndex g' = lastPlayedByIndex g.
Proof.
  intros Hlen g'. unfold countAlivePlayers in Hlen.
  split; [apply dealTo_spec; lia|].
  split; [apply dealTo_from_deck|]. auto.
Qed.

Lemma dealCardsToAlive_spec_witness :
  let g := newGame 0 in
  Z.of_nat (Z.to_nat 5) * countAlivePlayers g ≤ Z.of_nat (length freshDeck)
  ∧ concat (map Player.hand
              (filter (λ p, Player.alive p = true)
                 (players (dealCardsToAlive 5 freshDeck g)))) ⊆+ freshDeck.
Proof.
  assert (H : Z.of_nat (Z.to_nat 5) * countAlivePlayers (newGame 0)
              ≤ Z.of_nat (length freshDeck)) by (vm_compute; discriminate).
  split; [exact H|].
  exact (proj1 (proj2 (dealCardsToAlive_spec 5 freshDeck (newGame 0) H))).
Defined.

Lemma filter_length_le {A} (P : A → Prop) `{∀ x, Decision (P x)} (l : list A) :
  (length (filter P l) ≤ length l)%nat.
Proof. apply length_filter. Qed.

Lemma filter_agree {A} (P Q : A → Prop) `{∀ x, Decision (P x)}
    `{∀ x, Decision (Q x)} (l : list A) :
  Forall (λ x, P x ↔ Q x) l → filter P l = filter Q l.
Proof.
  induction 1 as [|x l Hx _ IH]; [reflexivity|].
  rewrite !filter_cons, IH.
  destruct (decide (P x)), (decide (Q x)); tauto.
Qed.

Lemma Forall2_alive_map (ps ps' : list Player) :
  Forall2 (λ p p', Player.alive p' = Player.alive p) ps ps' →
  map Player.alive ps' = map Player.alive ps.
Proof. induction 1; simpl; congruence. Qed.

Lemma reachable_deal_five (cards : list Card) (g : Game) :
  reachable g →
  cards ≡ₚ freshDeck →
  let g' := dealCardsToAlive 5 cards g in
  (∀ p, p ∈ players g' → Player.alive p = true → length (Player.hand p) = 5%nat)
  ∧ countAliveWithCards g' = countAlivePlayers g'
  ∧ countAlivePlayers g' = countAlivePlayers g.
Proof.
  intros Hr Hperm g'.
  destruct (reachable_invariant g Hr) as (Hnames & _ & _).
  assert (Hfour : length (players g) = 4%nat)
    by (rewrite <- (length_map Player.name), Hnames; reflexivity).
  assert (Hdeck : length cards = 20%nat)
    by (rewrite Hperm; reflexivity).
  pose proof (filter_length_le (λ p, Player.alive p = true) (players g)) as Hle.
  assert (Hdeal : Forall2
            (λ p p', Player.name p' = Player.name p
                     ∧ Player.alive p' = Player.alive p
                     ∧ (Player.alive p = false → p' = p)
                     ∧ (Player.alive p = true → length (Player.hand p') = Z.to_nat 5))
            (players g) (players g'))
    by (apply dealTo_spec; lia).
  assert (Hfive : ∀ p, p ∈ players g' → Player.alive p = true →
                       length (Player.hand p) = 5%nat).
  { intros p' Hp' Ha. apply list_elem_of_lookup in Hp' as [i Hi].
    destruct (Forall2_lookup_r _ _ _ _ _ Hdeal Hi) as (p & _ & _ & Hal & _ & Hlen).
    rewrite Hal in Ha. rewrite (Hlen Ha). reflexivity. }
  split; [exact Hfive|]. split.
  - unfold countAliveWithCards, countAlivePlayers. do 2 f_equal.
    apply filter_agree. apply Forall_forall. intros p Hp.
    rewrite canAct_spec. split; [tauto|]. intros Ha. split; [exact Ha|].
    specialize (Hfive p Hp Ha). destruct (Player.hand p); [discriminate Hfive|].
    discriminate.
  - apply countAlivePlayers_alive. apply Forall2_alive_map.
    eapply Forall2_impl; [exact Hdeal|]. simpl. tauto.
Qed.



(** ** Looking a player up by name *)

Lemma findFrom_first (i : Z) (ps : list Player) (nm : string) :
  let r := findFrom i ps nm in
  (r = -1 ∧ Forall (λ p, Player.name p ≠ nm) ps)
  ∨ (∃ k p, r = i + Z.of_nat k
            ∧ ps !! k = Some p
            ∧ Player.name p = nm
            ∧ Forall (λ q, Player.name q ≠ nm) (take k ps)).
Proof.
  revert i. induction ps as [|q ps IH]; intros i; simpl.
  - left. split; [reflexivity | constructor].
  - destruct (String.eqb_spec (Player.name q) nm) as [E|E].
    + right. exists 0%nat, q. simpl. repeat split; [lia | exact E | constructor].
    + destruct (IH (i + 1)) as [[Hr Hall]|(k & p & Hr & Hk & Hp & Hall)].
      * left. split; [exact Hr | constructor; assumption].
      * right. exists (S k), p. simpl.
        repeat split; [lia | exact Hk | exact Hp | constructor; assumption].
Qed.

(** X6. [findPlayerIndex(name)] returns -1 exactly when no player carries
    the name; otherwise it returns a seat whose player carries the name,
    and no seat before it does (the first match wins). *)
Theorem findPlayerIndex_first_match (g : Game) (nm : string) :
  let i := findPlayerIndex g nm in
  (i = -1 ↔ ∀ p, p ∈ players g → Player.name p ≠ nm)
  ∧ (i ≠ -1 →
     0 ≤ i < numPlayers g
     ∧ Player.name (playerAt g i) = nm
     ∧ ∀ j, 0 ≤ j < i → Player.name (playerAt g j) ≠ nm).
Proof.
  unfold findPlayerIndex.
  destruct (findFrom_first 0 (players g) nm)
    as [[Hr Hall]|(k & p & Hr & Hk & Hp & Hall)]; simpl in *.
  - rewrite Hr. split; [|intros H; contradiction].
    split; [|reflexivity]. intros _ p Hp.
    rewrite Forall_forall in Hall. apply Hall. exact Hp.
  - pose proof (lookup_lt_Some _ _ _ Hk) as Hlt.
    rewrite Hr. split.
    + split; [lia|]. intros Hnone. exfalso.
      apply (Hnone p); [apply list_elem_of_lookup; eauto | exact Hp].
    + intros _. unfold numPlayers, playerAt. split; [lia|]. split.
      * rewrite (at_index_lookup nobody _ _ p); [exact Hp | lia |].
        rewrite Z.add_0_l, Nat2Z.id. exact Hk.
      * intros j Hj.
        destruct (lookup_lt_is_Some_2 (players g) (Z.to_nat j) ltac:(lia))
          as [q Hq].
        rewrite (at_index_lookup nobody _ _ q) by (lia || exact Hq).
        rewrite Forall_forall in Hall. apply Hall.
        apply list_elem_of_lookup. exists (Z.to_nat j).
        rewrite lookup_take_lt by lia. exact Hq.
Qed.

(** ** The lookup of the next player, in full *)

(** X7. Started at -1 or at a seat, [getNextAlivePlayer] fails only when
    no seat at all holds a player alive with cards; otherwise it returns
    the first such seat in wrapping order after [start], [start] itself
    being tried last. *)
Theorem getNextAlivePlayer_first_in_order (g : Game) (start : Z) :
  -1 ≤ start →
  let n := numPlayers g in
  let r := getNextAlivePlayer g start in
  (r = -1 ↔ ∀ s, 0 ≤ s < n → canAct (playerAt g s) = false)
  ∧ (r ≠ -1 →
     ∃ k, 1 ≤ k ≤ n
          ∧ r = (start + k) mod n
          ∧ canAct (playerAt g r) = true
          ∧ ∀ j, 1 ≤ j < k → canAct (playerAt g ((start + j) mod n)) = false).
Proof.
  intros Hstart n r. split.
  - split.
    + intros Hr s Hs. exact (getNextAlivePlayer_none g start s Hstart Hr Hs).
    + intros Hnone.
      destruct (getNextAlivePlayer_spec g start) as [[Hr _]|(k & _ & _ & Hck & _)];
        [exact Hr|].
      pose proof (canAct_at_index_range _ _ Hck) as [Hrange _].
      fold r in Hck, Hrange. rewrite (Hnone r) in Hck by exact Hrange.
      discriminate.
  - intros Hne.
    destruct (getNextAlivePlayer_spec g start) as [[Hr _]|(k & Hk & Hr & Hck & Hb)];
      [contradiction|].
    fold n in Hk, Hr, Hb. fold r in Hr, Hck.
    exists k. split; [exact Hk|].
    rewrite Z.rem_mod_nonneg in Hr by lia.
    split; [exact Hr|]. split; [exact Hck|].
    intros j Hj. specialize (Hb j Hj).
    rewrite Z.rem_mod_nonneg in Hb by lia. exact Hb.
Qed.

Lemma getNextAlivePlayer_first_in_order_witness :
  -1 ≤ 0
  ∧ (getNextAlivePlayer Scenario.bot1Empty 0 = -1
     ↔ ∀ s, 0 ≤ s < numPlayers Scenario.bot1Empty →
            canAct (playerAt Scenario.bot1Empty s) = false).
Proof.
  assert (H : -1 ≤ 0) by lia.
  split; [exact H|].
  exact (proj1 (getNextAlivePlayer_first_in_order Scenario.bot1Empty 0 H)).
Defined.

(** ** The prompts of the human turn *)

Lemma readIndices_eq (attempts : list Attempt) (n handSize : Z) (sel : list Z) :
  readIndices attempts n handSize sel
  = if Z.of_nat (length sel) <? n then
      match attempts with
      | [] => None
      | Garbage :: rest => readIndices rest n handSize sel
      | Typed v :: rest =>
          if (v - 1 <? 0) || (handSize <=? v - 1) then
            readIndices rest n handSize sel
          else if bool_decide (v - 1 ∈ sel) then
            readIndices rest n handSize sel
          else readIndices rest n handSize (sel ++ [v - 1])
      end
    else Some (sel, attempts).
Proof. destruct attempts as [|[v|] rest]; reflexivity. Qed.

(** What the index prompt keeps true of the indices collected so far. *)
Lemma readIndices_collects (attempts : list Attempt) (n handSize : Z)
    (sel0 sel : list Z) (rest : list Attempt) :
  NoDup sel0 →
  Forall (λ i, 0 ≤ i < handSize) sel0 →
  readIndices attempts n handSize sel0 = Some (sel, rest) →
  NoDup sel
  ∧ Forall (λ i, 0 ≤ i < handSize) sel
  ∧ sel0 `prefix_of` sel
  ∧ n ≤ Z.of_nat (length sel)
  ∧ (Z.of_nat (length sel0) ≤ n → Z.of_nat (length sel) = n)
  ∧ rest `suffix_of` attempts.
Proof.
  revert sel0. induction attempts as [|a attempts IH]; intros sel0 Hnd Hin Hread;
    rewrite readIndices_eq in Hread;
    destruct (Z.of_nat (length sel0) <? n) eqn:Hlt.
  - discriminate.
  - injection Hread as <- <-. apply Z.ltb_ge in Hlt.
    repeat split; try assumption; try reflexivity; lia.
  - apply Z.ltb_lt in Hlt.
    assert (Hstep : ∀ sel1, NoDup sel1 → Forall (λ i, 0 ≤ i < handSize) sel1 →
                      sel0 `prefix_of` sel1 →
                      Z.of_nat (length sel1) ≤ n →
                      readIndices attempts n handSize sel1 = Some (sel, rest) →
                      NoDup sel
                      ∧ Forall (λ i, 0 ≤ i < handSize) sel
                      ∧ sel0 `prefix_of` sel
                      ∧ n ≤ Z.of_nat (length sel)
                      ∧ (Z.of_nat (length sel0) ≤ n → Z.of_nat (length sel) = n)
                      ∧ rest `suffix_of` a :: attempts).
    { intros sel1 Hnd1 Hin1 Hpre Hle1 Hr.
      destruct (IH sel1 Hnd1 Hin1 Hr) as (H1 & H2 & H3 & H4 & H5 & H6).
      repeat split; try assumption.
      - etransitivity; eassumption.
      - intros _. apply H5. exact Hle1.
      - apply suffix_cons_r. exact H6. }
    destruct a as [v|].
    + destruct ((v - 1 <? 0) || (handSize <=? v - 1)) eqn:Hrange.
      * apply (Hstep sel0); try assumption; [reflexivity | lia].
      * apply orb_false_iff in Hrange as [H0 H1].
        apply Z.ltb_ge in H0. apply Z.leb_gt in H1.
        destruct (bool_decide_reflect (v - 1 ∈ sel0)) as [Hdup|Hnew].
        -- apply (Hstep sel0); try assumption; [reflexivity | lia].
        -- apply (Hstep (sel0 ++ [v - 1])); try assumption.
           ++ apply NoDup_app. split; [exact Hnd|]. split; [|apply NoDup_singleton].
              intros x Hx Hx'. apply list_elem_of_singleton in Hx' as ->.
              contradiction.
           ++ apply Forall_app. split; [exact Hin|]. repeat constructor; lia.
           ++ apply prefix_app_r. reflexivity.
           ++ rewrite length_app. simpl. lia.
    + apply (Hstep sel0); try assumption; [reflexivity | lia].
  - injection Hread as <- <-. apply Z.ltb_ge in Hlt.
    repeat split; try assumption; try reflexivity; lia.
Qed.

Lemma readCount_spec (attempts : list Attempt) :
  let rejected a := ∀ v, a = Typed v → v < 1 ∨ 3 < v in
  match readCount attempts with
  | Some (n, rest) =>
      1 ≤ n ≤ 3
      ∧ ∃ before, attempts = before ++ Typed n :: rest ∧ Forall rejected before
  | None => Forall rejected attempts
  end.
Proof.
  intros rejected. induction attempts as [|a attempts IH]; simpl; [constructor|].
  destruct a as [v|].
  - destruct ((v <? 1) || (3 <? v)) eqn:Hout.
    + assert (Hrej : rejected (Typed v)).
      { intros w [= <-]. apply orb_true_iff in Hout as [H|H];
          [apply Z.ltb_lt in H | apply Z.ltb_lt in H]; lia. }
      destruct (readCount attempts) as [[n rest]|].
      * destruct IH as (Hn & before & -> & Hall).
        split; [exact Hn|]. exists (Typed v :: before).
        split; [reflexivity | constructor; assumption].
      * constructor; assumption.
    + apply orb_false_iff in Hout as [H1 H3].
      apply Z.ltb_ge in H1, H3. split; [lia|].
      exists []. split; [reflexivity | constructor].
  - assert (Hrej : rejected Garbage) by (intros w; discriminate).
    destruct (readCount attempts) as [[n rest]|].
    + destruct IH as (Hn & before & -> & Hall).
      split; [exact Hn|]. exists (Garbage :: before).
      split; [reflexivity | constructor; assumption].
    + constructor; assumption.
Qed.

(** X8. The prompt for the number of cards accepts the first integer
    between 1 and 3 that is typed and nothing else: every attempt before
    it is a failed read or an integer outside 1..3, and when every attempt
    is of that kind the prompt is still waiting. *)
Theorem readCount_first_valid (attempts : list Attempt) :
  let rejected a := ∀ v, a = Typed v → v < 1 ∨ 3 < v in
  match readCount attempts with
  | Some (n, rest) =>
      1 ≤ n ≤ 3
      ∧ ∃ before, attempts = before ++ Typed n :: rest ∧ Forall rejected before
  | None => Forall rejected attempts
  end.
Proof. exact (readCount_spec attempts). Qed.

(** X9. When the two prompts of the human turn complete, the selection
    they hand to the removal loop has one to three indices, all distinct
    and all positions of the hand, as many as the number typed at the
    first prompt; so it never has more indices than the hand has cards. *)
Theorem readSelection_valid (attempts : list Attempt) (h : list Card)
    (sel : list Z) (rest : list Attempt) :
  readSelection attempts h = Some (sel, rest) →
  validSelection sel h
  ∧ (1 ≤ length sel ≤ 3)%nat
  ∧ (length sel ≤ length h)%nat
  ∧ (∃ n rest', readCount attempts = Some (n, rest')
                ∧ Z.of_nat (length sel) = n)
  ∧ rest `suffix_of` attempts.
Proof.
  unfold readSelection. intros Hread.
  pose proof (readCount_spec attempts) as Hcount. simpl in Hcount.
  destruct (readCount attempts) as [[n rest']|]; [|discriminate].
  destruct Hcount as (Hn & before & -> & _).
  destruct (readIndices_collects rest' n (Z.of_nat (length h)) [] sel rest
              (NoDup_nil_2) (Forall_nil_2 _) Hread)
    as (Hnd & Hin & _ & _ & Hlen & Hsuf).
  specialize (Hlen ltac:(simpl; lia)).
  assert (Hle : (length sel ≤ length h)%nat).
  { assert (Hsub : sel ⊆+ seqZ 0 (Z.of_nat (length h))).
    { apply NoDup_submseteq; [exact Hnd|]. intros x Hx.
      rewrite Forall_forall in Hin. specialize (Hin x Hx).
      apply elem_of_seqZ. lia. }
    apply submseteq_length in Hsub. rewrite length_seqZ in Hsub. lia. }
  split.
  - unfold validSelection. split; [|split; assumption].
    intros ->. simpl in Hlen. lia.
  - split; [lia|]. split; [exact Hle|]. split; [eauto|].
    etransitivity; [exact Hsuf|].
    apply suffix_app_r, suffix_cons_r. reflexivity.
Qed.

Lemma readSelection_valid_witness :
  let attempts := [Typed 7; Garbage; Typed 2; Typed 9; Typed 3; Typed 3; Typed 1] in
  let h := ["Sun"; "Star"; "Moon"]%string in
  readSelection attempts h = Some ([2; 0], [])
  ∧ validSelection [2; 0] h.
Proof.
  assert (H : readSelection
                [Typed 7; Garbage; Typed 2; Typed 9; Typed 3; Typed 3; Typed 1]
                ["Sun"; "Star"; "Moon"]%string = Some ([2; 0], []))
    by reflexivity.
  split; [exact H|].
  exact (proj1 (readSelection_valid _ _ _ _ H)).
Defined.

Lemma readIndices_never_enough (attempts : list Attempt) (n handSize : Z)
    (sel : list Z) :
  NoDup sel →
  Forall (λ i, 0 ≤ i < handSize) sel →
  0 ≤ handSize < n →
  readIndices attempts n handSize sel = None.
Proof.
  intros Hnd Hin Hn.
  destruct (readIndices attempts n handSize sel) as [[sel' rest]|] eqn:Hread;
    [|reflexivity].
  destruct (readIndices_collects _ _ _ _ _ _ Hnd Hin Hread)
    as (Hnd' & Hin' & _ & Hlen & _).
  assert (Hsub : sel' ⊆+ seqZ 0 handSize).
  { apply NoDup_submseteq; [exact Hnd'|]. intros x Hx.
    rewrite Forall_forall in Hin'. specialize (Hin' x Hx).
    apply elem_of_seqZ. lia. }
  apply submseteq_length in Hsub. rewrite length_seqZ in Hsub. lia.
Qed.

(** X10. The first prompt checks the number against 1..3 only, not
    against the hand.  When the number accepted is larger than the hand,
    the index prompt cannot collect that many distinct positions: whatever
    is typed afterwards, the prompts never complete. *)
Theorem readSelection_stuck_on_short_hand (attempts : list Attempt)
    (h : list Card) (n : Z) (rest : list Attempt) :
  readCount attempts = Some (n, rest) →
  Z.of_nat (length h) < n →
  readSelection attempts h = None.
Proof.
  intros Hcount Hshort. unfold readSelection. rewrite Hcount.
  apply readIndices_never_enough; [constructor | constructor | lia].
Qed.

Lemma readSelection_stuck_on_short_hand_witness :
  let attempts := [Typed 3; Typed 1; Typed 2; Typed 1; Typed 2; Typed 3] in
  let h := ["Sun"; "Star"]%string in
  readCount attempts = Some (3, [Typed 1; Typed 2; Typed 1; Typed 2; Typed 3])
  ∧ Z.of_nat (length h) < 3
  ∧ readSelection attempts h = None.
Proof.
  assert (Hc : readCount [Typed 3; Typed 1; Typed 2; Typed 1; Typed 2; Typed 3]
               = Some (3, [Typed 1; Typed 2; Typed 1; Typed 2; Typed 3]))
    by reflexivity.
  assert (Hs : Z.of_nat (length ["Sun"; "Star"]%string) < 3) by (simpl; lia).
  split; [exact Hc|]. split; [exact Hs|].
  exact (readSelection_stuck_on_short_hand _ _ _ _ Hc Hs).
Defined.

(** ** The record of the last play *)

Lemma at_index_insert_eq {A} (d x : A) (l : list A) (i : Z) :
  0 ≤ i < Z.of_nat (length l) → at_index d (<[Z.to_nat i := x]> l) i = x.
Proof.
  intros Hi. apply at_index_lookup; [lia|].
  apply list_lookup_insert_eq. lia.
Qed.

Lemma at_index_insert_ne {A} (d x : A) (l : list A) (i j : Z) :
  0 ≤ i → i ≠ j → at_index d (<[Z.to_nat i := x]> l) j = at_index d l j.
Proof.
  intros Hi Hne. unfold at_index. destruct (j <? 0) eqn:Hj; [reflexivity|].
  apply Z.ltb_ge in Hj.
  assert (Hnat : Z.to_nat i ≠ Z.to_nat j) by lia.
  pose proof (list_lookup_insert_ne l (Z.to_nat i) (Z.to_nat j) x Hnat) as Hl.
  destruct (l !! Z.to_nat j) as [y|] eqn:Hy.
  - rewrite (nth_lookup_Some _ _ _ _ Hy), (nth_lookup_Some _ _ _ _ Hl).
    reflexivity.
  - apply lookup_ge_None in Hy, Hl. rewrite !nth_overflow by lia. reflexivity.
Qed.

Lemma findPlayerIndex_names (g g' : Game) (nm : string) :
  map Player.name (players g') = map Player.name (players g) →
  findPlayerIndex g' nm = findPlayerIndex g nm.
Proof. intros H. apply findFrom_names. exact H. Qed.

Lemma findPlayerIndex_other (g : Game) (cur : Z) (nm : string) :
  0 ≤ cur < numPlayers g →
  nm ≠ Player.name (playerAt g cur) →
  findPlayerIndex g nm ≠ cur.
Proof.
  intros Hcur Hne Heq. apply Hne. unfold findPlayerIndex in Heq.
  destruct (findFrom_first 0 (players g) nm) as [[Hr _]|(k & p & Hr & Hk & Hp & _)];
    simpl in *; [lia|].
  unfold playerAt. rewrite (at_index_lookup nobody _ _ p); [congruence | lia |].
  replace (Z.to_nat cur) with k by lia. exact Hk.
Qed.

(** The play of a seat through a member call that keeps the name, and the
    record made of it. *)
Lemma recorded_after_member_call (f : Player → Player) (played : list Card)
    (g : Game) :
  let cur := currentPlayerIndex g in
  let g1 := updPlayer cur f g in
  let g2 := recordPlay (Player.name (playerAt g1 cur)) played g1 in
  (∀ p, Player.name (f p) = Player.name p) →
  NoDup (map Player.name (players g)) →
  seated g →
  length (lastPlayedByIndex g) = length (players g) →
  recordedPlay (Player.name (playerAt g cur)) g2 = played
  ∧ playerAt g2 cur = f (playerAt g cur)
  ∧ (∀ nm, nm ≠ Player.name (playerAt g cur) →
           recordedPlay nm g2 = recordedPlay nm g)
  ∧ length (lastPlayedByIndex g2) = length (players g2).
Proof.
  intros cur g1 g2 Hf Hnd Hseat Hlen. unfold seated in Hseat. fold cur in Hseat.
  pose proof (names_updPlayer cur f g Hf) as Hnames1. fold g1 in Hnames1.
  destruct (updPlayer_frame cur f g) as (_ & _ & Hlp1 & Hlen1).
  fold g1 in Hlp1, Hlen1.
  assert (Hme : playerAt g1 cur = f (playerAt g cur))
    by (apply playerAt_updPlayer_eq; exact Hseat).
  assert (Hname : Player.name (playerAt g1 cur) = Player.name (playerAt g cur))
    by (rewrite Hme; apply Hf).
  assert (Hidx : findPlayerIndex g1 (Player.name (playerAt g cur)) = cur).
  { rewrite (findPlayerIndex_names g g1 _ Hnames1).
    apply findPlayerIndex_NoDup; assumption. }
  assert (Hg2 : g2 = withLastPlayed cur played g1).
  { subst g2. unfold recordPlay. rewrite Hname, Hidx.
    destruct (cur =? -1) eqn:E; [apply Z.eqb_eq in E; lia | reflexivity]. }
  assert (Hfind : ∀ nm, findPlayerIndex g2 nm = findPlayerIndex g nm).
  { intros nm. rewrite Hg2. apply (findPlayerIndex_names g). exact Hnames1. }
  unfold numPlayers in Hseat.
  split; [|split; [|split]].
  - unfold recordedPlay. rewrite Hfind, (findPlayerIndex_NoDup g cur Hnd Hseat).
    destruct (cur =? -1) eqn:E; [apply Z.eqb_eq in E; lia|]. simpl.
    rewrite Hg2. simpl. apply at_index_insert_eq. rewrite Hlp1. lia.
  - rewrite Hg2. exact Hme.
  - intros nm Hnm. unfold recordedPlay. rewrite Hfind.
    destruct (findPlayerIndex g nm =? -1); simpl; [reflexivity|].
    rewrite Hg2. simpl. rewrite Hlp1. apply at_index_insert_ne; [lia|].
    intros Heq. exact (findPlayerIndex_other g cur nm Hseat Hnm (eq_sym Heq)).
  - rewrite Hg2. simpl. rewrite length_insert, Hlp1, Hlen1. exact Hlen.
Qed.

Lemma afterPlay_recorded (inp : Inputs) (g : Game) :
  NoDup (map Player.name (players g)) →
  seated g →
  length (lastPlayedByIndex g) = length (players g) →
  let cur := currentPlayerIndex g in
  let me := playerAt g cur in
  let move :=
    if String.eqb (Player.name me) "Human"
    then humanPlay (chosen inp) me
    else Player.playCards (Z.rem (playRand inp) 3 + 1) me in
  let g2 := afterPlay inp g in
  recordedPlay (Player.name me) g2 = move.1
  ∧ playerAt g2 cur = move.2
  ∧ (∀ nm, nm ≠ Player.name me → recordedPlay nm g2 = recordedPlay nm g)
  ∧ (∀ j, j ≠ cur → playerAt g2 j = playerAt g j).
Proof.
  intros Hnd Hseat Hlen cur me move g2.
  subst move g2. unfold afterPlay. fold cur me.
  destruct (String.eqb (Player.name me) "Human").
  - destruct (recorded_after_member_call
                (λ p, (humanPlay (chosen inp) p).2)
                (humanPlay (chosen inp) me).1 g
                (λ p, humanPlay_name (chosen inp) p) Hnd Hseat Hlen)
      as (H1 & H2 & H3 & _).
    pose proof (playedFrom_humanPlays inp cur g) as (_ & _ & _ & _ & _ & H4).
    split; [exact H1|]. split; [exact H2|]. split; [exact H3 | exact H4].
  - destruct (recorded_after_member_call
                (λ p, (Player.playCards (Z.rem (playRand inp) 3 + 1) p).2)
                (Player.playCards (Z.rem (playRand inp) 3 + 1) me).1 g
                (λ p, playCards_name _ p) Hnd Hseat Hlen)
      as (H1 & H2 & H3 & _).
    pose proof (playedFrom_botPlays inp cur g) as (_ & _ & _ & _ & _ & H4).
    split; [exact H1|]. split; [exact H2|]. split; [exact H3 | exact H4].
Qed.

(** X11. In a game whose players have distinct names: after the current
    player has played, the record of that player's last play holds exactly
    the cards that left the hand (the play of [humanPlay] for the human,
    of [playCards] for a bot), the record of every other player is as it
    was, and so is every other player. *)
Theorem play_is_recorded (inp : Inputs) (g : Game) :
  NoDup (map Player.name (players g)) →
  seated g →
  length (lastPlayedByIndex g) = length (players g) →
  let cur := currentPlayerIndex g in
  let me := playerAt g cur in
  let move :=
    if String.eqb (Player.name me) "Human"
    then humanPlay (chosen inp) me
    else Player.playCards (Z.rem (playRand inp) 3 + 1) me in
  let g2 := afterPlay inp g in
  recordedPlay (Player.name me) g2 = move.1
  ∧ playerAt g2 cur = move.2
  ∧ (∀ nm, nm ≠ Player.name me → recordedPlay nm g2 = recordedPlay nm g)
  ∧ (∀ j, j ≠ cur → playerAt g2 j = playerAt g j).
Proof. intros Hnd Hseat Hlen. exact (afterPlay_recorded inp g Hnd Hseat Hlen). Qed.

Lemma play_is_recorded_witness :
  let inp := Scenario.bot 2 false false in
  let g := Scenario.lastCards in
  NoDup (map Player.name (players g))
  ∧ seated g
  ∧ length (lastPlayedByIndex g) = length (players g)
  ∧ recordedPlay "Bot1" (afterPlay inp g) = ["Magic"; "Magic"]%string.
Proof.
  assert (Hnd : NoDup (map Player.name (players Scenario.lastCards)))
    by (vm_compute; exact NoDup_seatNames).
  assert (Hs : seated Scenario.lastCards)
    by (vm_compute; split; [discriminate | reflexivity]).
  assert (Hl : length (lastPlayedByIndex Scenario.lastCards)
               = length (players Scenario.lastCards))
    by (vm_compute; reflexivity).
  split; [exact Hnd|]. split; [exact Hs|]. split; [exact Hl|].
  pose proof (proj1 (play_is_recorded (Scenario.bot 2 false false)
                       Scenario.lastCards Hnd Hs Hl)) as H.
  vm_compute in H. vm_compute. exact H.
Defined.

(** ** What one iteration of the round loop does *)

Lemma sameButTurn_refl (g : Game) : sameButTurn g g.
Proof. unfold sameButTurn. auto. Qed.

Lemma sameButTurn_trans (g1 g2 g3 : Game) :
  sameButTurn g1 g2 → sameButTurn g2 g3 → sameButTurn g1 g3.
Proof.
  intros (Hp & Hs & Hl) (Hp' & Hs' & Hl'). unfold sameButTurn.
  repeat split; congruence.
Qed.

Lemma sameButTurn_withCurrent (i : Z) (g : Game) : sameButTurn g (withCurrent i g).
Proof. unfold sameButTurn. auto. Qed.

Section IterationShape.

Variable focus : Card.
Variable inp : Inputs.

Lemma question_game (qi pi : Z) (g : Game) :
  (question qi pi focus (bombRand inp) g).1
  = mkRound (handleQuestioning qi pi
               (recordedPlay (Player.name (playerAt g pi)) g) focus
               (bombRand inp) g).1.1 true true.
Proof. rewrite question_unfold. reflexivity. Qed.

Lemma botChallenged_shape (cur : Z) (r : Round) (g2 : Game) :
  currentPlayerIndex g2 = cur →
  let res := botChallenged focus inp cur r g2 in
  (getNextAlivePlayer g2 cur = -1 ∧ res.1 = (Break, mkRound g2 true (anyQuestionAsked r)))
  ∨ (getNextAlivePlayer g2 cur ≠ -1
     ∧ (res.1 = (Next, mkRound g2 (roundOver r) (anyQuestionAsked r))
        ∨ res.1 = (Next, mkRound (resolved focus inp cur g2) true true))).
Proof.
  intros Hc. unfold botChallenged. rewrite Hc. simpl.
  destruct (getNextAlivePlayer g2 cur =? -1) eqn:E;
    [left; apply Z.eqb_eq in E; auto|].
  right. apply Z.eqb_neq in E. split; [exact E|].
  pose proof (question_game (getNextAlivePlayer g2 cur) cur g2) as Hq.
  destruct (question (getNextAlivePlayer g2 cur) cur focus (bombRand inp) g2)
    as [rq evq]. simpl in Hq. subst rq.
  repeat case_match; simpl; auto.
Qed.

Lemma humanChallenged_shape (cur : Z) (r : Round) (g2 : Game) :
  currentPlayerIndex g2 = cur →
  let res := humanChallenged focus inp cur r g2 in
  (getNextAlivePlayer g2 cur = -1 ∧ res.1 = (Break, mkRound g2 true (anyQuestionAsked r)))
  ∨ (getNextAlivePlayer g2 cur ≠ -1
     ∧ (res.1 = (Next, mkRound g2 (roundOver r) (anyQuestionAsked r))
        ∨ res.1 = (Next, mkRound (resolved focus inp cur g2) true true))).
Proof.
  intros Hc. unfold humanChallenged. rewrite Hc. simpl.
  destruct (getNextAlivePlayer g2 cur =? -1) eqn:E;
    [left; apply Z.eqb_eq in E; auto|].
  right. apply Z.eqb_neq in E. split; [exact E|].
  pose proof (question_game (getNextAlivePlayer g2 cur) cur g2) as Hq.
  destruct (question (getNextAlivePlayer g2 cur) cur focus (bombRand inp) g2)
    as [rq evq]. simpl in Hq. subst rq.
  repeat case_match; simpl; auto.
Qed.

Lemma playedFrom_afterPlay (g : Game) :
  playedFrom (currentPlayerIndex g) g (afterPlay inp g).
Proof.
  unfold afterPlay. case_match;
    [apply playedFrom_humanPlays | apply playedFrom_botPlays].
Qed.

(** The turn: the play, then no challenge or one resolution. *)
Lemma playTurn_shape (r : Round) :
  let g := game r in
  let cur := currentPlayerIndex g in
  let g2 := afterPlay inp g in
  let res := playTurn focus inp r in
  (getNextAlivePlayer g2 cur = -1
   ∧ res.1 = (Break, mkRound g2 true (anyQuestionAsked r)))
  ∨ (getNextAlivePlayer g2 cur ≠ -1
     ∧ (res.1 = (Next, mkRound g2 (roundOver r) (anyQuestionAsked r))
        ∨ res.1 = (Next, mkRound (resolved focus inp cur g2) true true))).
Proof.
  intros g cur g2 res. subst res g2. unfold playTurn, afterPlay. fold g cur.
  destruct (String.eqb (Player.name (playerAt g cur)) "Human").
  - unfold humanTurn, turnOf. fold g.
    pose proof (playedFrom_humanPlays inp cur g) as (Hc & _).
    destruct (humanPlays inp cur g) as [g2 ev]. simpl in Hc |- *.
    pose proof (humanChallenged_shape cur r g2 Hc) as H.
    destruct (humanChallenged focus inp cur r g2) as [[fl r'] ev']. exact H.
  - unfold botTurn, turnOf. fold g.
    pose proof (playedFrom_botPlays inp cur g) as (Hc & _).
    destruct (botPlays inp cur g) as [g2 ev]. simpl in Hc |- *.
    pose proof (botChallenged_shape cur r g2 Hc) as H.
    destruct (botChallenged focus inp cur r g2) as [[fl r'] ev']. exact H.
Qed.

Lemma forcedQuestioning_shape (r : Round) :
  let g := game r in
  let cur := currentPlayerIndex g in
  let res := forcedQuestioning focus inp r in
  res.1 = (Next, r)
  ∨ res.1 = (Break, mkRound g true (anyQuestionAsked r))
  ∨ (roundOver r = false
     ∧ getNextAlivePlayer g cur ≠ -1
     ∧ Player.hand (playerAt g cur) = []
     ∧ res.1 = (Next, mkRound (resolved focus inp cur g) true true)).
Proof.
  unfold forcedQuestioning. simpl.
  destruct (roundOver r) eqn:Hover; simpl; [auto|].
  destruct (negb (anyQuestionAsked r) && _); [|auto].
  destruct (getNextAlivePlayer (game r) (currentPlayerIndex (game r)) =? -1) eqn:E;
    [auto|]. apply Z.eqb_neq in E.
  destruct (bool_decide_reflect
              (Player.hand (playerAt (game r) (currentPlayerIndex (game r))) = []))
    as [Hh|Hh]; [|auto].
  pose proof (question_game
                (getNextAlivePlayer (game r) (currentPlayerIndex (game r)))
                (currentPlayerIndex (game r)) (game r)) as Hq.
  destruct (question _ _ _ _ _) as [rq evq]. simpl in Hq. subst rq.
  right. right. auto.
Qed.

Lemma advance_shape (r : Round) :
  let res := advance r in
  sameButTurn (game r) (game res.1.2)
  ∧ (roundOver r = true → res.1 = (Next, r)).
Proof.
  unfold advance. destruct (roundOver r); simpl.
  - split; [apply sameButTurn_refl | auto].
  - split; [|discriminate]. case_match; simpl;
      [apply sameButTurn_refl | apply sameButTurn_withCurrent].
Qed.

(** The seat the lookup finds after a play is not the seat that played,
    when another seat could act before the play. *)
Lemma next_is_another_seat (g g2 : Game) :
  let cur := currentPlayerIndex g in
  seated g → playedFrom cur g g2 →
  ¬ (∀ s, 0 ≤ s < numPlayers g → s ≠ cur → canAct (playerAt g s) = false) →
  getNextAlivePlayer g2 cur ≠ cur.
Proof.
  intros cur Hseat Hpf Hsome Heq.
  destruct Hpf as (_ & Hn & _ & _ & _ & Hothers).
  unfold seated in Hseat. fold cur in Hseat.
  destruct (getNextAlivePlayer_spec g2 cur) as [[Hr _]|(k & Hk & Hr & _ & Hb)];
    [lia|].
  rewrite Hn in Hk, Hr, Hb. rewrite Z.rem_mod_nonneg in Hr by lia.
  destruct (decide (k < numPlayers g)) as [Hlt|Hge].
  - destruct (wrap_other_seat cur k (numPlayers g) Hseat ltac:(lia)) as [_ Hne].
    congruence.
  - apply Hsome. intros s Hs Hne.
    destruct (wrap_reaches_seat cur s (numPlayers g) Hseat Hs Hne) as (j & Hj & Hjs).
    specialize (Hb j ltac:(lia)). rewrite Z.rem_mod_nonneg in Hb by lia.
    rewrite Hjs, (Hothers s Hne) in Hb. exact Hb.
Qed.

(** An iteration in which the current player plays: afterwards the game
    is the game after the play, up to the current index, or it is the
    game after one challenge resolution on that play by another seat, and
    then the round is over. *)
Lemma played_iteration_shape (r : Round) :
  let g := game r in
  let cur := currentPlayerIndex g in
  let g2 := afterPlay inp g in
  let res := andThen (playTurn focus inp r)
               (λ r1, andThen (forcedQuestioning focus inp r1) advance) in
  seated g →
  roundOver r = false →
  1 < countAliveWithCards g →
  (sameButTurn g2 (game res.1.2))
  ∨ (getNextAlivePlayer g2 cur ≠ -1
     ∧ getNextAlivePlayer g2 cur ≠ cur
     ∧ game res.1.2 = resolved focus inp cur g2
     ∧ roundOver res.1.2 = true
     ∧ anyQuestionAsked res.1.2 = true).
Proof.
  intros g cur g2 res Hseat Hover Hcount.
  pose proof (playedFrom_afterPlay g) as Hpf. fold cur g2 in Hpf.
  pose proof (another_can_act g cur Hcount) as Hsome.
  pose proof (next_is_another_seat g g2 Hseat Hpf Hsome) as Hother.
  fold cur in Hother.
  subst res.
  destruct (playTurn_shape r) as [[_ E]|[Hnext [E|E]]]; fold g cur g2 in E;
    try fold g cur g2 in Hnext.
  - destruct (playTurn focus inp r) as [[fl r1] ev1]. simpl in E.
    injection E as -> ->. simpl. left. apply sameButTurn_refl.
  - destruct (playTurn focus inp r) as [[fl r1] ev1]. simpl in E.
    injection E as -> ->. simpl.
    set (r1 := mkRound g2 (roundOver r) (anyQuestionAsked r)).
    assert (Hc2 : currentPlayerIndex g2 = cur) by (apply Hpf).
    destruct (forcedQuestioning_shape r1) as [F|[F|(_ & Hn & Hh & F)]];
      simpl in F; rewrite ?Hc2 in *.
    + destruct (forcedQuestioning focus inp r1) as [[fl2 r2] ev2].
      simpl in F. injection F as -> ->. simpl.
      pose proof (advance_shape r1) as [Hs _].
      destruct (advance r1) as [[fl3 r3] ev3]. simpl in *. left. exact Hs.
    + destruct (forcedQuestioning focus inp r1) as [[fl2 r2] ev2].
      simpl in F. injection F as -> ->. simpl. left. apply sameButTurn_refl.
    + destruct (forcedQuestioning focus inp r1) as [[fl2 r2] ev2].
      simpl in F. injection F as -> ->. simpl.
      pose proof (advance_shape (mkRound (resolved focus inp cur g2) true true)) as [_ Ha].
      specialize (Ha eq_refl).
      destruct (advance _) as [[fl3 r3] ev3]. simpl in Ha.
      injection Ha as -> ->. simpl. right. auto.
  - destruct (playTurn focus inp r) as [[fl r1] ev1]. simpl in E.
    injection E as -> ->. simpl.
    set (r1 := mkRound (resolved focus inp cur g2) true true).
    assert (F : (forcedQuestioning focus inp r1).1 = (Next, r1))
      by reflexivity.
    destruct (forcedQuestioning focus inp r1) as [[fl2 r2] ev2].
    simpl in F. injection F as -> ->. simpl.
    pose proof (advance_shape r1) as [_ Ha]. specialize (Ha eq_refl).
    destruct (advance r1) as [[fl3 r3] ev3]. simpl in Ha.
    injection Ha as -> ->. simpl. right. auto.
Qed.

(** An iteration in which nobody plays changes the current index at most. *)
Lemma idle_iteration_shape (r : Round) :
  let g := game r in
  countAliveWithCards g ≤ 1
  ∨ canAct (playerAt g (currentPlayerIndex g)) = false →
  sameButTurn g (game (loopBody focus inp r).1.2).
Proof.
  intros g Hidle. unfold loopBody. fold g.
  destruct (countAliveWithCards g <=? 1) eqn:Hguard; [apply sameButTurn_refl|].
  apply Z.leb_gt in Hguard. destruct Hidle as [?|Hact]; [lia|].
  assert (Hskip : negb (Player.alive (playerAt g (currentPlayerIndex g)))
                  || bool_decide (Player.hand (playerAt g (currentPlayerIndex g)) = [])
                  = true).
  { unfold canAct in Hact.
    destruct (Player.alive (playerAt g (currentPlayerIndex g))); simpl in *;
      [|reflexivity]. apply negb_false_iff in Hact. exact Hact. }
  rewrite Hskip.
  destruct (skipStep_cases r) as [[_ E]|[_ E]]; rewrite E; simpl;
    [apply sameButTurn_refl | apply sameButTurn_withCurrent].
Qed.

Lemma loopBody_played (r : Round) :
  let g := game r in
  1 < countAliveWithCards g →
  canAct (playerAt g (currentPlayerIndex g)) = true →
  loopBody focus inp r
  = andThen (playTurn focus inp r)
      (λ r1, andThen (forcedQuestioning focus inp r1) advance).
Proof.
  intros g Hcount Hact. unfold loopBody. fold g.
  destruct (countAliveWithCards g <=? 1) eqn:Hguard;
    [apply Z.leb_le in Hguard; lia|].
  apply canAct_spec in Hact as [Halive Hhand].
  rewrite Halive. simpl. rewrite bool_decide_eq_false_2 by exact Hhand.
  reflexivity.
Qed.

End IterationShape.

(** ** Elimination *)

Lemma alive_playerAt (g : Game) (i : Z) :
  Player.alive (playerAt g i) = at_index false (map Player.alive (players g)) i.
Proof.
  unfold playerAt, at_index. destruct (i <? 0); [reflexivity|].
  change false with (Player.alive nobody). symmetry. apply map_nth.
Qed.

Lemma alive_same_map (g g' : Game) (j : Z) :
  map Player.alive (players g') = map Player.alive (players g) →
  Player.alive (playerAt g' j) = Player.alive (playerAt g j).
Proof. intros H. rewrite !alive_playerAt, H. reflexivity. Qed.

Lemma hand_same_map (g g' : Game) (j : Z) :
  map Player.hand (players g') = map Player.hand (players g) →
  Player.hand (playerAt g' j) = Player.hand (playerAt g j).
Proof. intros H. rewrite !hand_playerAt, H. reflexivity. Qed.

Lemma alter_dead_count (i : nat) (ps : list Player) :
  let count l := length (filter (λ p, Player.alive p = true) l) in
  (count (alter (Player.setAlive false) i ps) ≤ count ps
   ≤ S (count (alter (Player.setAlive false) i ps)))%nat.
Proof.
  simpl. revert i. induction ps as [|p ps IH]; intros i; [simpl; lia|].
  destruct i as [|i].
  - change (alter (Player.setAlive false) 0%nat (p :: ps))
      with (Player.setAlive false p :: ps).
    rewrite !filter_cons.
    destruct (decide (Player.alive (Player.setAlive false p) = true)) as [H|_];
      [discriminate H|].
    destruct (decide (Player.alive p = true)); simpl; lia.
  - change (alter (Player.setAlive false) (S i) (p :: ps))
      with (p :: alter (Player.setAlive false) i ps).
    rewrite !filter_cons. specialize (IH i).
    destruct (decide (Player.alive p = true)); simpl; lia.
Qed.

Lemma alter_dead_no_revival (i : nat) (ps : list Player) (j : Z) :
  Player.alive (at_index nobody (alter (Player.setAlive false) i ps) j) = true →
  Player.alive (at_index nobody ps j) = true.
Proof.
  unfold at_index. destruct (j <? 0); [discriminate|].
  pose proof (list_lookup_alter (Player.setAlive false) ps i (Z.to_nat j)) as Hl.
  destruct (decide (i = Z.to_nat j)) as [->|Hne].
  - destruct (ps !! Z.to_nat j) as [p|] eqn:Hp; simpl in Hl.
    + rewrite (nth_lookup_Some _ _ _ _ Hl). discriminate.
    + apply lookup_ge_None in Hp, Hl. rewrite !nth_overflow by lia. auto.
  - destruct (ps !! Z.to_nat j) as [p|] eqn:Hp.
    + rewrite (nth_lookup_Some _ _ _ _ Hl), (nth_lookup_Some _ _ _ _ Hp). auto.
    + apply lookup_ge_None in Hp, Hl. rewrite !nth_overflow by lia. auto.
Qed.

Lemma bombRisk_players (s rnd : Z) (g : Game) :
  players (bombRisk s rnd g).1 = players g
  ∨ players (bombRisk s rnd g).1
    = alter (Player.setAlive false) (Z.to_nat s) (players g).
Proof.
  destruct (bombRisk_cases s rnd g) as [[_ E]|[(_ & _ & E)|(_ & _ & E)]];
    rewrite E; simpl; auto; unfold updPlayer; destruct (s <? 0); simpl; auto.
Qed.

(** What the resolution of a challenge does to the seats. *)
Lemma resolved_effect (focus : Card) (inp : Inputs) (cur : Z) (g2 : Game) :
  let g' := resolved focus inp cur g2 in
  let next := getNextAlivePlayer g2 cur in
  let s := atFault next cur
             (recordedPlay (Player.name (playerAt g2 cur)) g2) focus in
  map Player.name (players g') = map Player.name (players g2)
  ∧ map Player.hand (players g') = map Player.hand (players g2)
  ∧ lastPlayedByIndex g' = lastPlayedByIndex g2
  ∧ (∀ j, Player.alive (playerAt g' j) = true →
          Player.alive (playerAt g2 j) = true)
  ∧ (∀ j, j ≠ s → playerAt g' j = playerAt g2 j)
  ∧ countAlivePlayers g2 - 1 ≤ countAlivePlayers g' ≤ countAlivePlayers g2
  ∧ (s = cur ∨ s = next).
Proof.
  intros g' next s.
  destruct (handleQuestioning_players next cur
              (recordedPlay (Player.name (playerAt g2 cur)) g2) focus
              (bombRand inp) g2) as (Hps & _ & Hlp).
  fold s in Hps, Hlp. change (players g' = players (bombRisk s (bombRand inp) g2).1) in Hps.
  change (lastPlayedByIndex g' = lastPlayedByIndex (bombRisk s (bombRand inp) g2).1) in Hlp.
  destruct (bombRisk_frame s (bombRand inp) g2) as (_ & Hl1 & _ & Hp1 & _).
  split; [rewrite Hps; apply bombRisk_names|].
  split; [rewrite Hps; apply bombRisk_hands|].
  split; [rewrite Hlp; exact Hl1|].
  split; [|split; [|split]].
  - intros j. unfold playerAt. rewrite Hps.
    destruct (bombRisk_players s (bombRand inp) g2) as [->| ->];
      [auto | apply alter_dead_no_revival].
  - intros j Hj. rewrite (playerAt_same_players _ _ j Hps). apply Hp1. exact Hj.
  - unfold countAlivePlayers. rewrite Hps.
    destruct (bombRisk_players s (bombRand inp) g2) as [->| ->]; [lia|].
    pose proof (alter_dead_count (Z.to_nat s) (players g2)). simpl in *. lia.
  - subst s. unfold atFault. destruct (negb _); auto.
Qed.

Lemma sameButTurn_players (g g' : Game) :
  sameButTurn g g' →
  (∀ j, playerAt g' j = playerAt g j)
  ∧ countAlivePlayers g' = countAlivePlayers g
  ∧ map Player.name (players g') = map Player.name (players g)
  ∧ map Player.alive (players g') = map Player.alive (players g)
  ∧ map Player.hand (players g') = map Player.hand (players g).
Proof.
  intros (Hp & _). unfold playerAt, countAlivePlayers. rewrite Hp. auto.
Qed.

(** X12. One iteration of the round loop eliminates at most one player
    and revives nobody: a player alive afterwards was alive before, the
    number of alive players drops by one at most, and no name moves. *)
Theorem iteration_eliminates_at_most_one
    (focus : Card) (inp : Inputs) (r : Round) :
  seated (game r) →
  roundOver r = false →
  let g := game r in
  let g' := game (loopBody focus inp r).1.2 in
  (∀ j, Player.alive (playerAt g' j) = true → Player.alive (playerAt g j) = true)
  ∧ countAlivePlayers g - 1 ≤ countAlivePlayers g' ≤ countAlivePlayers g
  ∧ map Player.name (players g') = map Player.name (players g).
Proof.
  intros Hseat Hover g g'.
  destruct (decide (1 < countAliveWithCards g)) as [Hcount|Hcount];
    [destruct (canAct (playerAt g (currentPlayerIndex g))) eqn:Hact|].
  - pose proof (playedFrom_afterPlay inp g) as (_ & _ & _ & Hn2 & Ha2 & _).
    subst g'. rewrite (loopBody_played focus inp r Hcount Hact).
    destruct (played_iteration_shape focus inp r Hseat Hover Hcount)
      as [Hp|(_ & _ & -> & _)].
    + fold g in Hp.
      apply sameButTurn_players in Hp as (Hj & Hc & Hn & _).
      split; [|split; [|congruence]].
      * intros j. rewrite Hj, (alive_same_map g (afterPlay inp g) j Ha2). auto.
      * rewrite Hc, (countAlivePlayers_alive g (afterPlay inp g) Ha2). lia.
    + fold g.
      destruct (resolved_effect focus inp (currentPlayerIndex g) (afterPlay inp g))
        as (Hn & _ & _ & Hal & _ & Hc & _).
      split; [|split; [|congruence]].
      * intros j Hj. rewrite <- (alive_same_map g (afterPlay inp g) j Ha2).
        apply Hal. exact Hj.
      * rewrite (countAlivePlayers_alive g (afterPlay inp g) Ha2) in Hc. exact Hc.
  - pose proof (idle_iteration_shape focus inp r (or_intror Hact)) as Hp.
    apply sameButTurn_players in Hp as (Hj & Hc & Hn & _).
    fold g g' in Hj, Hc, Hn.
    split; [intros j; rewrite Hj; auto|]. split; [lia | exact Hn].
  - assert (Hle : countAliveWithCards g ≤ 1) by lia.
    pose proof (idle_iteration_shape focus inp r (or_introl Hle)) as Hp.
    apply sameButTurn_players in Hp as (Hj & Hc & Hn & _).
    fold g g' in Hj, Hc, Hn.
    split; [intros j; rewrite Hj; auto|]. split; [lia | exact Hn].
Qed.

Lemma iteration_eliminates_at_most_one_witness :
  let inp := Scenario.bot 2 false false in
  let r := mkRound Scenario.lastCards false false in
  seated (game r)
  ∧ roundOver r = false
  ∧ countAlivePlayers (game r) - 1
    ≤ countAlivePlayers (game (loopBody "Moon" inp r).1.2).
Proof.
  assert (Hs : seated Scenario.lastCards)
    by (vm_compute; split; [discriminate | reflexivity]).
  split; [exact Hs|]. split; [reflexivity|].
  exact (proj1 (proj1 (proj2 (iteration_eliminates_at_most_one "Moon"
                                (Scenario.bot 2 false false)
                                (mkRound Scenario.lastCards false false)
                                Hs eq_refl)))).
Defined.

(** X13. A challenge ends the round: if the round is not over after an
    iteration, the iteration changed no alive flag and no survive counter
    (so no bomb was risked in it). *)
Theorem round_continues_only_without_challenge
    (focus : Card) (inp : Inputs) (r : Round) :
  seated (game r) →
  roundOver r = false →
  let g := game r in
  let r' := (loopBody focus inp r).1.2 in
  roundOver r' = false →
  map Player.alive (players (game r')) = map Player.alive (players g)
  ∧ surviveCount (game r') = surviveCount g.
Proof.
  intros Hseat Hover g r' Hcont.
  destruct (decide (1 < countAliveWithCards g)) as [Hcount|Hcount];
    [destruct (canAct (playerAt g (currentPlayerIndex g))) eqn:Hact|].
  - pose proof (playedFrom_afterPlay inp g) as (_ & _ & Hs2 & _ & Ha2 & _).
    subst r'. rewrite (loopBody_played focus inp r Hcount Hact) in Hcont |- *.
    destruct (played_iteration_shape focus inp r Hseat Hover Hcount)
      as [Hsb|(_ & _ & _ & Hro & _)].
    + destruct Hsb as (Hp & Hs & _). fold g in Hp, Hs. rewrite Hp, Hs. auto.
    + rewrite Hro in Hcont. discriminate.
  - pose proof (idle_iteration_shape focus inp r (or_intror Hact)) as Hsb.
    destruct Hsb as (Hp & Hs & _). fold g r' in Hp, Hs. rewrite Hp, Hs. auto.
  - assert (Hle : countAliveWithCards g ≤ 1) by lia.
    pose proof (idle_iteration_shape focus inp r (or_introl Hle)) as Hsb.
    destruct Hsb as (Hp & Hs & _). fold g r' in Hp, Hs. rewrite Hp, Hs. auto.
Qed.

Lemma round_continues_only_without_challenge_witness :
  let inp := Scenario.bot 1 false false in
  let r := mkRound Scenario.bot1Empty false false in
  seated (game r)
  ∧ roundOver r = false
  ∧ roundOver (loopBody "Sun" inp r).1.2 = false
  ∧ surviveCount (game (loopBody "Sun" inp r).1.2) = surviveCount (game r).
Proof.
  assert (Hs : seated Scenario.bot1Empty)
    by (vm_compute; split; [discriminate | reflexivity]).
  assert (Hc : roundOver (loopBody "Sun" (Scenario.bot 1 false false)
                            (mkRound Scenario.bot1Empty false false)).1.2 = false)
    by (vm_compute; reflexivity).
  split; [exact Hs|]. split; [reflexivity|]. split; [exact Hc|].
  exact (proj2 (round_continues_only_without_challenge "Sun"
                  (Scenario.bot 1 false false)
                  (mkRound Scenario.bot1Empty false false) Hs eq_refl Hc)).
Defined.

(** ** Cards only leave hands *)

Lemma eraseAt_sublist (idx : Z) (h : list Card) :
  Player.eraseAt idx h `sublist_of` h.
Proof.
  unfold Player.eraseAt. destruct (_ && _); [apply sublist_delete | reflexivity].
Qed.

Lemma takeChosen_sublist (idxs : list Z) (h played : list Card) :
  (takeChosen idxs h played).2 `sublist_of` h.
Proof.
  revert h played. induction idxs as [|idx idxs IH]; intros h played; simpl;
    [reflexivity|].
  etransitivity; [apply IH | apply eraseAt_sublist].
Qed.

Lemma humanPlay_sublist (sel : list Z) (p : Player) :
  Player.hand (humanPlay sel p).2 `sublist_of` Player.hand p.
Proof.
  unfold humanPlay.
  pose proof (takeChosen_sublist (sortDescending sel) (Player.hand p) []) as H.
  destruct (takeChosen _ _ _) as [played h]. exact H.
Qed.

Lemma playCards_sublist (n : Z) (p : Player) :
  Player.hand (Player.playCards n p).2 `sublist_of` Player.hand p.
Proof.
  destruct (popBack_spec (Z.to_nat n) (Player.hand p)) as (_ & _ & Hrest).
  unfold Player.playCards.
  destruct (Player.popBack (Z.to_nat n) (Player.hand p) []) as [played h].
  simpl in *. subst h. apply sublist_take.
Qed.

(** The player with the turn after the play: the result of the member
    call on the player before it. *)
Lemma afterPlay_current (inp : Inputs) (g : Game) :
  seated g →
  let cur := currentPlayerIndex g in
  playerAt (afterPlay inp g) cur
  = if String.eqb (Player.name (playerAt g cur)) "Human"
    then (humanPlay (chosen inp) (playerAt g cur)).2
    else (Player.playCards (Z.rem (playRand inp) 3 + 1) (playerAt g cur)).2.
Proof.
  intros Hseat cur. unfold afterPlay. fold cur.
  destruct (String.eqb (Player.name (playerAt g cur)) "Human").
  - unfold humanPlays. simpl.
    rewrite (playerAt_same_players _ _ cur
               (proj1 (recordPlay_frame _ _ _))).
    apply (playerAt_updPlayer_eq cur (λ p, (humanPlay (chosen inp) p).2) g Hseat).
  - unfold botPlays. simpl.
    rewrite (playerAt_same_players _ _ cur
               (proj1 (recordPlay_frame _ _ _))).
    apply (playerAt_updPlayer_eq cur
             (λ p, (Player.playCards (Z.rem (playRand inp) 3 + 1) p).2) g Hseat).
Qed.

Lemma afterPlay_hand_sublist (inp : Inputs) (g : Game) (j : Z) :
  seated g →
  Player.hand (playerAt (afterPlay inp g) j) `sublist_of` Player.hand (playerAt g j).
Proof.
  intros Hseat. destruct (decide (j = currentPlayerIndex g)) as [->|Hne].
  - rewrite (afterPlay_current inp g Hseat).
    case_match; [apply humanPlay_sublist | apply playCards_sublist].
  - destruct (playedFrom_afterPlay inp g) as (_ & _ & _ & _ & _ & Ho).
    rewrite (Ho j Hne). reflexivity.
Qed.

(** The hands after an iteration, seat by seat. *)
Lemma iteration_hands (focus : Card) (inp : Inputs) (r : Round) :
  seated (game r) →
  roundOver r = false →
  let g := game r in
  let g' := game (loopBody focus inp r).1.2 in
  map Player.hand (players g') = map Player.hand (players g)
  ∨ (1 < countAliveWithCards g
     ∧ canAct (playerAt g (currentPlayerIndex g)) = true
     ∧ map Player.hand (players g') = map Player.hand (players (afterPlay inp g))).
Proof.
  intros Hseat Hover g g'.
  destruct (decide (1 < countAliveWithCards g)) as [Hcount|Hcount];
    [destruct (canAct (playerAt g (currentPlayerIndex g))) eqn:Hact|].
  - right. split; [exact Hcount|]. split; [reflexivity|].
    subst g'. rewrite (loopBody_played focus inp r Hcount Hact).
    destruct (played_iteration_shape focus inp r Hseat Hover Hcount)
      as [Hp|(_ & _ & -> & _)].
    + apply sameButTurn_players in Hp. apply Hp.
    + apply resolved_effect.
  - left. pose proof (idle_iteration_shape focus inp r (or_intror Hact)) as Hp.
    apply sameButTurn_players in Hp. apply Hp.
  - left. assert (Hle : countAliveWithCards g ≤ 1) by lia.
    pose proof (idle_iteration_shape focus inp r (or_introl Hle)) as Hp.
    apply sameButTurn_players in Hp. apply Hp.
Qed.

(** X14. One iteration of the round loop never puts a card into a hand:
    the hand of every seat afterwards is a sublist of the hand before, and
    the hand of every seat other than the current one is the hand
    before. *)
Theorem hands_only_shrink (focus : Card) (inp : Inputs) (r : Round) :
  seated (game r) →
  roundOver r = false →
  let g := game r in
  let g' := game (loopBody focus inp r).1.2 in
  (∀ j, Player.hand (playerAt g' j) `sublist_of` Player.hand (playerAt g j))
  ∧ (∀ j, j ≠ currentPlayerIndex g →
          Player.hand (playerAt g' j) = Player.hand (playerAt g j)).
Proof.
  intros Hseat Hover g g'.
  destruct (iteration_hands focus inp r Hseat Hover) as [Hh|(_ & _ & Hh)];
    fold g g' in Hh.
  - split; intros j; intros; rewrite (hand_same_map g g' j Hh); reflexivity.
  - split; intros j; intros; rewrite (hand_same_map _ g' j Hh).
    + apply afterPlay_hand_sublist. exact Hseat.
    + destruct (playedFrom_afterPlay inp g) as (_ & _ & _ & _ & _ & Ho).
      rewrite (Ho j) by assumption. reflexivity.
Qed.

Lemma hands_only_shrink_witness :
  let inp := Scenario.bot 2 false false in
  let r := mkRound Scenario.lastCards false false in
  seated (game r)
  ∧ roundOver r = false
  ∧ Player.hand (playerAt (game (loopBody "Moon" inp r).1.2) 1)
    `sublist_of` Player.hand (playerAt (game r) 1).
Proof.
  assert (Hs : seated Scenario.lastCards)
    by (vm_compute; split; [discriminate | reflexivity]).
  split; [exact Hs|]. split; [reflexivity|].
  exact (proj1 (hands_only_shrink "Moon" (Scenario.bot 2 false false)
                  (mkRound Scenario.lastCards false false) Hs eq_refl) 1).
Defined.

(** ** Somebody is always alive *)

Lemma alive_seat_counts (g : Game) (j : Z) :
  Player.alive (playerAt g j) = true →
  1 ≤ countAlivePlayers g
  ∧ ∃ nm, winner g = Some nm
          ∧ ∃ p, p ∈ players g ∧ Player.name p = nm ∧ Player.alive p = true.
Proof.
  intros Ha.
  assert (Hin : playerAt g j ∈ players g).
  { unfold playerAt in *. destruct (at_index_cases nobody (players g) j)
      as [[_ Hl]|[_ Hd]].
    - apply list_elem_of_lookup. eauto.
    - rewrite Hd in Ha. discriminate. }
  split.
  - unfold countAlivePlayers.
    assert (Hf : playerAt g j ∈ filter (λ p, Player.alive p = true) (players g))
      by (apply list_elem_of_filter; auto).
    destruct (filter _ (players g)); [inversion Hf | simpl; lia].
  - unfold winner.
    destruct (List.find Player.alive (players g)) as [p|] eqn:Hfind.
    + apply find_some in Hfind as [Hp Hal].
      exists (Player.name p). split; [reflexivity|].
      exists p. split; [apply list_elem_of_In; exact Hp | auto].
    + exfalso. pose proof (find_none _ _ Hfind (playerAt g j)) as Hn.
      rewrite Hn in Ha; [discriminate | apply list_elem_of_In; exact Hin].
Qed.

(** Of the two parties of a challenge, the one not at fault stays alive. *)
Lemma resolved_leaves_one_alive (focus : Card) (inp : Inputs) (cur : Z) (g2 : Game) :
  getNextAlivePlayer g2 cur ≠ -1 →
  getNextAlivePlayer g2 cur ≠ cur →
  Player.alive (playerAt g2 cur) = true →
  ∃ j, Player.alive (playerAt (resolved focus inp cur g2) j) = true.
Proof.
  intros Hnext Hother Hcur.
  destruct (resolved_effect focus inp cur g2) as (_ & _ & _ & _ & Hsame & _ & Hs).
  destruct (getNextAlivePlayer_found g2 cur Hnext) as [_ Hc].
  apply canAct_spec in Hc as [Hnalive _].
  destruct Hs as [Hs|Hs].
  - exists (getNextAlivePlayer g2 cur). rewrite Hsame by congruence. exact Hnalive.
  - exists cur. rewrite Hsame by congruence. exact Hcur.
Qed.

Lemma iteration_leaves_one_alive (focus : Card) (inp : Inputs) (r : Round) :
  seated (game r) →
  roundOver r = false →
  (∃ j, Player.alive (playerAt (game r) j) = true) →
  ∃ j, Player.alive (playerAt (game (loopBody focus inp r).1.2) j) = true.
Proof.
  intros Hseat Hover [j Hj]. set (g := game r) in *.
  destruct (decide (1 < countAliveWithCards g)) as [Hcount|Hcount];
    [destruct (canAct (playerAt g (currentPlayerIndex g))) eqn:Hact|].
  - pose proof (playedFrom_afterPlay inp g) as (_ & _ & _ & _ & Ha2 & _).
    rewrite (loopBody_played focus inp r Hcount Hact).
    destruct (played_iteration_shape focus inp r Hseat Hover Hcount)
      as [Hp|(Hnext & Hother & -> & _)].
    + apply sameButTurn_players in Hp as (Hsame & _). exists j.
      rewrite Hsame. fold g. rewrite (alive_same_map g _ j Ha2). exact Hj.
    + fold g. apply resolved_leaves_one_alive; try assumption.
      rewrite (alive_same_map g _ _ Ha2). apply canAct_spec in Hact. apply Hact.
  - pose proof (idle_iteration_shape focus inp r (or_intror Hact)) as Hp.
    apply sameButTurn_players in Hp as (Hsame & _). exists j.
    rewrite Hsame. exact Hj.
  - assert (Hle : countAliveWithCards g ≤ 1) by lia.
    pose proof (idle_iteration_shape focus inp r (or_introl Hle)) as Hp.
    apply sameButTurn_players in Hp as (Hsame & _). exists j.
    rewrite Hsame. exact Hj.
Qed.

Lemma reachable_one_alive (g : Game) :
  reachable g → ∃ j, Player.alive (playerAt g j) = true.
Proof.
  induction 1 as [r Hr | g cards Hg IH _ | g focus inp asked Hg IH].
  - exists 0. reflexivity.
  - destruct IH as [j Hj]. exists j.
    rewrite (alive_same_map g); [exact Hj|].
    apply Forall2_alive_map.
    pose proof (dealTo_names 5 (players g) cards) as Hn.
    unfold dealCardsToAlive. simpl.
    clear. generalize cards. induction (players g) as [|p ps IHp]; intros c;
      simpl; [constructor|].
    destruct (Player.alive p) eqn:Ha.
    + destruct (deal 5 c) as [h c']. constructor; [simpl; congruence | apply IHp].
    + constructor; [congruence | apply IHp].
  - destruct (reachable_invariant g Hg) as (_ & Hseat & _).
    apply (iteration_leaves_one_alive focus inp (mkRound g false asked));
      [exact Hseat | reflexivity | exact IH].
Qed.

(** X15. In every reachable state at least one player is alive, so the
    scan that announces the winner always finds a player, and the player
    it names is alive. *)
Theorem somebody_is_always_alive (g : Game) :
  reachable g →
  1 ≤ countAlivePlayers g
  ∧ ∃ nm, winner g = Some nm
          ∧ ∃ p, p ∈ players g ∧ Player.name p = nm ∧ Player.alive p = true.
Proof.
  intros Hr. destruct (reachable_one_alive g Hr) as [j Hj].
  exact (alive_seat_counts g j Hj).
Qed.

Lemma somebody_is_always_alive_witness :
  reachable Scenario.lastCards ∧ 1 ≤ countAlivePlayers Scenario.lastCards.
Proof.
  split; [exact reachable_lastCards|].
  exact (proj1 (somebody_is_always_alive Scenario.lastCards reachable_lastCards)).
Defined.

(** ** Every round ends *)

Lemma totalCards_hands (g g' : Game) :
  map Player.hand (players g') = map Player.hand (players g) →
  totalCards g' = totalCards g.
Proof.
  unfold totalCards. intros H.
  rewrite <- !(map_map Player.hand (@length Card)), H. reflexivity.
Qed.

Lemma sum_alter (f : Player → Player) (i : nat) (ps : list Player) (p : Player) :
  ps !! i = Some p →
  (sum_list (map (λ q, length (Player.hand q)) (alter f i ps))
   + length (Player.hand p)
   = sum_list (map (λ q, length (Player.hand q)) ps)
     + length (Player.hand (f p)))%nat.
Proof.
  revert i. induction ps as [|q ps IH]; intros i Hi; [discriminate|].
  destruct i as [|i]; simpl in *.
  - injection Hi as ->. lia.
  - specialize (IH i Hi). change (list_alter f i ps) with (alter f i ps). lia.
Qed.

Lemma totalCards_afterPlay (inp : Inputs) (g : Game) :
  seated g →
  let cur := currentPlayerIndex g in
  (totalCards (afterPlay inp g) + length (Player.hand (playerAt g cur))
   = totalCards g + length (Player.hand (playerAt (afterPlay inp g) cur)))%nat.
Proof.
  intros Hseat cur. subst cur. rewrite (afterPlay_current inp g Hseat).
  set (cur := currentPlayerIndex g).
  unfold seated, numPlayers in Hseat. fold cur in Hseat.
  destruct (lookup_lt_is_Some_2 (players g) (Z.to_nat cur) ltac:(lia)) as [p Hp].
  assert (Hme : playerAt g cur = p)
    by (apply at_index_lookup; [lia | exact Hp]).
  rewrite Hme.
  assert (Hneg : (cur <? 0) = false) by (apply Z.ltb_ge; lia).
  unfold afterPlay. fold cur. rewrite Hme.
  destruct (String.eqb (Player.name p) "Human").
  - unfold totalCards, humanPlays. simpl.
    rewrite (proj1 (recordPlay_frame _ _ _)). unfold updPlayer. rewrite Hneg.
    simpl. apply (sum_alter (λ q, (humanPlay (chosen inp) q).2) _ _ _ Hp).
  - unfold totalCards, botPlays. simpl.
    rewrite (proj1 (recordPlay_frame _ _ _)). unfold updPlayer. rewrite Hneg.
    simpl.
    apply (sum_alter (λ q, (Player.playCards (Z.rem (playRand inp) 3 + 1) q).2)
             _ _ _ Hp).
Qed.

Lemma foldl_eraseAt_length (idxs : list Z) (h : list Card) :
  StronglySorted Z.gt idxs →
  Forall (λ i, 0 ≤ i < Z.of_nat (length h)) idxs →
  (length (foldl (λ h' i, Player.eraseAt i h') h idxs) + length idxs
   = length h)%nat.
Proof.
  intros Hs. revert h.
  induction Hs as [|idx rest Hs IH Hgt]; intros h Hin; simpl; [lia|].
  apply Forall_cons in Hin as [Hidx Hrest].
  pose proof (HumanPlay.length_eraseAt h idx Hidx) as Hlen.
  assert (Hrest' : Forall (λ i, 0 ≤ i < Z.of_nat (length (Player.eraseAt idx h)))
                     rest).
  { rewrite Forall_forall in Hgt, Hrest |- *. intros i Hi.
    specialize (Hgt i Hi). specialize (Hrest i Hi). lia. }
  specialize (IH (Player.eraseAt idx h) Hrest'). lia.
Qed.

Lemma humanPlay_length (sel : list Z) (p : Player) :
  validSelection sel (Player.hand p) →
  (length (Player.hand (humanPlay sel p).2) + length sel
   = length (Player.hand p))%nat
  ∧ length (humanPlay sel p).1 = length sel.
Proof.
  intros (_ & Hnd & Hin).
  pose proof (HumanPlay.sortDescending_perm sel) as Hperm.
  pose proof (HumanPlay.sortDescending_strict sel Hnd) as Hsorted.
  assert (Hin' : Forall (λ i, 0 ≤ i < Z.of_nat (length (Player.hand p)))
                   (sortDescending sel)) by (rewrite Hperm; exact Hin).
  unfold humanPlay.
  rewrite (HumanPlay.takeChosen_descending _ _ [] Hsorted Hin'). simpl.
  rewrite length_rev, length_map, <- (Permutation_length Hperm).
  split; [apply foldl_eraseAt_length; assumption | reflexivity].
Qed.

(** A play takes at least one card from the hand of the player who plays. *)
Lemma play_shrinks_hand (inp : Inputs) (g : Game) :
  let cur := currentPlayerIndex g in
  seated g →
  canAct (playerAt g cur) = true →
  0 ≤ playRand inp →
  (Player.name (playerAt g cur) = "Human"%string →
   validSelection (chosen inp) (Player.hand (playerAt g cur))) →
  (totalCards (afterPlay inp g) < totalCards g)%nat.
Proof.
  intros cur Hseat Hact Hrand Hsel.
  pose proof (totalCards_afterPlay inp g Hseat) as Htot. simpl in Htot.
  rewrite (afterPlay_current inp g Hseat) in Htot. fold cur in Htot.
  apply canAct_spec in Hact as [_ Hhand].
  assert (Hpos : (0 < length (Player.hand (playerAt g cur)))%nat)
    by (destruct (Player.hand (playerAt g cur)); [contradiction | simpl; lia]).
  destruct (String.eqb_spec (Player.name (playerAt g cur)) "Human") as [Hh|Hh].
  - specialize (Hsel Hh). destruct (humanPlay_length _ _ Hsel) as [Hlen _].
    destruct Hsel as (Hne & _).
    assert (0 < length (chosen inp))%nat
      by (destruct (chosen inp); [contradiction | simpl; lia]).
    lia.
  - destruct (playCards_popBack (Z.rem (playRand inp) 3 + 1) (playerAt g cur))
      as (Happ & Hlen).
    apply (f_equal length) in Happ. rewrite length_app, length_rev in Happ.
    pose proof (bot_count_range _ Hrand). lia.
Qed.

Section RoundEnds.

Variable focus : Card.

(** How an iteration can leave the loop through [break]: with the flag
    set, or at the guard, with nothing changed. *)
Lemma loopBody_break (inp : Inputs) (r : Round) :
  roundOver r = false →
  (loopBody focus inp r).1.1 = Break →
  roundOver (loopBody focus inp r).1.2 = true
  ∨ (countAliveWithCards (game r) ≤ 1 ∧ (loopBody focus inp r).1.2 = r).
Proof.
  intros Hover. unfold loopBody.
  destruct (countAliveWithCards (game r) <=? 1) eqn:Hguard;
    [apply Z.leb_le in Hguard; simpl; auto|].
  destruct (negb _ || _).
  - destruct (skipStep_cases r) as [[_ E]|[_ E]]; rewrite E; simpl;
      [auto | discriminate].
  - destruct (playTurn_shape focus inp r) as [[_ E]|[_ [E|E]]];
      destruct (playTurn focus inp r) as [[fl r1] ev1]; simpl in E;
      injection E as -> ->; simpl; [auto| |].
    + set (r1 := mkRound (afterPlay inp (game r)) (roundOver r)
                   (anyQuestionAsked r)).
      destruct (forcedQuestioning_shape focus inp r1) as [F|[F|(_ & _ & _ & F)]];
        destruct (forcedQuestioning focus inp r1) as [[fl2 r2] ev2]; simpl in F;
        injection F as -> ->; simpl; [|auto|].
      * assert (Hr1 : roundOver r1 = false) by exact Hover.
        destruct (advance_cases r1 Hr1) as [[_ E]|[_ E]]; rewrite E; simpl;
          [auto | discriminate].
      * pose proof (advance_shape (mkRound (resolved focus inp
                        (currentPlayerIndex (afterPlay inp (game r)))
                        (afterPlay inp (game r))) true true)) as [_ Ha].
        specialize (Ha eq_refl). destruct (advance _) as [[fl3 r3] ev3].
        simpl in Ha. injection Ha as -> ->. simpl. discriminate.
    + set (r1 := mkRound _ true true).
      assert (F : (forcedQuestioning focus inp r1).1 = (Next, r1)) by reflexivity.
      destruct (forcedQuestioning focus inp r1) as [[fl2 r2] ev2].
      simpl in F. injection F as -> ->. simpl.
      pose proof (advance_shape r1) as [_ Ha]. specialize (Ha eq_refl).
      destruct (advance r1) as [[fl3 r3] ev3]. simpl in Ha.
      injection Ha as -> ->. simpl. discriminate.
Qed.

(** An iteration that goes on to the loop test has ended the round or
    used up some of the measure. *)
Lemma iteration_progress (inp : Inputs) (r : Round) :
  let g := game r in
  let cur := currentPlayerIndex g in
  seated g →
  roundOver r = false →
  0 ≤ playRand inp →
  (Player.name (playerAt g cur) = "Human"%string →
   Player.hand (playerAt g cur) ≠ [] →
   validSelection (chosen inp) (Player.hand (playerAt g cur))) →
  (loopBody focus inp r).1.1 = Next →
  (roundMeasure (loopBody focus inp r).1.2 < roundMeasure r)%nat.
Proof.
  intros g cur Hseat Hover Hrand Hsel Hnext.
  destruct (decide (1 < countAliveWithCards g)) as [Hcount|Hcount].
  - destruct (canAct (playerAt g cur)) eqn:Hact.
    + destruct (iteration_hands focus inp r Hseat Hover) as [Hh|(_ & _ & Hh)];
        fold g in Hh.
      * exfalso. (* a play changes the hands *)
        pose proof (totalCards_hands _ _ Hh) as Ht.
        rewrite (loopBody_played focus inp r Hcount Hact) in Ht.
        destruct (played_iteration_shape focus inp r Hseat Hover Hcount)
          as [Hp|(_ & _ & Hg & _)].
        -- apply sameButTurn_players in Hp as (_ & _ & _ & _ & Hh2).
           fold g in Hh2. pose proof (totalCards_hands _ _ Hh2) as Ht2.
           pose proof (play_shrinks_hand inp g Hseat Hact Hrand) as Hlt.
           fold cur in Hlt.
           assert (Hne : Player.hand (playerAt g cur) ≠ [])
             by (apply canAct_spec in Hact; apply Hact).
           specialize (Hlt (λ Hh', Hsel Hh' Hne)). lia.
        -- fold g in Hg.
           destruct (resolved_effect focus inp (currentPlayerIndex g)
                       (afterPlay inp g)) as (_ & Hh2 & _).
           rewrite <- Hg in Hh2. pose proof (totalCards_hands _ _ Hh2) as Ht2.
           pose proof (play_shrinks_hand inp g Hseat Hact Hrand) as Hlt.
           fold cur in Hlt.
           assert (Hne : Player.hand (playerAt g cur) ≠ [])
             by (apply canAct_spec in Hact; apply Hact).
           specialize (Hlt (λ Hh', Hsel Hh' Hne)). lia.
      * pose proof (totalCards_hands _ _ Hh) as Ht.
        pose proof (play_shrinks_hand inp g Hseat Hact Hrand) as Hlt.
        fold cur in Hlt.
        assert (Hne : Player.hand (playerAt g cur) ≠ [])
          by (apply canAct_spec in Hact; apply Hact).
        specialize (Hlt (λ Hh', Hsel Hh' Hne)).
        unfold roundMeasure. fold g cur. rewrite Ht, Hact.
        case_match; lia.
    + revert Hnext. unfold roundMeasure, loopBody. fold g cur.
      destruct (countAliveWithCards g <=? 1) eqn:Hguard;
        [apply Z.leb_le in Hguard; lia|].
      assert (Hskip : negb (Player.alive (playerAt g cur))
                      || bool_decide (Player.hand (playerAt g cur) = []) = true).
      { unfold canAct in Hact. destruct (Player.alive (playerAt g cur));
          simpl in *; [|reflexivity]. apply negb_false_iff in Hact. exact Hact. }
      rewrite Hskip, Hact.
      destruct (skipStep_cases r) as [[_ E]|[Hne E]]; rewrite E; simpl;
        [discriminate|]. intros _.
      destruct (getNextAlivePlayer_found g cur Hne) as [_ Hc].
      change (playerAt (withCurrent ?i ?h) ?j) with (playerAt h j).
      fold g cur. rewrite Hc.
      change (totalCards (withCurrent ?i ?h)) with (totalCards h). lia.
  - exfalso. revert Hnext. unfold loopBody. fold g.
    destruct (countAliveWithCards g <=? 1) eqn:Hguard;
      [discriminate | apply Z.leb_gt in Hguard; lia].
Qed.

Variable inps : nat → Game → Inputs.
Hypothesis Hplayable : playable inps.

Lemma runRound_enough (fuel : nat) :
  ∀ (k : nat) (r : Round),
    seated (game r) →
    ((if roundOver r then 1 else roundMeasure r + 2) ≤ fuel)%nat →
    ∃ res, runRound fuel focus inps k r = Some res
           ∧ (roundOver res.1 = true ∨ countAliveWithCards (game res.1) ≤ 1).
Proof.
  induction fuel as [|fuel IH]; intros k r Hseat Hfuel.
  - destruct (roundOver r); lia.
  - simpl. destruct (roundOver r) eqn:Hover.
    + exists (r, []). simpl. auto.
    + destruct (Hplayable k (game r)) as [Hrand Hsel].
      pose proof (iteration_progress (inps k (game r)) r Hseat Hover Hrand Hsel)
        as Hprog.
      pose proof (loopBody_break (inps k (game r)) r Hover) as Hbreak.
      destruct (keeps_loopBody focus (inps k (game r)) r) as (_ & _ & Hseat').
      specialize (Hseat' Hseat).
      destruct (loopBody focus (inps k (game r)) r) as [[[|] r'] ev];
        simpl in *.
      * exists (r', ev). split; [reflexivity|]. simpl.
        destruct (Hbreak eq_refl) as [?|[? ->]]; auto.
      * specialize (Hprog eq_refl).
        destruct (IH (S k) r' Hseat') as ([r'' ev'] & Hrun & Hend).
        { destruct (roundOver r'); lia. }
        rewrite Hrun. exists (r'', ev ++ ev'). auto.
Qed.

End RoundEnds.

(** X16. Every round ends.  With inputs the program can get ([rand()] not
    negative, and for the human a non-empty selection of distinct
    positions of the hand, as the prompts yield), the inner loop started
    in any game whose current index is a seat finishes within
    [2 * cards + 3] iterations, the cards counted over all hands; and it
    finishes with the round flagged over or with at most one player left
    who is alive with cards. *)
Theorem round_terminates (focus : Card) (inps : nat → Game → Inputs)
    (k : nat) (r : Round) :
  seated (game r) →
  playable inps →
  ∃ res, runRound (2 * totalCards (game r) + 3) focus inps k r = Some res
         ∧ (roundOver res.1 = true ∨ countAliveWithCards (game res.1) ≤ 1).
Proof.
  intros Hseat Hplay. apply runRound_enough; [exact Hplay | exact Hseat|].
  unfold roundMeasure. destruct (roundOver r); [lia|]. case_match; lia.
Qed.

Lemma playable_first_card :
  playable (λ _ _, mkInputs [0] "n" 0 50 1).
Proof.
  intros k g. simpl. split; [lia|]. intros _ Hne.
  split; [discriminate|]. split; [apply NoDup_singleton|].
  constructor; [|constructor].
  destruct (Player.hand (playerAt g (currentPlayerIndex g)));
    [contradiction | simpl; lia].
Qed.

Lemma round_terminates_witness :
  let inps := λ (_ : nat) (_ : Game), mkInputs [0] "n" 0 50 1 in
  let r := mkRound Scenario.bot1Empty false false in
  seated (game r)
  ∧ playable inps
  ∧ ∃ res, runRound (2 * totalCards (game r) + 3) "Sun" inps 0 r = Some res
           ∧ (roundOver res.1 = true ∨ countAliveWithCards (game res.1) ≤ 1).
Proof.
  assert (Hs : seated Scenario.bot1Empty)
    by (vm_compute; split; [discriminate | reflexivity]).
  split; [exact Hs|]. split; [exact playable_first_card|].
  exact (round_terminates "Sun" (λ _ _, mkInputs [0] "n" 0 50 1) 0
           (mkRound Scenario.bot1Empty false false) Hs playable_first_card).
Defined.

(** ** The game as a whole *)

Lemma runRound_reachable (fuel : nat) (focus : Card)
    (inps : nat → Game → Inputs) :
  ∀ (k : nat) (r : Round) (res : Round * list Event),
    reachable (game r) →
    runRound fuel focus inps k r = Some res →
    reachable (game res.1).
Proof.
  induction fuel as [|fuel IH]; intros k r res Hr Hrun; [discriminate|].
  simpl in Hrun. destruct (roundOver r) eqn:Hover.
  - injection Hrun as <-. exact Hr.
  - assert (Hstep : reachable (game (loopBody focus (inps k (game r)) r).1.2)).
    { destruct r as [g ro aq]. simpl in Hover. subst ro.
      apply reach_turn. exact Hr. }
    destruct (loopBody focus (inps k (game r)) r) as [[[|] r'] ev]; simpl in *.
    + injection Hrun as <-. exact Hstep.
    + destruct (runRound fuel focus inps (S k) r') as [[r'' ev']|] eqn:Hrec;
        [|discriminate].
      injection Hrun as <-. exact (IH (S k) r' _ Hstep Hrec).
Qed.

Lemma playRounds_stops_after_a_deal (innerFuel : nat) (ins : nat → RoundInputs)
    (fuel : nat) :
  (∀ k, roundDeck (ins k) ≡ₚ freshDeck) →
  ∀ (k : nat) (g0 : Game) (deck : list Card) (g : Game),
    reachable g0 →
    deck ≡ₚ freshDeck →
    playRounds fuel innerFuel ins k (dealCardsToAlive 5 deck g0) = Some g →
    ∃ g1 deck', reachable g1 ∧ deck' ≡ₚ freshDeck
                ∧ g = dealCardsToAlive 5 deck' g1
                ∧ countAliveWithCards g ≤ 1.
Proof.
  intros Hdecks. induction fuel as [|fuel IH]; intros k g0 deck g Hr Hperm Hrun;
    [discriminate|].
  simpl in Hrun.
  destruct (1 <? countAliveWithCards (dealCardsToAlive 5 deck g0)) eqn:Hloop.
  - destruct (runRound innerFuel (roundFocus (ins k)) (roundTurns (ins k)) 0
                (mkRound (dealCardsToAlive 5 deck g0) false false))
      as [[r' ev]|] eqn:Hround; [|discriminate].
    apply (IH (S k) (game r') (roundDeck (ins k)) g); [|apply Hdecks|exact Hrun].
    apply (runRound_reachable innerFuel (roundFocus (ins k)) (roundTurns (ins k))
             0 (mkRound (dealCardsToAlive 5 deck g0) false false) (r', ev));
      [exact (reach_deal g0 deck Hr Hperm) | exact Hround].
  - injection Hrun as <-. apply Z.ltb_ge in Hloop.
    exists g0, deck. auto.
Qed.

Lemma find_head_filter (ps : list Player) :
  List.find Player.alive ps = head (filter (λ p, Player.alive p = true) ps).
Proof.
  induction ps as [|p ps IH]; [reflexivity|]. simpl.
  rewrite filter_cons. destruct (Player.alive p) eqn:Ha.
  - rewrite decide_True by reflexivity. reflexivity.
  - rewrite decide_False by discriminate. exact IH.
Qed.

(** X17. When [play] comes to its end, started from the constructor with
    decks that are shuffles of the 20 cards, exactly one player is alive,
    and that player is the one announced as the winner. *)
Theorem game_ends_with_one_player_alive (fuel innerFuel : nat)
    (firstDeck : list Card) (ins : nat → RoundInputs) (r0 : Z) (g : Game) :
  0 ≤ r0 →
  firstDeck ≡ₚ freshDeck →
  (∀ k, roundDeck (ins k) ≡ₚ freshDeck) →
  play fuel innerFuel firstDeck ins (newGame r0) = Some g →
  reachable g
  ∧ countAlivePlayers g = 1
  ∧ ∃ p, p ∈ players g
         ∧ Player.alive p = true
         ∧ winner g = Some (Player.name p)
         ∧ ∀ q, q ∈ players g → Player.alive q = true → q = p.
Proof.
  intros Hr0 Hfirst Hdecks Hplay. unfold play in Hplay.
  destruct (playRounds_stops_after_a_deal innerFuel ins fuel Hdecks 0
              (newGame r0) firstDeck g (reach_new r0 Hr0) Hfirst Hplay)
    as (g1 & deck & Hr1 & Hperm & -> & Hle).
  pose proof (reach_deal g1 deck Hr1 Hperm) as Hr.
  destruct (reachable_deal_five deck g1 Hr1 Hperm) as (_ & Heq & _).
  destruct (reachable_one_alive _ Hr) as [j Hj].
  destruct (alive_seat_counts _ j Hj) as [Hge _].
  set (g := dealCardsToAlive 5 deck g1) in *.
  assert (Hone : countAlivePlayers g = 1) by lia.
  split; [exact Hr|]. split; [exact Hone|].
  unfold countAlivePlayers in Hone. unfold winner. rewrite find_head_filter.
  destruct (filter (λ p, Player.alive p = true) (players g)) as [|p [|p' l]] eqn:Hf;
    simpl in Hone; try lia.
  assert (Hp : p ∈ filter (λ p, Player.alive p = true) (players g))
    by (rewrite Hf; left).
  apply list_elem_of_filter in Hp as [Hpa Hpin].
  exists p. split; [exact Hpin|]. split; [exact Hpa|]. split; [reflexivity|].
  intros q Hq Hqa.
  assert (Hqf : q ∈ filter (λ p, Player.alive p = true) (players g))
    by (apply list_elem_of_filter; auto).
  rewrite Hf in Hqf. apply list_elem_of_singleton in Hqf. exact Hqf.
Qed.

Lemma game_ends_with_one_player_alive_witness :
  let ins := λ _ : nat,
    mkRoundInputs "Sun" (λ _ _, mkInputs [0] "y" 0 0 0) freshDeck in
  0 ≤ 0
  ∧ freshDeck ≡ₚ freshDeck
  ∧ (∀ k, roundDeck (ins k) ≡ₚ freshDeck)
  ∧ ∃ g, play 10 50 freshDeck ins (newGame 0) = Some g
         ∧ countAlivePlayers g = 1.
Proof.
  assert (H0 : 0 ≤ 0) by lia.
  assert (Hp : freshDeck ≡ₚ freshDeck) by reflexivity.
  assert (Hd : ∀ k : nat,
             roundDeck (mkRoundInputs "Sun" (λ _ _, mkInputs [0] "y" 0 0 0)
                          freshDeck) ≡ₚ freshDeck)
    by (intros k; reflexivity).
  split; [exact H0|]. split; [exact Hp|]. split; [exact Hd|].
  destruct (play 10 50 freshDeck
              (λ _ : nat, mkRoundInputs "Sun" (λ _ _, mkInputs [0] "y" 0 0 0)
                            freshDeck) (newGame 0)) as [g|] eqn:Hplay.
  - exists g. split; [reflexivity|].
    exact (proj1 (proj2 (game_ends_with_one_player_alive 10 50 freshDeck _ 0 g
                           H0 Hp Hd Hplay))).
  - exfalso. vm_compute in Hplay. discriminate Hplay.
Defined.

(** ** The shape of every reachable state *)

Lemma afterPlay_records_length (inp : Inputs) (g : Game) :
  length (lastPlayedByIndex (afterPlay inp g)) = length (lastPlayedByIndex g).
Proof.
  unfold afterPlay. case_match; unfold humanPlays, botPlays, recordPlay; simpl;
    case_match; simpl; rewrite ?length_insert;
    apply (f_equal length), updPlayer_frame.
Qed.

Lemma iteration_records_length (focus : Card) (inp : Inputs) (r : Round) :
  seated (game r) →
  roundOver r = false →
  length (lastPlayedByIndex (game (loopBody focus inp r).1.2))
  = length (lastPlayedByIndex (game r)).
Proof.
  intros Hseat Hover. set (g := game r).
  destruct (decide (1 < countAliveWithCards g)) as [Hcount|Hcount];
    [destruct (canAct (playerAt g (currentPlayerIndex g))) eqn:Hact|].
  - rewrite (loopBody_played focus inp r Hcount Hact).
    rewrite <- (afterPlay_records_length inp g).
    destruct (played_iteration_shape focus inp r Hseat Hover Hcount)
      as [Hp|(_ & _ & -> & _)].
    + destruct Hp as (_ & _ & ->). reflexivity.
    + fold g. f_equal. apply resolved_effect.
  - pose proof (idle_iteration_shape focus inp r (or_intror Hact)) as Hp.
    destruct Hp as (_ & _ & ->). reflexivity.
  - assert (Hle : countAliveWithCards g ≤ 1) by lia.
    pose proof (idle_iteration_shape focus inp r (or_introl Hle)) as Hp.
    destruct Hp as (_ & _ & ->). reflexivity.
Qed.

Lemma reachable_fourSeats (g : Game) : reachable g → fourSeats g.
Proof.
  intros Hr. destruct (reachable_invariant g Hr) as (Hn & Hs & _).
  split; [exact Hn|]. split; [|exact Hs].
  induction Hr as [r Hr | g cards Hg IH _ | g focus inp asked Hg IH].
  - reflexivity.
  - destruct (reachable_invariant g Hg) as (Hn' & Hs' & _).
    specialize (IH Hn' Hs'). simpl.
    rewrite <- (length_map Player.name (dealTo _ _ _)), dealTo_names, length_map.
    exact IH.
  - destruct (reachable_invariant g Hg) as (Hn' & Hs' & _).
    specialize (IH Hn' Hs').
    rewrite (iteration_records_length focus inp (mkRound g false asked) Hs' eq_refl).
    simpl. rewrite IH.
    rewrite <- (length_map Player.name (players g)), Hn'.
    rewrite <- (length_map Player.name), Hn. reflexivity.
Qed.

(** X18. In every reachable state the vectors the program indexes have
    the size it assumes: there are exactly four players, named Human,
    Bot1, Bot2 and Bot3 in seat order (so the names are distinct),
    [currentPlayerIndex] is the index of one of them, and
    [lastPlayedByIndex] has one entry for each. *)
Theorem reachable_state_is_well_formed (g : Game) :
  reachable g →
  map Player.name (players g) = ["Human"; "Bot1"; "Bot2"; "Bot3"]%string
  ∧ NoDup (map Player.name (players g))
  ∧ numPlayers g = 4
  ∧ 0 ≤ currentPlayerIndex g < 4
  ∧ length (lastPlayedByIndex g) = 4%nat.
Proof.
  intros Hr. destruct (reachable_fourSeats g Hr) as (Hn & Hl & Hs).
  assert (Hfour : length (players g) = 4%nat)
    by (rewrite <- (length_map Player.name), Hn; reflexivity).
  unfold seated, numPlayers in *. rewrite Hfour in *.
  split; [exact Hn|]. split; [rewrite Hn; exact NoDup_seatNames|].
  split; [reflexivity|]. split; [exact Hs | exact Hl].
Qed.

Lemma reachable_state_is_well_formed_witness :
  reachable Scenario.bot1Empty
  ∧ length (lastPlayedByIndex Scenario.bot1Empty) = 4%nat.
Proof.
  split; [exact reachable_bot1Empty|].
  exact (proj2 (proj2 (proj2 (proj2
           (reachable_state_is_well_formed _ reachable_bot1Empty))))).
Defined.

(** ** The turn after a challenge *)

Lemma handleQuestioning_turn
    (qi pi : Z) (played : list Card) (focus : Card) (rnd : Z) (g : Game) :
  NoDup (map Player.name (players g)) →
  0 ≤ qi < numPlayers g →
  currentPlayerIndex (handleQuestioning qi pi played focus rnd g).1.1 = qi.
Proof.
  intros Hnd Hq.
  rewrite (handleQuestioning_unfold qi pi played focus rnd g). simpl.
  set (g1 := (bombRisk (atFault qi pi played focus) rnd g).1).
  assert (Hfind : findPlayerIndex g1 (Player.name (playerAt g qi)) = qi).
  { rewrite (findPlayerIndex_names g g1 _ (bombRisk_names _ rnd g)).
    apply findPlayerIndex_NoDup; assumption. }
  unfold giveTurnTo. rewrite Hfind.
  destruct (qi =? -1) eqn:E; [apply Z.eqb_eq in E; lia | reflexivity].
Qed.

(** X19. With a questioner that sits at a seat of a game with distinct
    names, the defensive fallback of challenge resolution is never taken:
    after the resolution the current index is the seat of the questioner,
    whether or not the questioner survived. *)
Theorem turn_goes_to_the_questioner
    (qi pi : Z) (played : list Card) (focus : Card) (rnd : Z) (g : Game) :
  NoDup (map Player.name (players g)) →
  0 ≤ qi < numPlayers g →
  currentPlayerIndex (handleQuestioning qi pi played focus rnd g).1.1 = qi.
Proof. exact (handleQuestioning_turn qi pi played focus rnd g). Qed.

Lemma turn_goes_to_the_questioner_witness :
  NoDup (map Player.name (players Scenario.lastCards))
  ∧ 0 ≤ 2 < numPlayers Scenario.lastCards
  ∧ currentPlayerIndex
      (handleQuestioning 2 1 ["Magic"; "Magic"]%string "Moon" 0
         Scenario.lastCards).1.1 = 2.
Proof.
  assert (Hnd : NoDup (map Player.name (players Scenario.lastCards)))
    by (vm_compute; exact NoDup_seatNames).
  assert (Hq : 0 ≤ 2 < numPlayers Scenario.lastCards)
    by (vm_compute; split; [discriminate | reflexivity]).
  split; [exact Hnd|]. split; [exact Hq|].
  exact (turn_goes_to_the_questioner 2 1 _ "Moon" 0 Scenario.lastCards Hnd Hq).
Defined.

(** ** No card is lost in a play *)

Lemma takeChosen_conserves (idxs : list Z) (h : list Card) :
  StronglySorted Z.gt idxs →
  Forall (λ i, 0 ≤ i < Z.of_nat (length h)) idxs →
  h ≡ₚ foldl (λ h' i, Player.eraseAt i h') h idxs
       ++ map (at_index ""%string h) idxs.
Proof.
  intros Hs. revert h.
  induction Hs as [|idx rest Hs IH Hgt]; intros h Hin; simpl.
  - rewrite app_nil_r. reflexivity.
  - apply Forall_cons in Hin as [Hidx Hrest].
    assert (Hrest' : Forall (λ i, 0 ≤ i < Z.of_nat (length (Player.eraseAt idx h)))
                       rest).
    { rewrite Forall_forall in Hgt, Hrest |- *. intros i Hi.
      specialize (Hgt i Hi). specialize (Hrest i Hi).
      rewrite HumanPlay.length_eraseAt by lia. lia. }
    assert (Hmap : map (at_index ""%string (Player.eraseAt idx h)) rest
                   = map (at_index ""%string h) rest).
    { apply map_ext_in. intros i Hi. apply list_elem_of_In in Hi.
      rewrite Forall_forall in Hgt, Hrest.
      specialize (Hgt i Hi). specialize (Hrest i Hi).
      apply HumanPlay.at_index_eraseAt_below; lia. }
    rewrite <- Permutation_middle, <- Hmap, <- (IH _ Hrest').
    destruct (eraseAt_split idx h Hidx) as (b & c & a & Hh & _ & Hc & He).
    rewrite Hc, He. rewrite Hh at 1. symmetry. apply Permutation_middle.
Qed.

(** X20. A human play with a non-empty selection of distinct positions of
    the hand loses and invents no card: the hand before is a permutation
    of the hand after together with the play, and the play has as many
    cards as positions were selected. *)
Theorem humanPlay_conserves_cards (sel : list Z) (p : Player) :
  validSelection sel (Player.hand p) →
  Player.hand p ≡ₚ Player.hand (humanPlay sel p).2 ++ (humanPlay sel p).1
  ∧ length (humanPlay sel p).1 = length sel
  ∧ Player.name (humanPlay sel p).2 = Player.name p
  ∧ Player.alive (humanPlay sel p).2 = Player.alive p.
Proof.
  intros Hvalid. pose proof Hvalid as (_ & Hnd & Hin).
  pose proof (HumanPlay.sortDescending_perm sel) as Hperm.
  pose proof (HumanPlay.sortDescending_strict sel Hnd) as Hsorted.
  assert (Hin' : Forall (λ i, 0 ≤ i < Z.of_nat (length (Player.hand p)))
                   (sortDescending sel)) by (rewrite Hperm; exact Hin).
  split; [|split; [apply humanPlay_length; exact Hvalid|split]].
  - unfold humanPlay.
    rewrite (HumanPlay.takeChosen_descending _ _ [] Hsorted Hin'). simpl.
    rewrite <- Permutation_rev.
    apply takeChosen_conserves; assumption.
  - apply humanPlay_name.
  - apply humanPlay_alive.
Qed.

Lemma humanPlay_conserves_cards_witness :
  let p := Player.mk "Human" ["Sun"; "Star"; "Moon"]%string true in
  validSelection [2; 0] (Player.hand p)
  ∧ Player.hand p ≡ₚ Player.hand (humanPlay [2; 0] p).2 ++ (humanPlay [2; 0] p).1.
Proof.
  assert (Hv : validSelection [2; 0]
                 (Player.hand (Player.mk "Human" ["Sun"; "Star"; "Moon"]%string true))).
  { split; [discriminate|]. split; [compute_done|].
    repeat constructor; simpl; lia. }
  split; [exact Hv|].
  exact (proj1 (humanPlay_conserves_cards [2; 0] _ Hv)).
Defined.

(** ** The focus card *)

(** X21. For every value of [rand()] the focus card drawn is Sun, Moon or
    Star, never the wildcard: an all-Magic play is correct in every round,
    and a card that is neither Magic nor one of the three can never be
    part of a correct play. *)
Theorem focus_is_never_magic (rnd : Z) :
  0 ≤ rnd →
  let focus := randomFocusCard rnd in
  (focus = "Sun" ∨ focus = "Moon" ∨ focus = "Star")%string
  ∧ focus ≠ Magic
  ∧ (∀ n, playIsCorrect (replicate (S n) Magic) focus = true)
  ∧ (∀ c played, c ∈ played → c ≠ Magic →
       c ≠ "Sun"%string → c ≠ "Moon"%string → c ≠ "Star"%string →
       playIsCorrect played focus = false).
Proof.
  intros Hrnd focus.
  assert (Hcases : (focus = "Sun" ∨ focus = "Moon" ∨ focus = "Star")%string).
  { subst focus. unfold randomFocusCard.
    pose proof (Z.rem_bound_pos rnd 3 Hrnd ltac:(lia)) as Hb.
    assert (Hr : Z.rem rnd 3 = 0 ∨ Z.rem rnd 3 = 1 ∨ Z.rem rnd 3 = 2) by lia.
    destruct Hr as [->|[->| ->]]; simpl; auto. }
  split; [exact Hcases|]. split; [|split].
  - destruct Hcases as [->|[->| ->]]; discriminate.
  - intros n. change (playIsCorrect (Magic :: replicate n Magic) focus)
      with (allMatch (Magic :: replicate n Magic) focus).
    apply allMatch_Forall. constructor; [auto|].
    apply Forall_replicate. auto.
  - intros c played Hc Hm H1 H2 H3.
    destruct (playIsCorrect played focus) eqn:Hcorrect; [|reflexivity].
    exfalso. destruct played as [|c0 rest]; [discriminate|].
    change (allMatch (c0 :: rest) focus = true) in Hcorrect.
    apply allMatch_Forall in Hcorrect. rewrite Forall_forall in Hcorrect.
    destruct (Hcorrect c Hc) as [Hf|Hf]; [|contradiction].
    destruct Hcases as [E|[E|E]]; congruence.
Qed.

Lemma focus_is_never_magic_witness :
  0 ≤ 7 ∧ randomFocusCard 7 ≠ Magic.
Proof.
  assert (H : 0 ≤ 7) by lia.
  split; [exact H|].
  exact (proj1 (proj2 (focus_is_never_magic 7 H))).
Defined.

(** ** The play that a challenge judges *)

(** How the two flags of the round move in one iteration. *)
Lemma loopBody_flags (focus : Card) (inp : Inputs) (r : Round) :
  roundOver r = false →
  anyQuestionAsked (loopBody focus inp r).1.2 = anyQuestionAsked r
  ∨ (roundOver (loopBody focus inp r).1.2 = true
     ∧ anyQuestionAsked (loopBody focus inp r).1.2 = true).
Proof.
  intros Hover. unfold loopBody.
  destruct (countAliveWithCards (game r) <=? 1); [simpl; auto|].
  destruct (negb _ || _).
  - destruct (skipStep_cases r) as [[_ E]|[_ E]]; rewrite E; simpl; auto.
  - destruct (playTurn_shape focus inp r) as [[_ E]|[_ [E|E]]];
      destruct (playTurn focus inp r) as [[fl r1] ev1]; simpl in E;
      injection E as -> ->; simpl; [auto| |].
    + set (r1 := mkRound (afterPlay inp (game r)) (roundOver r)
                   (anyQuestionAsked r)).
      destruct (forcedQuestioning_shape focus inp r1) as [F|[F|(_ & _ & _ & F)]];
        destruct (forcedQuestioning focus inp r1) as [[fl2 r2] ev2]; simpl in F;
        injection F as -> ->; simpl; [|auto|].
      * assert (Hr1 : roundOver r1 = false) by exact Hover.
        destruct (advance_cases r1 Hr1) as [[_ E]|[_ E]]; rewrite E; simpl; auto.
      * pose proof (advance_shape (mkRound (resolved focus inp
                        (currentPlayerIndex (afterPlay inp (game r)))
                        (afterPlay inp (game r))) true true)) as [_ Ha].
        specialize (Ha eq_refl). destruct (advance _) as [[fl3 r3] ev3].
        simpl in Ha. injection Ha as -> ->. simpl. auto.
    + set (r1 := mkRound (resolved focus inp (currentPlayerIndex (game r))
                            (afterPlay inp (game r))) true true).
      assert (F : (forcedQuestioning focus inp r1).1 = (Next, r1)) by reflexivity.
      destruct (forcedQuestioning focus inp r1) as [[fl2 r2] ev2].
      simpl in F. injection F as -> ->. simpl.
      pose proof (advance_shape r1) as [_ Ha]. specialize (Ha eq_refl).
      destruct (advance r1) as [[fl3 r3] ev3]. simpl in Ha.
      injection Ha as -> ->. simpl. auto.
Qed.

(** X22. An iteration in which the current player plays, in a game with
    distinct names and a record per seat, does one of two things.  Either
    the play is all that happens to the players, counters and records
    (only the current index may move on).  Or exactly one challenge is
    resolved: by the next player who can act, a player other than the one
    who played, on exactly the cards just played; then the round is over
    and the current index is the seat of that questioner. *)
Theorem challenge_judges_the_play_just_made
    (focus : Card) (inp : Inputs) (r : Round) :
  let g := game r in
  let cur := currentPlayerIndex g in
  NoDup (map Player.name (players g)) →
  seated g →
  length (lastPlayedByIndex g) = length (players g) →
  roundOver r = false →
  1 < countAliveWithCards g →
  canAct (playerAt g cur) = true →
  let me := playerAt g cur in
  let move :=
    if String.eqb (Player.name me) "Human"
    then humanPlay (chosen inp) me
    else Player.playCards (Z.rem (playRand inp) 3 + 1) me in
  let g2 := afterPlay inp g in
  let next := getNextAlivePlayer g2 cur in
  let r' := (loopBody focus inp r).1.2 in
  sameButTurn g2 (game r')
  ∨ (next ≠ -1 ∧ next ≠ cur
     ∧ canAct (playerAt g next) = true
     ∧ game r' = (handleQuestioning next cur move.1 focus (bombRand inp) g2).1.1
     ∧ roundOver r' = true
     ∧ currentPlayerIndex (game r') = next).
Proof.
  intros g cur Hnd Hseat Hlen Hover Hcount Hact me move g2 next r'.
  subst r'. rewrite (loopBody_played focus inp r Hcount Hact).
  destruct (played_iteration_shape focus inp r Hseat Hover Hcount)
    as [Hp|(Hnext & Hother & Hg & Hro & _)]; [left; exact Hp|].
  fold g cur g2 next in Hnext, Hother, Hg.
  right. split; [exact Hnext|]. split; [exact Hother|].
  destruct (playedFrom_afterPlay inp g) as (_ & Hn2 & _ & Hnames2 & _ & Hothers).
  fold cur g2 in Hn2, Hnames2, Hothers.
  destruct (getNextAlivePlayer_found g2 cur Hnext) as [Hrange Hc].
  fold next in Hrange, Hc.
  destruct (afterPlay_recorded inp g Hnd Hseat Hlen) as (Hrec & _).
  fold cur me move g2 in Hrec.
  assert (Hname : Player.name (playerAt g2 cur) = Player.name me)
    by (subst me; rewrite !name_playerAt, Hnames2; reflexivity).
  assert (Hres : resolved focus inp cur g2
                 = (handleQuestioning next cur move.1 focus (bombRand inp) g2).1.1)
    by (unfold resolved; fold next; rewrite Hname, Hrec; reflexivity).
  split; [rewrite <- (Hothers next Hother); exact Hc|].
  split; [rewrite Hg; exact Hres|]. split; [exact Hro|].
  rewrite Hg, Hres. apply handleQuestioning_turn; [|exact Hrange].
  rewrite Hnames2. exact Hnd.
Qed.

Lemma challenge_judges_the_play_just_made_witness :
  let inp := Scenario.bot 2 false false in
  let r := mkRound Scenario.lastCards false false in
  let g := game r in
  NoDup (map Player.name (players g))
  ∧ seated g
  ∧ length (lastPlayedByIndex g) = length (players g)
  ∧ roundOver r = false
  ∧ 1 < countAliveWithCards g
  ∧ canAct (playerAt g (currentPlayerIndex g)) = true
  ∧ roundOver (loopBody "Moon" inp r).1.2 = true.
Proof.
  assert (Hnd : NoDup (map Player.name (players Scenario.lastCards)))
    by (vm_compute; exact NoDup_seatNames).
  assert (Hs : seated Scenario.lastCards)
    by (vm_compute; split; [discriminate | reflexivity]).
  assert (Hl : length (lastPlayedByIndex Scenario.lastCards)
               = length (players Scenario.lastCards)) by (vm_compute; reflexivity).
  assert (Hc : 1 < countAliveWithCards Scenario.lastCards)
    by (vm_compute; reflexivity).
  assert (Ha : canAct (playerAt Scenario.lastCards
                         (currentPlayerIndex Scenario.lastCards)) = true)
    by (vm_compute; reflexivity).
  split; [exact Hnd|]. split; [exact Hs|]. split; [exact Hl|].
  split; [reflexivity|]. split; [exact Hc|]. split; [exact Ha|].
  destruct (challenge_judges_the_play_just_made "Moon"
              (Scenario.bot 2 false false)
              (mkRound Scenario.lastCards false false) Hnd Hs Hl eq_refl Hc Ha)
    as [Hsame|(_ & _ & _ & _ & Hro & _)]; [|exact Hro].
  vm_compute. reflexivity.
Defined.

(** X23. The round loop never goes on with the question flag set: an
    iteration entered with the round not over leaves [anyQuestionAsked] as
    it was, or sets it together with [roundOver].  So the flag is false
    at every iteration of a round, and the forced challenge is never kept
    from firing by an earlier challenge of the same round. *)
Theorem question_flag_is_set_with_round_over
    (focus : Card) (inp : Inputs) (r : Round) :
  roundOver r = false →
  anyQuestionAsked r = false →
  let r' := (loopBody focus inp r).1.2 in
  (anyQuestionAsked r' = true → roundOver r' = true)
  ∧ (roundOver r' = false → anyQuestionAsked r' = false).
Proof.
  intros Hover Hasked r'.
  destruct (loopBody_flags focus inp r Hover) as [Hsame|[Hro Haq]];
    fold r' in Hsame || fold r' in Hro, Haq.
  - rewrite Hsame, Hasked. split; [discriminate | reflexivity].
  - rewrite Hro, Haq. split; [reflexivity | discriminate].
Qed.

Lemma question_flag_is_set_with_round_over_witness :
  let inp := Scenario.bot 2 false false in
  let r := mkRound Scenario.lastCards false false in
  roundOver r = false
  ∧ anyQuestionAsked r = false
  ∧ (anyQuestionAsked (loopBody "Moon" inp r).1.2 = true →
     roundOver (loopBody "Moon" inp r).1.2 = true).
Proof.
  split; [reflexivity|]. split; [reflexivity|].
  exact (proj1 (question_flag_is_set_with_round_over "Moon"
                  (Scenario.bot 2 false false)
                  (mkRound Scenario.lastCards false false) eq_refl eq_refl)).
Defined.
